(** * A shallow embedding of the scraper's acquisition and extraction core

    Part I translates the TypeScript sources, module by module:

    - [JS]             the string primitives the sources call
                       ([toLowerCase], [includes], [startsWith], [trim]);
    - [ContactFinder]  [contactFinder.ts];
    - [Types]          [types.ts] and the interface of the HTTP client;
    - [Fetch]          [fetchHtml] and [generateUrlVariations] of the two
                       direct strategies;
    - [Strategies]     [downloadStrategy.ts], the [isApplicable] and
                       [download] methods of the four strategies, and the
                       chain the orchestrator builds;
    - [Readability]    [HeadlessBrowserStrategy.findMainContent];
    - [LLM]            [llmProcessor.ts], the extraction batch queue;
    - [Site]           [SiteProcessor.processSite];
    - [InputLoader]    [inputLoader.ts];
    - [ContactPages]   [processContactPages] of [contactFinder.ts] and of the
                       headless browser;
    - [Headless]       [download] and [waitForPageContent] of the headless
                       browser;
    - [Hostnames]      the file names and keys derived from a URL;
    - [App]            [app.ts]: the tallies and the pool of
                       [processWithWorkerQueue], [FileOperationQueue];
    - [Analysis]       [analyzeExtractionResults];
    - [Ingest]         [ingest.ts];
    - [Api]            [api.ts], the handler of [POST /match];
    - [LLMRuns], [SiteRuns]  notions about runs of the queue and of the
                       pipeline.

    Each module ends with the notions its properties are stated with and
    with the data of the examples.  Part II proves the properties, in
    modules named after those of Part I.

    Strings are Rocq strings, one character per code unit, for the code
    units below 256 (Latin-1); white space, lower case and the UTF-8 length
    are those of JavaScript on these code units.  Network, file system, browser
    and inference service are not part of the program: a function that talks
    to one of them takes the answers of that collaborator as an argument and
    returns, next to its result, the calls it made. *)

From Stdlib Require Import String Ascii List ZArith Lia Bool DecimalString Sorted.
From stdpp Require Import gmap strings list fin_maps.
Import ListNotations.

(** * Part I: the program *)

(** ** JavaScript string primitives *)

Module JS.

(** [String.prototype.toLowerCase] on one code unit below 256: the capitals
    ['A'..'Z'] and the capitals of Latin-1 (192 to 222, but not the
    multiplication sign 215) move by 32. *)
Definition lower_ascii (c : ascii) : ascii :=
  let n := nat_of_ascii c in
  if ((Nat.leb 65 n && Nat.leb n 90) ||
      (Nat.leb 192 n && Nat.leb n 222 && negb (Nat.eqb n 215)))%bool
  then ascii_of_nat (n + 32) else c.

Fixpoint toLowerCase (s : string) : string :=
  match s with
  | EmptyString => EmptyString
  | String c s' => String (lower_ascii c) (toLowerCase s')
  end.

(** [s.startsWith(p)] *)
Fixpoint startsWith (s p : string) {struct p} : bool :=
  match p, s with
  | EmptyString, _ => true
  | String _ _, EmptyString => false
  | String a p', String b s' => Ascii.eqb a b && startsWith s' p'
  end.

(** [s.includes(k)]: [k] occurs in [s] at some offset. *)
Fixpoint includes (s k : string) : bool :=
  startsWith s k ||
  match s with
  | EmptyString => false
  | String _ s' => includes s' k
  end.

(** White space and line terminators, which [trim] removes and [\s]
    matches: among the code units below 256 the space, the controls 9 to 13
    and the no-break space 160. *)
Definition is_white (c : ascii) : bool :=
  let n := nat_of_ascii c in
  (Nat.eqb n 32 || (Nat.leb 9 n && Nat.leb n 13) || Nat.eqb n 160)%bool.

Fixpoint trimStart (s : string) : string :=
  match s with
  | EmptyString => EmptyString
  | String c s' => if is_white c then trimStart s' else s
  end.

Fixpoint trimEnd (s : string) : string :=
  match s with
  | EmptyString => EmptyString
  | String c s' =>
      match trimEnd s' with
      | EmptyString => if is_white c then EmptyString else String c EmptyString
      | t => String c t
      end
  end.

Definition trim (s : string) : string := trimEnd (trimStart s).

(** [k] is a substring of [s]. *)
Definition substring_of (k s : string) : Prop :=
  exists pre post, s = pre +:+ k +:+ post.

(** [k] occurs in [s] up to case: it is the lower case of a substring of
    [s]. *)
Definition ci_substring_of (k s : string) : Prop :=
  exists pre mid post, s = pre +:+ mid +:+ post /\ toLowerCase mid = k.

(** The first and the last character of [s], if any. *)
Definition firstChar (s : string) : option ascii :=
  match s with EmptyString => None | String c _ => Some c end.

Fixpoint lastChar (s : string) : option ascii :=
  match s with
  | EmptyString => None
  | String c EmptyString => Some c
  | String _ rest => lastChar rest
  end.

Definition notWhite (o : option ascii) : bool :=
  match o with Some c => negb (is_white c) | None => false end.

Fixpoint allWhite (s : string) : bool :=
  match s with
  | EmptyString => true
  | String c rest => is_white c && allWhite rest
  end.

Fixpoint noWhite (s : string) : bool :=
  match s with
  | EmptyString => true
  | String c rest => negb (is_white c) && noWhite rest
  end.

(** [t] is [s] without the white space at its two ends. *)
Definition trimmed_of (t s : string) : Prop :=
  exists pre post,
    s = pre +:+ t +:+ post /\ allWhite pre = true /\ allWhite post = true /\
    (t = EmptyString \/
     (notWhite (firstChar t) = true /\ notWhite (lastChar t) = true)).

End JS.

(** ** contactFinder.ts *)

Module ContactFinder.

Import JS.

Definition CONTACT_KEYWORDS : list string :=
  ["contact"; "imprint"; "impressum"; "about"]%string.

(** The callback of [links.filter]. *)
Definition isContactLink (mainPageUrl link : string) : bool :=
  existsb (fun keyword => includes (toLowerCase link) keyword) CONTACT_KEYWORDS
  && negb (String.eqb link mainPageUrl).

(** [findContactLinks(links, mainPageUrl)]; [None] is a missing (null or
    undefined) array. *)
Definition findContactLinks (links : option (list string)) (mainPageUrl : string)
  : list string :=
  match links with
  | None => []
  | Some ls =>
      if Nat.eqb (length ls) 0 then []
      else List.filter (isContactLink mainPageUrl) ls
  end.

(** What the locator is asked to keep: a link that contains a keyword up to
    case and is not the main page. *)
Definition qualifies (mainPageUrl link : string) : Prop :=
  (exists keyword, In keyword CONTACT_KEYWORDS /\ ci_substring_of keyword link)
  /\ link <> mainPageUrl.

(** [selection P ls out]: [out] is [ls] with exactly the elements satisfying
    [P] kept, each as often and in the order it occurs. *)
Inductive selection (P : string -> Prop) : list string -> list string -> Prop :=
| sel_nil : selection P [] []
| sel_keep l ls out : P l -> selection P ls out -> selection P (l :: ls) (l :: out)
| sel_drop l ls out : ~ P l -> selection P ls out -> selection P (l :: ls) out.

End ContactFinder.

(** ** types.ts and the HTTP client's interface *)

Module Types.

(** A JavaScript [Error]; the chain and the strategies read its [message]. *)
Record Error := Err { message : string }.

Record DownloadResult := {
  content : string;
  effectiveUrl : string;
  size : Z;
  links : list string;
  isMarkdown : bool
}.

Record DownloadStatus := {
  success : bool;
  protocol : string;
  method : string;
  details : string;
  error : option Error
}.

Record ExtractedData := {
  phone_numbers : list string;
  social_media_links : list string;
  addresses : list string
}.

Inductive ErrorType := DOWNLOAD | LLM | UNEXPECTED.

(** The object literal [{ phone_numbers: [], social_media_links: [],
    addresses: [] }]. *)
Definition emptyExtractedData : ExtractedData :=
  {| phone_numbers := []; social_media_links := []; addresses := [] |}.

(** A number inside a template literal. *)
Definition showZ (n : Z) : string := NilEmpty.string_of_int (Z.to_int n).

(** [Buffer.byteLength(s, 'utf8')]: a code unit below 128 is encoded in one
    byte, a code unit from 128 to 255 in two. *)
Fixpoint byteLength (s : string) : Z :=
  match s with
  | EmptyString => 0
  | String c s' =>
      ((if Nat.ltb (nat_of_ascii c) 128 then 1 else 2) + byteLength s')%Z
  end.

(** What [got] rejects with: the fields [isRetryableError] reads, and the
    message. *)
Record GotError := {
  gname : string;
  gcode : option string;
  gstatusCode : option Z;
  gmessage : string
}.

Record Response := {
  statusCode : Z;
  body : string;
  rurl : string
}.

(** One call of [got]: the URL requested and the [retry.limit] passed. *)
Record Request := { target : string; retryLimit : nat }.

(** The network: what [got(url, {retry: {limit}})] settles with. *)
Definition Network := string -> nat -> Response + GotError.

End Types.

(** ** fetchHtml and generateUrlVariations of the direct strategies *)

Module Fetch.

Import JS Types.

(** The part of the platform's [URL] class the strategies use. *)
Class URLApi (U : Type) := {
  parse : string -> option U;          (* [new URL(s)], [None] when it throws *)
  hostname : U -> string;              (* [u.hostname] *)
  set_hostname : U -> string -> U;     (* [u.hostname = h] *)
  toString : U -> string               (* [u.toString()] *)
}.

(** A JavaScript [Set<string>]: insertion order, no repetition. *)
Definition set_add (x : string) (s : list string) : list string :=
  if existsb (String.eqb x) s then s else s ++ [x].

Definition set_delete (x : string) (s : list string) : list string :=
  List.filter (fun y => negb (String.eqb x y)) s.

(** [s.substring(n)] *)
Fixpoint substring_from (n : nat) (s : string) : string :=
  match n, s with
  | O, _ => s
  | S n', String _ s' => substring_from n' s'
  | S _, EmptyString => EmptyString
  end.

Section FetchHtml.
Context {U : Type} {api : URLApi U}.
Variable got : Network.

(** The two forms of the host name: with and without a leading ["www."]. *)
Definition wwwHostname (h : string) : string :=
  if startsWith h "www." then h else ("www." +:+ h)%string.

Definition baseHostname (h : string) : string :=
  if startsWith h "www." then substring_from 4 h else h.

Definition generateUrlVariations (url : string) : list string :=
  match parse url with
  | None => []
  | Some urlObj =>
      let h := hostname urlObj in
      let urlObj := set_hostname urlObj (wwwHostname h) in
      let potentialUrls := set_add (toString urlObj) [] in
      let urlObj := set_hostname urlObj (baseHostname h) in
      set_add (toString urlObj) potentialUrls
  end.

(** The [for (const fbUrl of potentialUrls)] loop: the response of the first
    variant that answers, and the requests made. *)
Fixpoint tryVariations (potentialUrls : list string)
  : option Response * list Request :=
  match potentialUrls with
  | [] => (None, [])
  | fbUrl :: rest =>
      if String.eqb fbUrl "" then tryVariations rest
      else
        let req := {| target := fbUrl; retryLimit := 0 |} in
        match got fbUrl 0 with
        | inl response => (Some response, [req])
        | inr _ => let '(r, reqs) := tryVariations rest in (r, req :: reqs)
        end
  end.

(** [fetchHtml(url)] of either direct strategy; [isRetryableError] and the
    word in the final message ([HTTPS] or [HTTP]) are the strategy's own. *)
Definition fetchHtmlWith (isRetryableError : GotError -> bool) (label : string)
  (url : string) : (Response + Error) * list Request :=
  let first := {| target := url; retryLimit := 1 |} in
  match got url 1 with
  | inl response => (inl response, [first])
  | inr error =>
      let '(r, reqs) :=
        if isRetryableError error
        then tryVariations (set_delete url (generateUrlVariations url))
        else (None, []) in
      match r with
      | Some response => (inl response, first :: reqs)
      | None =>
          (inr (Err ("All " +:+ label +:+ " fetch attempts failed for " +:+ url)),
           first :: reqs)
      end
  end.

End FetchHtml.

Definition opt_eqb (o : option string) (s : string) : bool :=
  match o with Some x => String.eqb x s | None => false end.

Definition status_is (o : option Z) (n : Z) : bool :=
  match o with Some x => Z.eqb x n | None => false end.

Module LocalHttpsStrategy.

Definition isRetryableError (error : GotError) : bool :=
  opt_eqb (gcode error) "EPROTO" ||
  String.eqb (gname error) "RequestError" ||
  String.eqb (gname error) "TimeoutError" ||
  opt_eqb (gcode error) "ENOTFOUND" ||
  opt_eqb (gcode error) "ECONNREFUSED" ||
  status_is (gstatusCode error) 403.

Definition fetchHtml {U} {api : URLApi U} (got : Network) (url : string) :=
  fetchHtmlWith got isRetryableError "HTTPS" url.

End LocalHttpsStrategy.

Module LocalHttpStrategy.

Definition isRetryableError (error : GotError) : bool :=
  String.eqb (gname error) "RequestError" ||
  String.eqb (gname error) "TimeoutError" ||
  opt_eqb (gcode error) "ENOTFOUND" ||
  opt_eqb (gcode error) "ECONNREFUSED" ||
  status_is (gstatusCode error) 403.

Definition fetchHtml {U} {api : URLApi U} (got : Network) (url : string) :=
  fetchHtmlWith got isRetryableError "HTTP" url.

End LocalHttpStrategy.

(** *** A concrete [URL] for http(s) addresses

    [scheme://host] followed by an optional port, path, query and fragment, as
    [new URL] reads such an address: the host is lower-cased and an empty path
    becomes ["/"].  Used to run the functions above on examples. *)

Record SimpleURL := { u_scheme : string; u_host : string; u_tail : string }.

Definition is_host_end (c : ascii) : bool :=
  let n := nat_of_ascii c in
  (Nat.eqb n 47 || Nat.eqb n 58 || Nat.eqb n 63 || Nat.eqb n 35)%bool.

Fixpoint split_host (s : string) : string * string :=
  match s with
  | EmptyString => (EmptyString, EmptyString)
  | String c s' =>
      if is_host_end c then (EmptyString, s)
      else let '(h, t) := split_host s' in (String c h, t)
  end.

Definition simple_parse_after (scheme rest : string) : option SimpleURL :=
  let '(h, t) := split_host rest in
  if String.eqb h "" then None
  else Some {| u_scheme := scheme; u_host := toLowerCase h;
               u_tail := if startsWith t "/" || startsWith t ":" then t
                         else ("/" +:+ t)%string |}.

Definition simple_parse (s : string) : option SimpleURL :=
  if startsWith (toLowerCase s) "https://"
  then simple_parse_after "https:" (substring_from 8 s)
  else if startsWith (toLowerCase s) "http://"
  then simple_parse_after "http:" (substring_from 7 s)
  else None.

#[export] Instance simpleURL : URLApi SimpleURL := {|
  parse := simple_parse;
  hostname := u_host;
  set_hostname := fun u h =>
    if String.eqb h "" then u
    else {| u_scheme := u_scheme u; u_host := toLowerCase h; u_tail := u_tail u |};
  toString := fun u => (u_scheme u +:+ "//" +:+ u_host u +:+ u_tail u)%string
|}.

Section FetchRun.
Context {U : Type} {api : URLApi U}.
Variable got : Network.

(** The two serialisations [generateUrlVariations] adds to its set. *)
Definition wwwForm (u : U) : string :=
  toString (set_hostname u (wwwHostname (hostname u))).

Definition baseForm (u : U) : string :=
  toString (set_hostname (set_hostname u (wwwHostname (hostname u)))
                         (baseHostname (hostname u))).

(** The alternates left after [potentialUrls.delete(url)] and the
    [if (!fbUrl) continue] guard. *)
Definition alternates (url : string) : list string :=
  List.filter (fun t => negb (String.eqb t ""))
              (set_delete url (generateUrlVariations url)).

Definition answers (t : string) (r : Response) : Prop := got t 0%nat = inl r.

Definition refuses (t : string) : Prop := exists e, got t 0%nat = inr e.

(** What a run of the fallback looks like: the first request carries
    [retry.limit = 1], then the alternates are requested with limit 0, in
    order, each once, until one answers. *)
Definition fallback_run (label url : string)
  (out : Response + Error) (reqs : list Request) : Prop :=
  exists attempted,
    reqs = {| target := url; retryLimit := 1 |}
           :: map (fun t => {| target := t; retryLimit := 0 |}) attempted /\
    attempted `prefix_of` alternates url /\
    match out with
    | inl r => exists pre t,
        attempted = pre ++ [t] /\ answers t r /\ Forall refuses pre
    | inr e =>
        attempted = alternates url /\ Forall refuses attempted /\
        e = Err ("All " +:+ label +:+ " fetch attempts failed for " +:+ url)
    end.

End FetchRun.

(** A network on which every request fails with a DNS error. *)
Definition unreachable : Network :=
  fun _ _ => inr {| gname := "RequestError"; gcode := Some "ENOTFOUND"%string;
                    gstatusCode := None;
                    gmessage := "getaddrinfo ENOTFOUND" |}.

End Fetch.

(** ** downloadStrategy.ts and the four strategies *)

Module Strategies.

Import JS Types.

(** The [DownloadStrategy] interface.  [download] is the outcome of the
    strategy's [download(url)] in the run considered. *)
Record DownloadStrategy := {
  name : string;
  sprotocol : string;
  smethod : string;
  isApplicable : string -> option Error -> bool;
  download : string -> DownloadResult + Error
}.

(** One call of the [onAttempt] callback: the strategy whose [download] was
    just awaited, and the status reported for it. *)
Definition Attempt : Type := DownloadStrategy * DownloadStatus.

Definition successStatus (strategy : DownloadStrategy) : DownloadStatus :=
  {| success := true; protocol := sprotocol strategy; method := smethod strategy;
     details := "Downloaded using " +:+ name strategy; error := None |}.

Definition failureStatus (strategy : DownloadStrategy) (lastError : Error)
  : DownloadStatus :=
  {| success := false; protocol := sprotocol strategy; method := smethod strategy;
     details := "Failed: " +:+ message lastError; error := Some lastError |}.

(** The [for (const strategy of this.strategies)] loop of [execute], entered
    with the current value of [lastError]. *)
Fixpoint executeFrom (strategies : list DownloadStrategy) (url : string)
  (lastError : option Error)
  : (DownloadResult * DownloadStatus + Error) * list Attempt :=
  match strategies with
  | [] =>
      (inr (match lastError with
            | Some e => e
            | None => Err "All download strategies failed"
            end), [])
  | strategy :: rest =>
      if negb (isApplicable strategy url lastError)
      then executeFrom rest url lastError
      else
        match download strategy url with
        | inl result =>
            let status := successStatus strategy in
            (inl (result, status), [(strategy, status)])
        | inr e =>
            let '(r, log) := executeFrom rest url (Some e) in
            (r, (strategy, failureStatus strategy e) :: log)
        end
  end.

(** [DownloadStrategyChain]: the array of strategies, [addStrategy] and
    [execute]. *)
Definition DownloadStrategyChain : Type := list DownloadStrategy.

Definition addStrategy (chain : DownloadStrategyChain) (strategy : DownloadStrategy)
  : DownloadStrategyChain := chain ++ [strategy].

Definition execute (chain : DownloadStrategyChain) (url : string)
  : (DownloadResult * DownloadStatus + Error) * list Attempt :=
  executeFrom chain url None.

(** [url.replace(/^http:\/\//i, 'https://')] and its mirror image. *)
Definition toHttps (url : string) : string :=
  if startsWith (toLowerCase url) "http://"
  then "https://" +:+ Fetch.substring_from 7 url else url.

Definition toHttp (url : string) : string :=
  if startsWith (toLowerCase url) "https://"
  then "http://" +:+ Fetch.substring_from 8 url else url.

(** What the world outside the program answers: the network, and the HTML
    processing of the direct strategies (cheerio and turndown), which turns a
    page and its effective URL into markdown and links. *)
Record World := {
  got : Network;
  htmlToMarkdown : string -> string -> string;
  extractLinks : string -> string -> list string
}.

Section Concrete.
Context {U : Type} {api : Fetch.URLApi U}.
Variable w : World.

(** The part of [download] after [fetchHtml], common to both direct
    strategies. *)
Definition pageResult (response : Response) : DownloadResult :=
  let markdown := htmlToMarkdown w (body response) (rurl response) in
  {| content := markdown; effectiveUrl := rurl response;
     size := byteLength markdown;
     links := extractLinks w (body response) (rurl response);
     isMarkdown := true |}.

Definition localHttpsDownload (url : string) : DownloadResult + Error :=
  match fst (Fetch.LocalHttpsStrategy.fetchHtml (got w) (toHttps url)) with
  | inl response => inl (pageResult response)
  | inr e => inr e
  end.

Definition localHttpDownload (url : string) : DownloadResult + Error :=
  match fst (Fetch.LocalHttpStrategy.fetchHtml (got w) (toHttp url)) with
  | inl response => inl (pageResult response)
  | inr e => inr e
  end.

(** [downloadUsingExternalService] followed by the rest of [download] of the
    external strategies. *)
Definition externalDownload (label : string) (url : string)
  : DownloadResult + Error :=
  match got w ("https://r.jina.ai/" +:+ url) 0%nat with
  | inl response =>
      if Z.eqb (statusCode response) 200
      then inl {| content := body response; effectiveUrl := url;
                  size := byteLength (body response); links := [];
                  isMarkdown := true |}
      else inr (Err ("External " +:+ label +:+ " download failed: "
                     +:+ "Jina Reader service returned status code "
                     +:+ showZ (statusCode response)))
  | inr e =>
      inr (Err ("External " +:+ label +:+ " download failed: " +:+ gmessage e))
  end.

End Concrete.

Definition includesLower (previousError : Error) (signature : string) : bool :=
  includes (toLowerCase (message previousError)) signature.

Module LocalHttpsStrategy.

Definition isApplicable (url : string) (previousError : option Error) : bool := true.

End LocalHttpsStrategy.

Module LocalHttpStrategy.

Definition isApplicable (url : string) (previousError : option Error) : bool :=
  match previousError with
  | None => false
  | Some previousError =>
      includesLower previousError "fetch attempts failed" ||
      includesLower previousError "enotfound" ||
      includesLower previousError "econnrefused" ||
      includesLower previousError "timeout" ||
      includesLower previousError "403"
  end.

End LocalHttpStrategy.

Module ExternalHttpsStrategy.

Definition isApplicable (url : string) (previousError : option Error) : bool :=
  match previousError with
  | None => false
  | Some previousError => includesLower previousError "fetch attempts failed"
  end.

End ExternalHttpsStrategy.

Module ExternalHttpStrategy.

Definition isApplicable (url : string) (previousError : option Error) : bool :=
  match previousError with
  | None => false
  | Some previousError =>
      includesLower previousError "external https download failed"
  end.

End ExternalHttpStrategy.

Section Chain.
Context {U : Type} {api : Fetch.URLApi U}.
Variable w : World.

Definition localHttps : DownloadStrategy :=
  {| name := "Local HTTPS"; sprotocol := "HTTPS"; smethod := "Local";
     isApplicable := LocalHttpsStrategy.isApplicable;
     download := localHttpsDownload w |}.

Definition localHttp : DownloadStrategy :=
  {| name := "Local HTTP"; sprotocol := "HTTP"; smethod := "Local";
     isApplicable := LocalHttpStrategy.isApplicable;
     download := localHttpDownload w |}.

Definition externalHttps : DownloadStrategy :=
  {| name := "External HTTPS"; sprotocol := "HTTPS"; smethod := "External";
     isApplicable := ExternalHttpsStrategy.isApplicable;
     download := fun url => externalDownload w "HTTPS" (toHttps url) |}.

Definition externalHttp : DownloadStrategy :=
  {| name := "External HTTP"; sprotocol := "HTTP"; smethod := "External";
     isApplicable := ExternalHttpStrategy.isApplicable;
     download := fun url => externalDownload w "HTTP" (toHttp url) |}.

(** The chain the [SiteProcessor] constructor builds. *)
Definition downloadChain : DownloadStrategyChain :=
  addStrategy (addStrategy (addStrategy [] localHttps) localHttp) externalHttps.

End Chain.

(** *** Notions used to state the properties of the chain *)


(** A failed attempt: [download] rejected with [e], and [e] was reported. *)
Definition failed (url : string) (a : Attempt) : Prop :=
  exists e, download (fst a) url = inr e /\ snd a = failureStatus (fst a) e.

(** A world in which nothing can be reached. *)
Definition deadWorld : World :=
  {| got := Fetch.unreachable;
     htmlToMarkdown := fun _ _ => EmptyString;
     extractLinks := fun _ _ => [] |}.

(** *** Notions used for the applicability of the direct-insecure strategy *)

(** The four conditions the specification lists: a timeout, a refused
    connection, a failed name resolution, a 403 response. *)
Definition transportFailureText (e : Error) : bool :=
  includesLower e "timeout" || includesLower e "econnrefused" ||
  includesLower e "enotfound" || includesLower e "403".

Definition LOCAL_HTTP_SIGNATURES : list string :=
  ["fetch attempts failed"; "enotfound"; "econnrefused"; "timeout"; "403"]%string.

(** A server that answers every request with 404. *)
Definition notFound : Network :=
  fun _ _ => inr {| gname := "HTTPError"; gcode := Some "ERR_NON_2XX_3XX_RESPONSE"%string;
                    gstatusCode := Some 404%Z;
                    gmessage := "Response code 404 (Not Found)" |}.

End Strategies.

(** ** headlessBrowserStrategy.ts: the readability scorer *)

Module Readability.

Import JS.

(** The parsed document: text nodes and elements.  [className] and [id] are
    the values of the [class] and [id] attributes, empty when the attribute
    is absent (the source reads them as [attr(..) || '']).  Tag names are in
    lower case, as the HTML parser leaves them. *)
#[warnings="-register-all"]
Inductive Node :=
| TextNode (data : string)
| Element (tagName className id : string) (children : list Node).

(** [$element.text()] *)
Fixpoint text (n : Node) : string :=
  match n with
  | TextNode data => data
  | Element _ _ _ children =>
      fold_right String.append EmptyString (map text children)
  end.

(** The elements and text nodes below [n], in document order. *)
Fixpoint descendants (n : Node) : list Node :=
  match n with
  | TextNode _ => []
  | Element _ _ _ children => flat_map (fun c => c :: descendants c) children
  end.

Definition hasTag (tags : list string) (n : Node) : bool :=
  match n with
  | TextNode _ => false
  | Element t _ _ _ => existsb (String.eqb t) tags
  end.

(** [$element.find(selector).length] for a selector that lists tag names. *)
Definition findCount (tags : list string) (n : Node) : Z :=
  Z.of_nat (length (List.filter (hasTag tags) (descendants n))).

(** The white-space separated tokens of a [class] attribute. *)
Fixpoint splitWhite (s : string) : list string :=
  match s with
  | EmptyString => [EmptyString]
  | String c s' =>
      if is_white c then EmptyString :: splitWhite s'
      else match splitWhite s' with
           | t :: ts => String c t :: ts
           | [] => [String c EmptyString]
           end
  end.

Definition classList (className : string) : list string :=
  List.filter (fun t => negb (String.eqb t "")) (splitWhite className).

(** The selector of the scoring loop:
    [div, section, article, main, .content, #content, .post, .article,
     .page-content, .entry-content]. *)
Definition isContainer (n : Node) : bool :=
  match n with
  | TextNode _ => false
  | Element t cls id _ =>
      existsb (String.eqb t) ["div"; "section"; "article"; "main"]%string ||
      existsb (fun c => existsb (String.eqb c) (classList cls))
        ["content"; "post"; "article"; "page-content"; "entry-content"]%string ||
      String.eqb id "content"
  end.

Definition classAndId (n : Node) : string :=
  match n with
  | TextNode _ => " "
  | Element _ cls id _ => cls +:+ " " +:+ id
  end.

(** [/content|article|post|entry|text|body|column|main|page/i] *)
Definition POSITIVE : list string :=
  ["content"; "article"; "post"; "entry"; "text"; "body"; "column"; "main";
   "page"]%string.

(** [/comment|meta|footer|footnote|sidebar|widget|banner|ad|promo|navigation|nav|menu/i] *)
Definition NEGATIVE : list string :=
  ["comment"; "meta"; "footer"; "footnote"; "sidebar"; "widget"; "banner";
   "ad"; "promo"; "navigation"; "nav"; "menu"]%string.

(** [regex.test(s)] for a case-insensitive alternation of plain words. *)
Definition regexTest (alternatives : list string) (s : string) : bool :=
  existsb (fun alt => includes (toLowerCase s) alt) alternatives.

Definition positiveRegex (n : Node) : bool := regexTest POSITIVE (classAndId n).

Definition negativeRegex (n : Node) : bool := regexTest NEGATIVE (classAndId n).

(** [text.length] of [$element.text().trim()]. *)
Definition textLength (n : Node) : Z :=
  Z.of_nat (String.length (trim (text n))).

Definition HEADINGS : list string := ["h1"; "h2"; "h3"; "h4"; "h5"; "h6"]%string.

(** The value of [score] when the loop body reaches the nesting check. *)
Definition score (n : Node) : Z :=
  (let score := 0 in
   let score := score + Z.min (textLength n / 100) 20 in
   let score := score + findCount ["p"%string] n * 2 in
   let score := score + findCount HEADINGS n * 3 in
   let score := score + findCount ["img"%string] n in
   let score := score + findCount ["ul"; "ol"]%string n * 2 in
   let score := if positiveRegex n then score + 5 else score in
   let score := if negativeRegex n then score - 10 else score in
   score)%Z.

(** The [for (let i = 0; i < 3 && parent.length; i++)] loop over the chain
    of parents, nearest first. *)
Definition isNested (ancestors : list Node) : bool :=
  existsb positiveRegex (firstn 3 ancestors).

(** Every element of the document with the chain of its ancestors, nearest
    first, in document order. *)
Fixpoint walk (ancestors : list Node) (n : Node) : list (Node * list Node) :=
  match n with
  | TextNode _ => []
  | Element _ _ _ children =>
      (n, ancestors) :: flat_map (walk (n :: ancestors)) children
  end.

Record Candidate := { element : Node; cscore : Z }.

(** The [candidates] array after the [each] loop. *)
Definition candidates (doc : Node) : list Candidate :=
  flat_map
    (fun '(n, ancestors) =>
       if isContainer n then
         if (10 <? score n)%Z && (200 <? textLength n)%Z && negb (isNested ancestors)
         then [{| element := n; cscore := score n |}] else []
       else [])
    (walk [] doc).

(** [candidates.sort((a, b) => b.score - a.score)]: a stable sort, highest
    score first. *)
Fixpoint insertByScore (c : Candidate) (l : list Candidate) : list Candidate :=
  match l with
  | [] => [c]
  | d :: l' =>
      if (cscore d <=? cscore c)%Z then c :: l else d :: insertByScore c l'
  end.

Fixpoint sortByScore (l : list Candidate) : list Candidate :=
  match l with
  | [] => []
  | c :: l' => insertByScore c (sortByScore l')
  end.

(** [findMainContent]: the element whose inner HTML is returned, [None] for
    [null]. *)
Definition findMainContent (doc : Node) : option Node :=
  match sortByScore (candidates doc) with
  | topCandidate :: _ =>
      if (20 <? cscore topCandidate)%Z then Some (element topCandidate) else None
  | [] => None
  end.

(** [$('body')]: the first [body] element of the document. *)
Definition bodyOf (doc : Node) : option Node :=
  head (List.filter (hasTag ["body"%string]) (doc :: descendants doc)).

(** [processHtml], once scripts, styles and hidden elements are removed: the
    element whose inner HTML is converted, the main content if one is
    selected and the body otherwise. *)
Definition processHtml (doc : Node) : option Node :=
  match findMainContent doc with
  | Some mainContent => Some mainContent
  | None => bodyOf doc
  end.

(** *** Notions used to state the properties of the scorer *)

(** [c] is the highest-scoring entry of [l], and the first one among those
    of equal score. *)
Definition first_highest (l : list Candidate) (c : Candidate) : Prop :=
  exists pre post,
    l = pre ++ c :: post /\
    (forall d, In d pre -> (cscore d < cscore c)%Z) /\
    (forall d, In d post -> (cscore d <= cscore c)%Z).

(** The order [candidates.sort] produces: no entry is followed by one of a
    higher score. *)
Definition byScore (a b : Candidate) : Prop := (cscore b <= cscore a)%Z.

(** The entries of score [v], in the order of the list: a stable sort leaves
    this sublist unchanged for every [v]. *)
Definition scored (v : Z) (l : list Candidate) : list Candidate :=
  List.filter (fun c => (cscore c =? v)%Z) l.

(** *** Positions in the document *)

(** The node at a position: the list of child indices that lead to it from
    [n]. *)
Fixpoint nodeAt (n : Node) (p : list nat) : option Node :=
  match p with
  | [] => Some n
  | i :: p' =>
      match n with
      | TextNode _ => None
      | Element _ _ _ children =>
          match nth_error children i with
          | Some c => nodeAt c p'
          | None => None
          end
      end
  end.

(** Document order on positions: a node comes before the nodes it contains,
    and these before the later children of its parent. *)
Fixpoint before (p q : list nat) : Prop :=
  match p, q with
  | [], _ :: _ => True
  | i :: p', j :: q' => i < j \/ (i = j /\ before p' q')
  | _, _ => False
  end.

(** [f i x] for each element [x] of a list, [i] counting the elements from
    the start. *)
Definition numbered {A B : Type} (f : nat -> A -> list B) : nat -> list A -> list B :=
  fix go (i : nat) (l : list A) : list B :=
    match l with
    | [] => []
    | x :: l' => f i x ++ go (S i) l'
    end.

(** The positions of [n] and of the nodes below it, in document order. *)
Fixpoint positions (n : Node) : list (list nat) :=
  [] :: match n with
        | TextNode _ => []
        | Element _ _ _ children =>
            numbered (fun i c => map (cons i) (positions c)) 0 children
        end.

(** The nodes on the way from [n] to a position, nearest to the position
    first. *)
Fixpoint ancestorsAt (n : Node) (p : list nat) : list Node :=
  match p with
  | [] => []
  | i :: p' =>
      match n with
      | TextNode _ => []
      | Element _ _ _ children =>
          match nth_error children i with
          | Some c => ancestorsAt c p' ++ [n]
          | None => []
          end
      end
  end.

(** The data of the text node at a position, empty elsewhere. *)
Definition dataAt (n : Node) (p : list nat) : string :=
  match nodeAt n p with
  | Some (TextNode data) => data
  | _ => EmptyString
  end.

Definition concatStrings (l : list string) : string :=
  fold_right String.append EmptyString l.

(** [k] elements with one of the tags lie below [n]: [ps] lists their
    positions, each once. *)
Definition countsBelow (tags : list string) (n : Node) (k : Z) : Prop :=
  exists ps : list (list nat),
    NoDup ps /\
    (forall p, In p ps <->
               p <> [] /\
               exists t c i ch, nodeAt n p = Some (Element t c i ch) /\ In t tags) /\
    k = Z.of_nat (length ps).

(** [s] is the text of [n]: the data of the text nodes of [n], one after the
    other in document order. *)
Definition textOf (n : Node) (s : string) : Prop :=
  exists ps : list (list nat),
    StronglySorted before ps /\
    (forall p, In p ps <-> exists data, nodeAt n p = Some (TextNode data)) /\
    s = concatStrings (map (dataAt n) ps).

(** [s] matches a case-insensitive pattern of alternative words: one of the
    words is a substring of [s] in lower case. *)
Definition matchesAny (words : list string) (s : string) : Prop :=
  exists word, In word words /\ ci_substring_of word s.

(** [c] is one of the words of [className], which white space separates. *)
Definition classWord (c className : string) : Prop :=
  c <> EmptyString /\ noWhite c = true /\
  exists pre post,
    className = pre +:+ c +:+ post /\
    notWhite (lastChar pre) = false /\ notWhite (firstChar post) = false.

(** The elements the scoring loop visits: those the selector
    [div, section, article, main, .content, #content, .post, .article,
     .page-content, .entry-content] matches. *)
Definition structural (n : Node) : Prop :=
  match n with
  | TextNode _ => False
  | Element t cls id _ =>
      In t ["div"; "section"; "article"; "main"]%string \/
      (exists c,
          In c ["content"; "post"; "article"; "page-content"; "entry-content"]%string /\
          classWord c cls) \/
      id = "content"%string
  end.

(** The class and id of an element match the content-indicating pattern
    [/content|article|post|entry|text|body|column|main|page/i]. *)
Definition contentNamed (n : Node) : Prop :=
  match n with
  | TextNode _ => False
  | Element _ cls id _ =>
      matchesAny ["content"; "article"; "post"; "entry"; "text"; "body"; "column";
                  "main"; "page"]%string (cls +:+ " " +:+ id)
  end.

(** The class and id of an element match the boilerplate-indicating pattern
    [/comment|meta|footer|footnote|sidebar|widget|banner|ad|promo|navigation|nav|menu/i]. *)
Definition boilerplateNamed (n : Node) : Prop :=
  match n with
  | TextNode _ => False
  | Element _ cls id _ =>
      matchesAny ["comment"; "meta"; "footer"; "footnote"; "sidebar"; "widget";
                  "banner"; "ad"; "promo"; "navigation"; "nav"; "menu"]%string
                 (cls +:+ " " +:+ id)
  end.

(** The element at [p] is kept as a candidate: it is a structural element of
    score above 10 and text longer than 200, and none of its three nearest
    ancestors is named as content. *)
Definition kept (doc : Node) (p : list nat) : Prop :=
  exists n,
    nodeAt doc p = Some n /\ structural n /\
    (10 < score n)%Z /\ (200 < textLength n)%Z /\
    forall k a, 1 <= k <= 3 -> k <= length p ->
                nodeAt doc (firstn (length p - k) p) = Some a ->
                ~ contentNamed a.

(** The element at [p] is selected: it is kept, its score exceeds 20, no
    kept element has a higher score and no kept element before it in the
    document has the same score. *)
Definition selected (doc : Node) (p : list nat) : Prop :=
  exists n,
    nodeAt doc p = Some n /\ kept doc p /\ (20 < score n)%Z /\
    forall q m, kept doc q -> nodeAt doc q = Some m ->
                (score m <= score n)%Z /\ (before q p -> (score m < score n)%Z).

(** The element at [p] is the first [body] element of the document. *)
Definition firstBody (doc : Node) (p : list nat) : Prop :=
  (exists c i ch, nodeAt doc p = Some (Element "body" c i ch)) /\
  forall q c i ch,
    nodeAt doc q = Some (Element "body" c i ch) -> q = p \/ before p q.

(** Whether the element at a position is kept, computed. *)
Definition keptAt (doc : Node) (p : list nat) : bool :=
  match nodeAt doc p with
  | Some n =>
      isContainer n && (10 <? score n)%Z && (200 <? textLength n)%Z &&
      negb (isNested (ancestorsAt doc p))
  | None => false
  end.

(** The page of the specification's example: a navigation side bar and an
    article of forty paragraphs. *)
Definition paragraph : Node :=
  Element "p" "" "" [TextNode "Lorem ipsum dolor sit amet."].

Definition article : Node := Element "article" "" "" (repeat paragraph 40).

Definition examplePage : Node :=
  Element "html" "" ""
    [ Element "head" "" "" [];
      Element "body" "" ""
        [ Element "nav" "sidebar" ""
            [ Element "ul" "" "" [ Element "li" "" "" [TextNode "Home"] ] ];
          article ] ].

(** Two blocks of equal score, and a block inside a content container. *)
Definition block (id : string) : Node := Element "div" "" id (repeat paragraph 10).

Definition tiePage : Node :=
  Element "html" "" "" [ Element "body" "" "" [ block "first"; block "second" ] ].

Definition nestedPage : Node :=
  Element "html" "" ""
    [ Element "body" "" "" [ Element "div" "content" "" [ block "inner" ] ] ].

End Readability.

(** ** llmProcessor.ts: the extraction batch queue *)

Module LLM.

Import JS Types.

Record LLMInput := { text : string; siteName : string }.

(** A value thrown inside [callLLMWithBatch]: whether it is a [TypeError],
    and its message. *)
Record Thrown := { isTypeError : bool; tmessage : string }.

(** A [Record<string, ExtractedData>]: the own properties in the order
    [Object.keys] lists them, each key once.  (The order of insertion, which
    is that of [Object.keys] for keys that are not array indices; a plain
    object also inherits the members of [Object.prototype], which are not
    own properties and are not listed here.) *)
Definition ResultRecord : Type := list (string * ExtractedData).

Fixpoint obj_get (k : string) (r : ResultRecord) : option ExtractedData :=
  match r with
  | [] => None
  | (k', v) :: r' => if String.eqb k k' then Some v else obj_get k r'
  end.

(** [r[k] = v] *)
Fixpoint obj_set (k : string) (v : ExtractedData) (r : ResultRecord) : ResultRecord :=
  match r with
  | [] => [(k, v)]
  | (k', v') :: r' =>
      if String.eqb k k' then (k', v) :: r' else (k', v') :: obj_set k v r'
  end.

(** What a promise returned by [queueItem] is settled with. *)
Inductive Settlement :=
| Resolved (data : ExtractedData)
| Rejected (error : Thrown).

(** The singleton [LLMBatchProcessor] and what surrounds it.  [queue],
    [processing] and [pendingResolvers] are the fields of the class; a
    resolver pair is named by the number of the promise it belongs to.
    The other fields are the runtime the class acts on: the promises created
    so far, the calls of [resolve] and [reject] (latest last), the timers
    set and not yet fired, the batch of the flush that is awaiting
    [callLLMWithBatch], and the batches handed to [callLLMWithBatch] so
    far. *)
Record State := {
  queue : list LLMInput;
  processing : bool;
  pendingResolvers : gmap string nat;
  nextPromise : nat;
  settled : list (nat * Settlement);
  timers : nat;
  inFlight : option (list LLMInput);
  started : list (list LLMInput)
}.

Definition batchSize : nat := 20.

Definition initial : State :=
  {| queue := []; processing := false; pendingResolvers := ∅; nextPromise := 0;
     settled := []; timers := 0; inFlight := None; started := [] |}.

(** [processBatch] up to its [await]: the guard, and the batch taken. *)
Definition processBatch (s : State) : State :=
  if processing s || Nat.eqb (length (queue s)) 0 then s
  else
    {| queue := []; processing := true;
       pendingResolvers := pendingResolvers s; nextPromise := nextPromise s;
       settled := settled s; timers := timers s;
       inFlight := Some (queue s); started := started s ++ [queue s] |}.

(** [queueItem(input)]: the promise created, and the state after the call. *)
Definition queueItem (input : LLMInput) (s : State) : nat * State :=
  let p := nextPromise s in
  let s1 :=
    {| queue := queue s ++ [input]; processing := processing s;
       pendingResolvers := <[siteName input := p]> (pendingResolvers s);
       nextPromise := S p; settled := settled s; timers := timers s;
       inFlight := inFlight s; started := started s |} in
  if Nat.leb batchSize (length (queue s1)) then (p, processBatch s1)
  else if negb (processing s1) && Nat.ltb 0 (length (queue s1)) then
    (p, {| queue := queue s1; processing := processing s1;
           pendingResolvers := pendingResolvers s1;
           nextPromise := nextPromise s1; settled := settled s1;
           timers := S (timers s1);
           inFlight := inFlight s1; started := started s1 |})
  else (p, s1).

(** The callback of the timer set by [queueItem]. *)
Definition timerFires (s : State) : State :=
  match timers s with
  | O => s
  | S n =>
      let s1 :=
        {| queue := queue s; processing := processing s;
           pendingResolvers := pendingResolvers s;
           nextPromise := nextPromise s; settled := settled s; timers := n;
           inFlight := inFlight s; started := started s |} in
      if Nat.ltb 0 (length (queue s1)) && negb (processing s1)
      then processBatch s1 else s1
  end.

(** [processRemainingItems()]: the batch whose flush the call awaits ([None]
    when it returns at once), and the state after the call. *)
Definition processRemainingItems (s : State) : option (list LLMInput) * State :=
  if Nat.ltb 0 (length (queue s)) && negb (processing s)
  then (inFlight (processBatch s), processBatch s)
  else (None, s).

(** [resolver = pendingResolvers.get(siteName); if (resolver) { settle;
    pendingResolvers.delete(siteName) }] on the resolvers and the log of
    settlements. *)
Definition settleSite (name : string) (o : Settlement)
  (st : gmap string nat * list (nat * Settlement))
  : gmap string nat * list (nat * Settlement) :=
  match st.1 !! name with
  | Some p => (delete name st.1, st.2 ++ [(p, o)])
  | None => st
  end.

(** The first loop of the [try] block: over [Object.keys(results)]. *)
Definition resolveReturned (results : ResultRecord) st :=
  fold_left (fun st '(name, data) => settleSite name (Resolved data) st) results st.

(** The second loop: the sites of the batch missing from [results]. *)
Definition resolveMissing (results : ResultRecord) (currentBatch : list LLMInput) st :=
  fold_left
    (fun st input =>
       match obj_get (siteName input) results with
       | None => settleSite (siteName input) (Resolved emptyExtractedData) st
       | Some _ => st
       end)
    currentBatch st.

(** The loop of the [catch] block. *)
Definition rejectAll (error : Thrown) (currentBatch : list LLMInput) st :=
  fold_left (fun st input => settleSite (siteName input) (Rejected error) st)
            currentBatch st.

(** The two loops after the [await] in the [try] block when the call
    returned [results], the loop of the [catch] block when it threw. *)
Definition afterLoops (outcome : ResultRecord + Thrown) (currentBatch : list LLMInput) st :=
  match outcome with
  | inl results => resolveMissing results currentBatch (resolveReturned results st)
  | inr error => rejectAll error currentBatch st
  end.

(** [processBatch] from the point where [callLLMWithBatch] has settled with
    [outcome]: the [try] or [catch] loops, then the [finally] block. *)
Definition processBatchSettles (outcome : ResultRecord + Thrown) (s : State) : State :=
  match inFlight s with
  | None => s
  | Some currentBatch =>
      let st := afterLoops outcome currentBatch (pendingResolvers s, settled s) in
      let s1 :=
        {| queue := queue s; processing := false;
           pendingResolvers := st.1; nextPromise := nextPromise s;
           settled := st.2; timers := timers s;
           inFlight := None; started := started s |} in
      if Nat.leb batchSize (length (queue s1)) then processBatch s1 else s1
  end.

(** *** isRetryableError and callLLMWithBatch *)

Definition isRetryableError (error : Thrown) : bool :=
  let m := tmessage error in
  (isTypeError error && String.eqb m "fetch failed") ||
  (includes m "rate limit" || includes m "quota" || includes m "429") ||
  (includes m "timeout" || includes m "socket hang up") ||
  (includes m "ECONNRESET" || includes m "ETIMEDOUT" || includes m "network error").

(** What [callLLMWithBatch] does to the outside: the outbound call of an
    attempt (numbered by [retryCount]), and a wait. *)
Inductive Effect :=
| Attempt (retryCount : nat)
| Sleep (delayMs : Z).

Definition maxRetries : nat := 2.

Definition newError (m : string) : Thrown := {| isTypeError := false; tmessage := m |}.

Definition detailedError (error : Thrown) : Thrown :=
  newError ("LLM batch processing failed: " +:+ tmessage error).

(** The record built from the parsed array of the response. *)
Definition toRecord (extractedDataArray : list (string * ExtractedData)) : ResultRecord :=
  fold_left (fun results '(site_name, data) => obj_set site_name data results)
            extractedDataArray [].

Section Call.
(** Whether [GEMINI_API_KEY] is set, and how the body of the [try] block
    ends on each attempt: with the parsed array, or with a thrown value. *)
Variable apiKey : bool.
Variable service : nat -> list (string * ExtractedData) + Thrown.

(** The [while (retryCount <= maxRetries)] loop; [fuel] bounds the number of
    times its condition is evaluated. *)
Fixpoint retryLoop (fuel retryCount : nat) : (ResultRecord + Thrown) * list Effect :=
  match fuel with
  | O => (inr (newError "Failed to execute LLM batch processing after retries"), [])
  | S fuel' =>
      if Nat.leb retryCount maxRetries then
        match service retryCount with
        | inl extractedDataArray =>
            (inl (toRecord extractedDataArray), [Attempt retryCount])
        | inr error =>
            if isRetryableError error && Nat.ltb retryCount maxRetries then
              let retryCount' := S retryCount in
              let delayMs := (1000 * 2 ^ Z.of_nat (retryCount' - 1))%Z in
              let '(r, effects) := retryLoop fuel' retryCount' in
              (r, Attempt retryCount :: Sleep delayMs :: effects)
            else (inr (detailedError error), [Attempt retryCount])
        end
      else (inr (newError "Failed to execute LLM batch processing after retries"), [])
  end.

Definition callLLMWithBatch : (ResultRecord + Thrown) * list Effect :=
  if apiKey then retryLoop (maxRetries + 2) 0
  else (inr (newError "GEMINI_API_KEY is not set in environment variables."), []).

End Call.

(** A whole flush of the batch in flight: the call, then the settlements. *)
Definition flush (apiKey : bool)
  (service : list LLMInput -> nat -> list (string * ExtractedData) + Thrown)
  (s : State) : State :=
  match inFlight s with
  | None => s
  | Some currentBatch =>
      processBatchSettles (fst (callLLMWithBatch apiKey (service currentBatch))) s
  end.

(** *** The settlement loops *)

(** The settlements of promise [p] recorded in a log, oldest first. *)
Definition settlementsOf (p : nat) (log : list (nat * Settlement)) : list Settlement :=
  map snd (List.filter (fun x => Nat.eqb (fst x) p) log).

(** A sequence of [settleSite] calls. *)
Definition settleEach (steps : list (string * Settlement)) st :=
  fold_left (fun st '(name, o) => settleSite name o st) steps st.

(** The settlement the first call for [name] in [steps] would make. *)
Fixpoint firstFor (name : string) (steps : list (string * Settlement))
  : option Settlement :=
  match steps with
  | [] => None
  | (name', o) :: steps' =>
      if String.eqb name name' then Some o else firstFor name steps'
  end.

(** No two site names share a resolver. *)
Definition injective (m : gmap string nat) : Prop :=
  forall k1 k2 p, m !! k1 = Some p -> m !! k2 = Some p -> k1 = k2.

Definition returnedSteps (results : ResultRecord) : list (string * Settlement) :=
  map (fun '(name, data) => (name, Resolved data)) results.

Definition missingSteps (results : ResultRecord) (currentBatch : list LLMInput)
  : list (string * Settlement) :=
  flat_map (fun input =>
              match obj_get (siteName input) results with
              | None => [(siteName input, Resolved emptyExtractedData)]
              | Some _ => []
              end) currentBatch.

Definition rejectSteps (error : Thrown) (currentBatch : list LLMInput)
  : list (string * Settlement) :=
  map (fun input => (siteName input, Rejected error)) currentBatch.

(** What the promise of a site of the batch is settled with, given how the
    outbound call ended. *)
Definition expected (outcome : ResultRecord + Thrown) (name : string) : Settlement :=
  match outcome with
  | inl results =>
      match obj_get name results with
      | Some data => Resolved data
      | None => Resolved emptyExtractedData
      end
  | inr error => Rejected error
  end.

(** *** The queue as a transition system *)

(** What can happen to the processor: a caller enqueues a request, a flush
    timer fires, a caller drains the queue, or the outbound call of the
    flush in flight settles. *)
Inductive Event :=
| Enqueue (input : LLMInput)
| TimerFires
| Drain
| CallSettles (outcome : ResultRecord + Thrown).

Definition step (s : State) (e : Event) : State :=
  match e with
  | Enqueue input => snd (queueItem input s)
  | TimerFires => timerFires s
  | Drain => snd (processRemainingItems s)
  | CallSettles outcome => processBatchSettles outcome s
  end.

Definition run (events : list Event) (s : State) : State :=
  fold_left step events s.

(** Resolvers are distinct and belong to promises already created. *)
Definition wellFormed (s : State) : Prop :=
  injective (pendingResolvers s) /\
  forall k p, pendingResolvers s !! k = Some p -> p < nextPromise s.

Definition stepsOf (outcome : ResultRecord + Thrown) (batch : list LLMInput)
  : list (string * Settlement) :=
  match outcome with
  | inl results => returnedSteps results ++ missingSteps results batch
  | inr error => rejectSteps error batch
  end.

(** *** Notions and examples for the retry policy *)

(** The schedules a call can follow: at most three attempts, one second
    before the second and two seconds before the third. *)
Definition retrySchedule (effects : list Effect) : Prop :=
  effects = [Attempt 0] \/
  effects = [Attempt 0; Sleep 1000; Attempt 1] \/
  effects = [Attempt 0; Sleep 1000; Attempt 1; Sleep 2000; Attempt 2].

(** The message signatures [isRetryableError] looks for. *)
Definition TRANSIENT_SIGNATURES : list string :=
  ["rate limit"; "quota"; "429"; "timeout"; "socket hang up"; "ECONNRESET";
   "ETIMEDOUT"; "network error"]%string.

(** Two sites are enqueued and the flush timer fires; the service is down
    (every attempt ends in [TypeError: fetch failed]). *)
Definition siteA : LLMInput := {| text := "alpha"; siteName := "a.com" |}.

Definition siteB : LLMInput := {| text := "beta"; siteName := "b.com" |}.

Definition twoQueued : State := run [Enqueue siteA; Enqueue siteB; TimerFires] initial.

Definition fetchFailed : Thrown := {| isTypeError := true; tmessage := "fetch failed" |}.

Definition alwaysDown : list LLMInput -> nat -> list (string * ExtractedData) + Thrown :=
  fun _ _ => inr fetchFailed.

(** The first attempt is refused with a 429, the second returns data for
    one of the two sites. *)
Definition busyOnce : list LLMInput -> nat -> list (string * ExtractedData) + Thrown :=
  fun _ n =>
    match n with
    | O => inr (newError "Gemini API error: 429 Too Many Requests")
    | S _ => inl [("a.com"%string,
                   {| phone_numbers := ["+1 555 0100"%string];
                      social_media_links := []; addresses := [] |})]
    end.

(** *** Two requests for the same site *)

(** The same site is enqueued twice before the flush timer fires. *)
Definition firstRequest : LLMInput := {| text := "main page"; siteName := "a.com" |}.

Definition secondRequest : LLMInput := {| text := "main page, again"; siteName := "a.com" |}.

Definition duplicateRun : State :=
  run [Enqueue firstRequest; Enqueue secondRequest; TimerFires] initial.

Definition sampleData : ExtractedData :=
  {| phone_numbers := ["+1 555 0100"%string]; social_media_links := [];
     addresses := [] |}.

(** *** The flush triggers on examples *)

Fixpoint tally (n : nat) : string :=
  match n with O => EmptyString | S n' => String "i" (tally n') end.

Definition site (n : nat) : LLMInput :=
  {| text := "content"; siteName := "site-" +:+ tally n |}.

Definition sites (n : nat) : list LLMInput := map site (seq 0 n).

End LLM.

(** ** siteProcessor.ts: the per-site pipeline *)

Module Site.

Import JS Types.

(** The collaborators of [processSite] besides the network of the chain:
    the headless browser ([headlessBrowser.download]); the contact-page pass
    ([contactFinder.processContactPages], called with the protocol of the
    effective URL), which catches its own errors; the two files written
    ([None]: the write succeeds, [Some e]: [writeFile] rejects with [e]); and
    the promise returned by [processWithLLM] ([None]: it never settles). *)
Record Collaborators := {
  chainWorld : Strategies.World;
  headlessDownload : string -> DownloadResult + Error;
  contactPages : list string -> string -> bool -> string;
  writeText : string -> option Error;
  writeJson : ExtractedData -> option Error;
  processWithLLM : string -> string -> option (ExtractedData + Error)
}.

(** What [processSite] does to the outside, in order. *)
Inductive Effect :=
| ChainAttempt (strategy : string)
| HeadlessDownload (url : string)
| ContactPages (contactLinks : list string) (isSpa : bool)
| WriteText (finalContent : string)
| WriteJson (data : ExtractedData)
| LLMCall (finalContent siteName : string).

(** [SiteProcessingResult] without the reporting record [data]. *)
Record SiteProcessingResult := {
  rsuccess : bool;
  extractedData : option ExtractedData;
  rerror : option Error;
  errorType : option ErrorType
}.

Inductive DownloadMethod := local | external | search.

(** [s.endsWith('.') ? s.slice(0, -1) : s] *)
Fixpoint dropFinalDot (s : string) : string :=
  match s with
  | EmptyString => EmptyString
  | String c EmptyString => if Ascii.eqb c "." then EmptyString else s
  | String c s' => String c (dropFinalDot s')
  end.

Definition ensureUrlScheme (url : string) : string :=
  let s := dropFinalDot (trim url) in
  if negb (startsWith s "http://") && negb (startsWith s "https://")
  then "https://" +:+ s else s.

(** The SPA check: [mainSize < 1500]. *)
Definition initialIsSpa (mainSize : Z) : bool := (mainSize <? 1500)%Z.

(** The local variables of stage 1 when stage 2 begins. *)
Record Stage1 := {
  downloadSuccess : bool;
  mainContent : string;
  slinks : list string;
  mainSize : Z;
  seffectiveUrl : string;
  processContactsAsSpa : bool;
  downloadMethod : DownloadMethod
}.

Section ProcessSite.
Context {U : Type} {api : Fetch.URLApi U}.
Variable c : Collaborators.

(** Stage 1 after the chain has returned [result]. *)
Definition afterDownload (result : DownloadResult) : Stage1 * list Effect :=
  let '(content1, links1, size1, url1, effects) :=
    if initialIsSpa (size result) then
      match headlessDownload c (effectiveUrl result) with
      | inl headlessResult =>
          (content headlessResult, links headlessResult, size headlessResult,
           effectiveUrl headlessResult, [HeadlessDownload (effectiveUrl result)])
      | inr _ =>
          (content result, links result, size result, effectiveUrl result,
           [HeadlessDownload (effectiveUrl result)])
      end
    else (content result, links result, size result, effectiveUrl result, []) in
  ({| downloadSuccess := true; mainContent := content1; slinks := links1;
      mainSize := size1; seffectiveUrl := url1;
      processContactsAsSpa := initialIsSpa (size result);
      downloadMethod :=
        if Nat.ltb 0 (length links1) then local
        else if includes url1 "jina.ai" then external else search |},
   effects).

(** Stage 1 when the chain has thrown. *)
Definition downloadFailed (siteUrl : string) : Stage1 :=
  {| downloadSuccess := false; mainContent := ""; slinks := []; mainSize := 0;
     seffectiveUrl := siteUrl; processContactsAsSpa := false;
     downloadMethod := local |}.

(** Stage 2: the contact pages. *)
Definition contactStage (st : Stage1) : string * list Effect :=
  match downloadMethod st with
  | local =>
      if Nat.ltb 0 (length (slinks st)) then
        let contactLinks :=
          ContactFinder.findContactLinks (Some (slinks st)) (seffectiveUrl st) in
        if Nat.ltb 0 (length contactLinks) then
          (contactPages c contactLinks (seffectiveUrl st) (processContactsAsSpa st),
           [ContactPages contactLinks (processContactsAsSpa st)])
        else (EmptyString, [])
      else (EmptyString, [])
  | _ => (EmptyString, [])
  end.

Definition unexpected (e : Error) : SiteProcessingResult :=
  {| rsuccess := false; extractedData := None; rerror := Some e;
     errorType := Some UNEXPECTED |}.

Definition llmFailed (e : Error) : SiteProcessingResult :=
  {| rsuccess := false; extractedData := None; rerror := Some e;
     errorType := Some LLM |}.

(** Stage 4.  [None] as result: the awaited promise never settles and
    [processSite] does not return. *)
Definition extractionStage (originalUrl : string) (st : Stage1) (finalContent : string)
  : option SiteProcessingResult * list Effect :=
  if negb (downloadSuccess st) then
    match writeJson c emptyExtractedData with
    | Some e => (Some (unexpected e), [WriteJson emptyExtractedData])
    | None =>
        (Some {| rsuccess := true; extractedData := Some emptyExtractedData;
                 rerror := None; errorType := Some DOWNLOAD |},
         [WriteJson emptyExtractedData])
    end
  else
    match writeText c finalContent with
    | Some e => (Some (llmFailed e), [WriteText finalContent])
    | None =>
        match processWithLLM c finalContent originalUrl with
        | None => (None, [WriteText finalContent; LLMCall finalContent originalUrl])
        | Some (inr e) =>
            (Some (llmFailed e),
             [WriteText finalContent; LLMCall finalContent originalUrl])
        | Some (inl data) =>
            match writeJson c data with
            | Some e =>
                (Some (llmFailed e),
                 [WriteText finalContent; LLMCall finalContent originalUrl;
                  WriteJson data])
            | None =>
                (Some {| rsuccess := true; extractedData := Some data;
                         rerror := None; errorType := None |},
                 [WriteText finalContent; LLMCall finalContent originalUrl;
                  WriteJson data])
            end
        end
    end.

Definition processSite (originalUrl : string)
  : option SiteProcessingResult * list Effect :=
  let siteUrl := ensureUrlScheme originalUrl in
  let '(outcome, attempts) :=
    Strategies.execute (Strategies.downloadChain (chainWorld c)) siteUrl in
  let chainEffects :=
    map (fun a : Strategies.Attempt => ChainAttempt (Strategies.name (fst a))) attempts in
  let '(st, effects1) :=
    match outcome with
    | inl (result, _) => afterDownload result
    | inr _ => (downloadFailed siteUrl, [])
    end in
  let '(contactContent, effects2) := contactStage st in
  let combinedContent := mainContent st +:+ contactContent in
  let '(r, effects4) := extractionStage originalUrl st combinedContent in
  (r, chainEffects ++ effects1 ++ effects2 ++ effects4).

End ProcessSite.

(** Nothing can be reached; files can be written. *)
Definition offline : Collaborators :=
  {| chainWorld := Strategies.deadWorld;
     headlessDownload := fun _ => inr (Err "Failed to process SPA with headless browser");
     contactPages := fun _ _ _ => EmptyString;
     writeText := fun _ => None;
     writeJson := fun _ => None;
     processWithLLM := fun _ _ => None |}.

(** Nothing can be reached, and the result directory cannot be written. *)
Definition offlineReadOnly : Collaborators :=
  {| chainWorld := Strategies.deadWorld;
     headlessDownload := headlessDownload offline;
     contactPages := contactPages offline;
     writeText := fun _ => Some (Err "EACCES: permission denied");
     writeJson := fun _ => Some (Err "EACCES: permission denied");
     processWithLLM := processWithLLM offline |}.

(** A server whose page converts to [n] bytes of markdown. *)
Fixpoint filler (n : nat) : string :=
  match n with O => EmptyString | S n' => String "x" (filler n') end.

Definition serving (n : nat) : Collaborators :=
  {| chainWorld :=
       {| Strategies.got := fun url _ =>
            inl {| statusCode := 200; body := filler n; rurl := url |};
          Strategies.htmlToMarkdown := fun body _ => body;
          Strategies.extractLinks := fun _ _ => [] |};
     headlessDownload := headlessDownload offline;
     contactPages := contactPages offline;
     writeText := fun _ => None;
     writeJson := fun _ => None;
     processWithLLM := fun _ _ => Some (inl emptyExtractedData) |}.

End Site.

(** ** inputLoader.ts *)

Module InputLoader.

Import JS Types.

(** The line feed the file is split at. *)
Definition LF : ascii := ascii_of_nat 10.

(** [content.split('\n')] *)
Fixpoint splitLines (content : string) : list string :=
  match content with
  | EmptyString => [EmptyString]
  | String c rest =>
      if Ascii.eqb c LF then EmptyString :: splitLines rest
      else match splitLines rest with
           | line :: lines => String c line :: lines
           | [] => [String c EmptyString]
           end
  end.

(** [readInputCsv(filePath)]; [readFile] is the file system: the content of
    the file, or [None] when reading it fails. *)
Definition readInputCsv (readFile : string -> option string) (filePath : string)
  : list string + Error :=
  match readFile filePath with
  | Some content =>
      inl (List.filter (fun line => Nat.ltb 0 (String.length line))
                       (map trim (splitLines content)))
  | None => inr (Err ("Could not read input file: " +:+ filePath))
  end.

(** *** Notions used to state the properties of the loader *)

(** [lines.join('\n')] *)
Fixpoint joinLines (lines : list string) : string :=
  match lines with
  | [] => EmptyString
  | [line] => line
  | line :: rest => line +:+ String LF (joinLines rest)
  end.

Fixpoint noLineFeed (s : string) : bool :=
  match s with
  | EmptyString => true
  | String c rest => negb (Ascii.eqb c LF) && noLineFeed rest
  end.

(** A line as the loader returns it: not empty, no white space at either
    end, on one line. *)
Definition cleanLine (line : string) : bool :=
  notWhite (firstChar line) && notWhite (lastChar line) && noLineFeed line.

End InputLoader.

(** ** contactFinder.ts: downloading the contact pages *)

Module ContactPages.

Import JS Types.

(** [String.prototype.toUpperCase] as far as the comparison with ['HTTPS']
    needs it: the small letters ['a'..'z'] move.  The upper case of a code
    unit above 127 is again above 127, but for the sharp s, whose upper case
    [SS] does not occur in [HTTPS]; so the comparison is decided by these
    letters. *)
Definition upper_ascii (c : ascii) : ascii :=
  let n := nat_of_ascii c in
  if (Nat.leb 97 n && Nat.leb n 122)%bool then ascii_of_nat (n - 32) else c.

Fixpoint toUpperCase (s : string) : string :=
  match s with
  | EmptyString => EmptyString
  | String c s' => String (upper_ascii c) (toUpperCase s')
  end.

Definition LF : string := String (ascii_of_nat 10) EmptyString.

(** The text appended for a page: a header naming the link, then the
    markdown of the page. *)
Definition fetchedSection (contactLink markdown : string) : string :=
  LF +:+ LF +:+ "==== Fetched Content From: " +:+ contactLink +:+ " ====" +:+ LF
     +:+ LF +:+ markdown.

(** The local variables of the [for (const contactLink of contactLinks)]
    loop, and the links whose page was requested, in order. *)
Record Pass := {
  accContent : string;
  successes : nat;
  failures : nat;
  processedLinks : list string;
  requested : list string
}.

Definition startPass : Pass :=
  {| accContent := ""; successes := 0; failures := 0; processedLinks := [];
     requested := [] |}.

(** The loop, which [ContactFinder.processContactPages] and
    [HeadlessBrowserStrategy.processContactPages] share; [fetch] is the body
    of the [try] block up to the markdown of the page. *)
Fixpoint visitLinks (fetch : string -> string + Error) (contactLinks : list string)
  (st : Pass) : Pass :=
  match contactLinks with
  | [] => st
  | contactLink :: rest =>
      if existsb (String.eqb contactLink) (processedLinks st)
      then visitLinks fetch rest st
      else
        match fetch contactLink with
        | inl markdown =>
            visitLinks fetch rest
              {| accContent := accContent st +:+ fetchedSection contactLink markdown;
                 successes := S (successes st);
                 failures := failures st;
                 processedLinks := Fetch.set_add contactLink (processedLinks st);
                 requested := requested st ++ [contactLink] |}
        | inr _ =>
            visitLinks fetch rest
              {| accContent := accContent st;
                 successes := successes st;
                 failures := S (failures st);
                 processedLinks := processedLinks st;
                 requested := requested st ++ [contactLink] |}
        end
  end.

(** What a pass asks of the outside: the page of a link from a direct
    strategy, named, or from the page of the browser. *)
Inductive Request :=
| StrategyDownload (strategy : string) (contactLink : string)
| PageGoto (contactLink : string).

(** The headless browser of a run: whether [puppeteer.launch] resolves,
    whether the page can be opened and set up, what rendering a link gives
    (the markdown of the page, or the error of the navigation), and whether
    [browser.close] rejects. *)
Record Browser := {
  launches : bool;
  opensPage : bool;
  render : string -> string + Error;
  closeError : option Error
}.

Record HeadlessContactResult := {
  hcontent : string;
  hsuccessCount : nat;
  hfailureCount : nat
}.

(** [HeadlessBrowserStrategy.processContactPages(contactLinks, mainPageUrl)]:
    the result, or the error it rejects with, and the pages it asked the
    browser for. *)
Definition headlessProcessContactPages (b : Browser) (contactLinks : option (list string))
  : (HeadlessContactResult + Error) * list Request :=
  match contactLinks with
  | None | Some [] =>
      (inl {| hcontent := ""; hsuccessCount := 0; hfailureCount := 0 |}, [])
  | Some contactLinks =>
      if launches b then
        let st := if opensPage b then visitLinks (render b) contactLinks startPass
                  else startPass in
        (match closeError b with
         | Some e => inr e
         | None => inl {| hcontent := accContent st; hsuccessCount := successes st;
                          hfailureCount := failures st |}
         end,
         map PageGoto (requested st))
      else (inl {| hcontent := ""; hsuccessCount := 0; hfailureCount := 0 |}, [])
  end.

Record ContactProcessingResult := {
  contactLinks : list string;
  contactContent : string;
  successCount : nat;
  failureCount : nat;
  protocol : string
}.

Definition processSpaContactPages (b : Browser) (contactLinks : list string)
  (protocol : string) : ContactProcessingResult * list Request :=
  let '(outcome, requests) := headlessProcessContactPages b (Some contactLinks) in
  (match outcome with
   | inl result =>
       {| contactLinks := contactLinks; contactContent := hcontent result;
          successCount := hsuccessCount result; failureCount := hfailureCount result;
          protocol := protocol |}
   | inr _ =>
       {| contactLinks := contactLinks; contactContent := "";
          successCount := 0; failureCount := length contactLinks;
          protocol := protocol |}
   end,
   requests).

Section ProcessContactPages.
Context {U : Type} {api : Fetch.URLApi U}.
Variable w : Strategies.World.
Variable b : Browser.

(** [protocol.toUpperCase() === 'HTTPS' ? new LocalHttpsStrategy() : new
    LocalHttpStrategy()] *)
Definition strategyFor (protocol : string) : Strategies.DownloadStrategy :=
  if String.eqb (toUpperCase protocol) "HTTPS"
  then Strategies.localHttps w
  else Strategies.localHttp w.

Definition pageMarkdown (download : string -> DownloadResult + Error)
  (contactLink : string) : string + Error :=
  match download contactLink with
  | inl result => inl (content result)
  | inr e => inr e
  end.

(** [ContactFinder.processContactPages(contactLinks, protocol, isSpa)]: the
    result, and the pages it asked for, in order. *)
Definition processContactPages (contactLinks : option (list string))
  (protocol : string) (isSpa : bool) : ContactProcessingResult * list Request :=
  match contactLinks with
  | None | Some [] =>
      ({| contactLinks := []; contactContent := ""; successCount := 0;
          failureCount := 0; protocol := protocol |}, [])
  | Some contactLinks =>
      if isSpa then processSpaContactPages b contactLinks protocol
      else
        let strategy := strategyFor protocol in
        let st := visitLinks (pageMarkdown (Strategies.download strategy))
                             contactLinks startPass in
        ({| contactLinks := contactLinks; contactContent := accContent st;
            successCount := successes st; failureCount := failures st;
            protocol := protocol |},
         map (StrategyDownload (Strategies.name strategy)) (requested st))
  end.

End ProcessContactPages.

(** *** Notions used to state the properties of the pass *)

Definition fetched (fetch : string -> string + Error) (link : string) : bool :=
  match fetch link with inl _ => true | inr _ => false end.

(** The section of a link whose page was fetched. *)
Definition sectionOf (fetch : string -> string + Error) (link : string) : string :=
  match fetch link with
  | inl markdown => fetchedSection link markdown
  | inr _ => EmptyString
  end.

Definition concatSections (sections : list string) : string :=
  fold_right String.append EmptyString sections.

(** [l] without the later occurrences of its elements: each element once,
    in the order of the first occurrences. *)
Fixpoint firstOccurrences (l : list string) : list string :=
  match l with
  | [] => []
  | x :: rest =>
      x :: List.filter (fun y => negb (String.eqb y x)) (firstOccurrences rest)
  end.

(** The occurrences of links a pass asks for: the occurrence number [i] is
    asked for unless the page of its link can be fetched and the link occurs
    earlier in the list. *)
Definition requestedOccurrences (fetch : string -> string + Error)
  (links : list string) : list string :=
  flat_map (fun i =>
              match nth_error links i with
              | Some link =>
                  if fetched fetch link && existsb (String.eqb link) (firstn i links)
                  then [] else [link]
              | None => []
              end)
           (seq 0 (length links)).

End ContactPages.

(** ** headlessBrowserStrategy.ts: download and waitForPageContent *)

Module Headless.

Import JS Types.

(** What the browser gives for a URL: the launch fails; or the browser is
    launched and a later step of the [try] block fails; or the page is
    loaded, with [page.url()], the links [extractLinks] returns and the
    markdown of the processed content. *)
Record Page := {
  pageUrl : string;
  pageLinks : list string;
  pageMarkdown : string
}.

Inductive Visit :=
| LaunchFails (error : Error)
| PageFails (error : Error)
| Loaded (page : Page).

(** [[...new Set(links)]] *)
Definition uniqueLinks (links : list string) : list string :=
  fold_left (fun seen link => Fetch.set_add link seen) links [].

Definition headlessError (error : Error) : Error :=
  Err ("Failed to process SPA with headless browser: " +:+ message error).

(** [HeadlessBrowserStrategy.download(url)]; [closeError] is the error
    [browser.close()] rejects with in the [finally] block, if it does. *)
Definition download (visit : string -> Visit) (closeError : option Error) (url : string)
  : DownloadResult + Error :=
  match visit url with
  | LaunchFails error => inr (headlessError error)
  | PageFails error =>
      match closeError with
      | Some e => inr e
      | None => inr (headlessError error)
      end
  | Loaded page =>
      match closeError with
      | Some e => inr e
      | None =>
          inl {| content := pageMarkdown page;
                 effectiveUrl := pageUrl page;
                 size := byteLength (pageMarkdown page);
                 links := uniqueLinks (pageLinks page);
                 isMarkdown := true |}
      end
  end.

(** *** waitForPageContent *)

Section WaitForPageContent.
(** [now k] is what the call number [k] of [Date.now()] returns (call 0
    gives [startTime]); [measure j] is what the evaluation number [j] of
    the length of the document returns. *)
Variable now : nat -> Z.
Variable measure : nat -> Z.

Definition maxWaitTime : Z := 5000.

(** The [while] loop from its iteration number [j]: the number of times
    the document is measured from there on.  [fuel] bounds the number of
    times the condition is evaluated. *)
Fixpoint waitLoop (fuel j : nat) (previousDocumentLength : Z) (stableCount : nat) : nat :=
  match fuel with
  | O => O
  | S fuel' =>
      if (now (S j) - now O <? maxWaitTime)%Z then
        let docLength := measure j in
        if (Z.abs (docLength - previousDocumentLength) <? 50)%Z then
          let stableCount := S stableCount in
          if Nat.leb 3 stableCount then 1
          else S (waitLoop fuel' (S j) docLength stableCount)
        else S (waitLoop fuel' (S j) docLength 0)
      else O
  end.

Definition waitForPageContent (fuel : nat) : nat := waitLoop fuel 0 0 0.

End WaitForPageContent.

(** The sleep of 500 ms at the end of an iteration: two consecutive
    evaluations of the loop condition are at least 500 ms apart. *)
Definition sleeps (now : nat -> Z) : Prop :=
  (now O <= now 1%nat)%Z /\ forall j, (now (S j) + 500 <= now (S (S j)))%Z.

End Headless.

(** ** Host names as file names and as keys *)

Module Hostnames.

Import JS Types.

(** The character class [[a-zA-Z0-9.-]]. *)
Definition isHostChar (c : ascii) : bool :=
  let n := nat_of_ascii c in
  (Nat.leb 97 n && Nat.leb n 122) || (Nat.leb 65 n && Nat.leb n 90) ||
  (Nat.leb 48 n && Nat.leb n 57) || Nat.eqb n 46 || Nat.eqb n 45.

(** [s.replace(/[^a-zA-Z0-9.-]/g, '_')] *)
Fixpoint sanitize (s : string) : string :=
  match s with
  | EmptyString => EmptyString
  | String c rest => String (if isHostChar c then c else "_"%char) (sanitize rest)
  end.

(** [s.substring(0, n)] *)
Fixpoint substring0 (n : nat) (s : string) : string :=
  match n, s with
  | S n', String c rest => String c (substring0 n' rest)
  | _, _ => EmptyString
  end.

(** [hostname.replace(/^www\./, '')] *)
Definition stripWww (hostname : string) : string :=
  if startsWith hostname "www." then Fetch.substring_from 4 hostname else hostname.

Section WithURL.
Context {U : Type} {api : Fetch.URLApi U}.

(** [SiteProcessor.getSanitizedHostname(url, effectiveUrl)] *)
Definition getSanitizedHostname (url effectiveUrl : string) : string :=
  let chosen := if String.eqb effectiveUrl "" then url else effectiveUrl in
  let fullUrl := if startsWith chosen "http" then chosen
                 else ("https://" +:+ chosen)%string in
  let hostname :=
    match Fetch.parse fullUrl with
    | Some u => Fetch.hostname u
    | None => substring0 100 (sanitize url)
    end in
  sanitize hostname.

(** The name of the error log of a site in [logError]. *)
Definition errorLogName (url : string) : string :=
  let hostname :=
    match Fetch.parse (if startsWith url "http" then url
                       else ("https://" +:+ url)%string) with
    | Some u => Fetch.hostname u
    | None => substring0 100 (sanitize url)
    end in
  (sanitize hostname +:+ ".error.log")%string.

(** The key of a site in [allResults] ([processWithWorkerQueue]). *)
Definition siteNameOf (siteUrl : string) : string :=
  match Fetch.parse (if startsWith siteUrl "http" then siteUrl
                     else ("https://" +:+ siteUrl)%string) with
  | Some u => stripWww (Fetch.hostname u)
  | None => substring0 100 (sanitize siteUrl)
  end.

End WithURL.

(** *** Notions used to state the properties of the names *)

Fixpoint allChars (p : ascii -> bool) (s : string) : bool :=
  match s with
  | EmptyString => true
  | String c rest => p c && allChars p rest
  end.

(** A letter, a digit, a dot, a hyphen or an underscore. *)
Definition isFileNameChar (c : ascii) : bool :=
  isHostChar c || Ascii.eqb c "_".

End Hostnames.

(** ** app.ts: the worker queue, its tallies and the file operation queue *)

Module App.

Import JS Types Hostnames.

(** An entry of [downloadErrors], [llmErrors] or [unexpectedErrors]. *)
Record ErrorEntry := {
  eurl : string;
  emessage : string;
  eerror : option Error
}.

(** [error.message || String(error)] for an [Error]. *)
Definition errorText (e : Error) : string :=
  if String.eqb (message e) "" then "Error"%string else message e.

(** The counters and collections of [processWithWorkerQueue], with the
    calls of [logErrorFn] and the updates of the consolidated file it
    enqueues, in order. *)
Record Tally := {
  successCount : nat;
  errorCount : nat;
  downloadErrorCount : nat;
  llmErrorCount : nat;
  unexpectedErrorCount : nat;
  downloadErrors : list ErrorEntry;
  llmErrors : list ErrorEntry;
  unexpectedErrors : list ErrorEntry;
  allResults : LLM.ResultRecord;
  logged : list (string * Error);
  fileUpdates : list (string * ExtractedData)
}.

Definition noTally : Tally :=
  {| successCount := 0; errorCount := 0; downloadErrorCount := 0;
     llmErrorCount := 0; unexpectedErrorCount := 0; downloadErrors := [];
     llmErrors := []; unexpectedErrors := []; allResults := []; logged := [];
     fileUpdates := [] |}.

Definition entryOf (siteUrl : string) (result : Site.SiteProcessingResult)
  (fallback : string) : ErrorEntry :=
  {| eurl := siteUrl;
     emessage := match Site.rerror result with
                 | Some e => errorText e
                 | None => fallback
                 end;
     eerror := Site.rerror result |}.

(** The [if (result.errorType)] block. *)
Definition countErrorType (siteUrl : string) (result : Site.SiteProcessingResult)
  (t : Tally) : Tally :=
  match Site.errorType result with
  | Some DOWNLOAD =>
      {| successCount := successCount t; errorCount := errorCount t;
         downloadErrorCount := S (downloadErrorCount t);
         llmErrorCount := llmErrorCount t;
         unexpectedErrorCount := unexpectedErrorCount t;
         downloadErrors := downloadErrors t ++ [entryOf siteUrl result "Download failed"];
         llmErrors := llmErrors t; unexpectedErrors := unexpectedErrors t;
         allResults := allResults t; logged := logged t;
         fileUpdates := fileUpdates t |}
  | Some LLM =>
      {| successCount := successCount t; errorCount := errorCount t;
         downloadErrorCount := downloadErrorCount t;
         llmErrorCount := S (llmErrorCount t);
         unexpectedErrorCount := unexpectedErrorCount t;
         downloadErrors := downloadErrors t;
         llmErrors := llmErrors t ++ [entryOf siteUrl result "LLM processing failed"];
         unexpectedErrors := unexpectedErrors t;
         allResults := allResults t; logged := logged t;
         fileUpdates := fileUpdates t |}
  | Some UNEXPECTED =>
      {| successCount := successCount t; errorCount := errorCount t;
         downloadErrorCount := downloadErrorCount t;
         llmErrorCount := llmErrorCount t;
         unexpectedErrorCount := S (unexpectedErrorCount t);
         downloadErrors := downloadErrors t; llmErrors := llmErrors t;
         unexpectedErrors := unexpectedErrors t ++ [entryOf siteUrl result "Unexpected error"];
         allResults := allResults t; logged := logged t;
         fileUpdates := fileUpdates t |}
  | None => t
  end.

(** [result.success && result.extractedData], the test that counts a site as
    a success; a rejection of [processSite] never is one. *)
Definition countedAsSuccess (outcome : Site.SiteProcessingResult + Error) : bool :=
  match outcome with
  | inl result =>
      match Site.rsuccess result, Site.extractedData result with
      | true, Some _ => true
      | _, _ => false
      end
  | inr _ => false
  end.

(** The error [logErrorFn] is called with: [result.error || new Error("No
    extracted data")] in the [else] branch, the error caught in the [catch]
    block. *)
Definition loggedError (outcome : Site.SiteProcessingResult + Error) : Error :=
  match outcome with
  | inl result =>
      match Site.rerror result with
      | Some e => e
      | None => Err "No extracted data"
      end
  | inr error => error
  end.

(** [l] without its element of index [i]. *)
Fixpoint removeAt {A} (i : nat) (l : list A) : list A :=
  match l, i with
  | [], _ => []
  | _ :: rest, O => rest
  | x :: rest, S i' => x :: removeAt i' rest
  end.

Section WithURL.
Context {U : Type} {api : Fetch.URLApi U}.

(** The body of [processNext] from the moment [processor.processSite(siteUrl)]
    settles, with a result or (the [catch] block) with an error, up to its
    first [await]: for a site counted as a success the whole update, up to
    the operation enqueued on the consolidated file; for any other site up
    to the call of [logErrorFn]. *)
Definition uponSettled (siteUrl : string)
  (outcome : Site.SiteProcessingResult + Error) (t : Tally) : Tally :=
  let siteName := siteNameOf siteUrl in
  match outcome with
  | inl result =>
      let t := countErrorType siteUrl result t in
      match Site.rsuccess result, Site.extractedData result with
      | true, Some data =>
          {| successCount := S (successCount t); errorCount := errorCount t;
             downloadErrorCount := downloadErrorCount t;
             llmErrorCount := llmErrorCount t;
             unexpectedErrorCount := unexpectedErrorCount t;
             downloadErrors := downloadErrors t; llmErrors := llmErrors t;
             unexpectedErrors := unexpectedErrors t;
             allResults := LLM.obj_set siteName data (allResults t);
             logged := logged t;
             fileUpdates := fileUpdates t ++ [(siteName, data)] |}
      | _, _ =>
          {| successCount := successCount t; errorCount := errorCount t;
             downloadErrorCount := downloadErrorCount t;
             llmErrorCount := llmErrorCount t;
             unexpectedErrorCount := unexpectedErrorCount t;
             downloadErrors := downloadErrors t; llmErrors := llmErrors t;
             unexpectedErrors := unexpectedErrors t;
             allResults := allResults t;
             logged := logged t ++ [(siteUrl, loggedError outcome)];
             fileUpdates := fileUpdates t |}
      end
  | inr error =>
      {| successCount := successCount t; errorCount := errorCount t;
         downloadErrorCount := downloadErrorCount t;
         llmErrorCount := llmErrorCount t;
         unexpectedErrorCount := unexpectedErrorCount t;
         downloadErrors := downloadErrors t; llmErrors := llmErrors t;
         unexpectedErrors := unexpectedErrors t;
         allResults := allResults t;
         logged := logged t ++ [(siteUrl, loggedError outcome)];
         fileUpdates := fileUpdates t |}
  end.

(** The body from the moment the awaited [logErrorFn] has settled on: the
    rest of the [else] branch for a result, the rest of the [catch] block
    for an error.  ([logError], which [runApp] passes, catches its own
    errors and always resolves.) *)
Definition uponLogged (siteUrl : string)
  (outcome : Site.SiteProcessingResult + Error) (t : Tally) : Tally :=
  let siteName := siteNameOf siteUrl in
  match outcome with
  | inl _ =>
      {| successCount := successCount t; errorCount := S (errorCount t);
         downloadErrorCount := downloadErrorCount t;
         llmErrorCount := llmErrorCount t;
         unexpectedErrorCount := unexpectedErrorCount t;
         downloadErrors := downloadErrors t; llmErrors := llmErrors t;
         unexpectedErrors := unexpectedErrors t;
         allResults := LLM.obj_set siteName emptyExtractedData (allResults t);
         logged := logged t;
         fileUpdates := fileUpdates t ++ [(siteName, emptyExtractedData)] |}
  | inr error =>
      {| successCount := successCount t; errorCount := S (errorCount t);
         downloadErrorCount := downloadErrorCount t;
         llmErrorCount := llmErrorCount t;
         unexpectedErrorCount := S (unexpectedErrorCount t);
         downloadErrors := downloadErrors t; llmErrors := llmErrors t;
         unexpectedErrors :=
           unexpectedErrors t ++ [{| eurl := siteUrl; emessage := errorText error;
                                     eerror := None |}];
         allResults := LLM.obj_set siteName emptyExtractedData (allResults t);
         logged := logged t;
         fileUpdates := fileUpdates t ++ [(siteName, emptyExtractedData)] |}
  end.

(** The tallies, and the sites whose body awaits [logErrorFn], in the order
    they reached it.  The workers share the tallies, and the bodies of
    several sites interleave at that [await]. *)
Record Tallying := {
  tally : Tally;
  logging : list (string * (Site.SiteProcessingResult + Error))
}.

Inductive TallyEvent :=
| SiteSettled (siteUrl : string) (outcome : Site.SiteProcessingResult + Error)
| ErrorLogged (i : nat).

(** [SiteSettled]: [processSite] settles for a site.  [ErrorLogged i]:
    [logErrorFn] settles for the site of index [i] among those awaiting
    it. *)
Definition stepTally (s : Tallying) (e : TallyEvent) : Tallying :=
  match e with
  | SiteSettled siteUrl outcome =>
      {| tally := uponSettled siteUrl outcome (tally s);
         logging := if countedAsSuccess outcome then logging s
                    else logging s ++ [(siteUrl, outcome)] |}
  | ErrorLogged i =>
      match nth_error (logging s) i with
      | Some (siteUrl, outcome) =>
          {| tally := uponLogged siteUrl outcome (tally s);
             logging := removeAt i (logging s) |}
      | None => s
      end
  end.

Definition runTally (events : list TallyEvent) : Tallying :=
  fold_left stepTally events {| tally := noTally; logging := [] |}.

(** The moments of a run on the collaborators [c]: [processSite] returns
    for a site (nothing happens for a site on which it does not return), or
    the log of an error is written. *)
Inductive Moment :=
| Returns (siteUrl : string)
| Logged (i : nat).

Definition eventsOf (c : Site.Collaborators) (moments : list Moment)
  : list TallyEvent :=
  flat_map (fun m =>
              match m with
              | Returns siteUrl =>
                  match fst (Site.processSite c siteUrl) with
                  | Some result => [SiteSettled siteUrl (inl result)]
                  | None => []
                  end
              | Logged i => [ErrorLogged i]
              end) moments.

End WithURL.


(** *** The pool of workers *)

(** [queue], [completed], [activeWorkers] and whether [completionPromise] is
    resolved; the sites handed to [processSite] that have not settled yet,
    and all the sites handed to it so far, in order. *)
Record Pool := {
  queue : list string;
  completed : nat;
  activeWorkers : Z;
  resolved : bool;
  inFlight : list string;
  handed : list string
}.

(** [processNext()] up to its [await]. *)
Definition processNext (p : Pool) : Pool :=
  match queue p with
  | [] =>
      let active := (activeWorkers p - 1)%Z in
      {| queue := []; completed := completed p; activeWorkers := active;
         resolved := if (active =? 0)%Z then true else resolved p;
         inFlight := inFlight p; handed := handed p |}
  | siteUrl :: rest =>
      {| queue := rest; completed := S (completed p);
         activeWorkers := activeWorkers p; resolved := resolved p;
         inFlight := inFlight p ++ [siteUrl]; handed := handed p ++ [siteUrl] |}
  end.

(** The start of the pool: [workerCount] calls of [processNext]. *)
Definition startPool (sites : list string) (concurrencyLimit : nat) : Pool :=
  let workerCount := Nat.min concurrencyLimit (length sites) in
  Nat.iter workerCount processNext
    {| queue := sites; completed := 0; activeWorkers := Z.of_nat workerCount;
       resolved := false; inFlight := []; handed := [] |}.

(** The site of index [i] among those in flight settles, the rest of the
    body of [processNext] runs, and [processNext()] is called again. *)
Definition siteSettles (i : nat) (p : Pool) : Pool :=
  if Nat.ltb i (length (inFlight p)) then
    processNext
      {| queue := queue p; completed := completed p;
         activeWorkers := activeWorkers p; resolved := resolved p;
         inFlight := removeAt i (inFlight p); handed := handed p |}
  else p.

Definition runPool (settles : list nat) (p : Pool) : Pool :=
  fold_left (fun p i => siteSettles i p) settles p.

(** *** FileOperationQueue *)

Section FileOperationQueue.
Variable Op : Type.

(** [queue] and [running]; the operation [processQueue] is awaiting, and
    the operations started so far, in order. *)
Record FileQueue := {
  pending : list Op;
  running : bool;
  current : option Op;
  startedOps : list Op
}.

Definition idle : FileQueue :=
  {| pending := []; running := false; current := None; startedOps := [] |}.

(** The [while] loop of [processQueue] up to its next [await]. *)
Definition nextOperation (q : FileQueue) : FileQueue :=
  match pending q with
  | [] => {| pending := []; running := false; current := None;
             startedOps := startedOps q |}
  | operation :: rest =>
      {| pending := rest; running := true; current := Some operation;
         startedOps := startedOps q ++ [operation] |}
  end.

Definition processQueue (q : FileQueue) : FileQueue :=
  if running q then q
  else nextOperation {| pending := pending q; running := true;
                        current := current q; startedOps := startedOps q |}.

Definition enqueue (operation : Op) (q : FileQueue) : FileQueue :=
  let q1 := {| pending := pending q ++ [operation]; running := running q;
               current := current q; startedOps := startedOps q |} in
  if negb (running q1) then processQueue q1 else q1.

(** The operation awaited settles (it resolves, or it rejects and the error
    is logged). *)
Definition operationSettles (q : FileQueue) : FileQueue :=
  match current q with
  | Some _ => nextOperation q
  | None => q
  end.

Inductive QueueEvent :=
| Enqueued (operation : Op)
| Settled.

Definition stepQueue (q : FileQueue) (e : QueueEvent) : FileQueue :=
  match e with
  | Enqueued operation => enqueue operation q
  | Settled => operationSettles q
  end.

Definition runQueue (events : list QueueEvent) : FileQueue :=
  fold_left stepQueue events idle.

Definition enqueuedOps (events : list QueueEvent) : list Op :=
  flat_map (fun e => match e with Enqueued operation => [operation] | Settled => [] end)
           events.

End FileOperationQueue.

(** *** Notions used to state the properties of the tallies *)

(** What the consolidated results hold for a site once it has settled: its
    data when the result reports success and carries data, the empty result
    otherwise. *)
Definition dataOf (outcome : Site.SiteProcessingResult + Error) : ExtractedData :=
  match outcome with
  | inl result =>
      match Site.rsuccess result, Site.extractedData result with
      | true, Some data => data
      | _, _ => emptyExtractedData
      end
  | inr _ => emptyExtractedData
  end.

Definition hasErrorType (ty : ErrorType) (outcome : Site.SiteProcessingResult + Error)
  : bool :=
  match outcome with
  | inl result =>
      match Site.errorType result, ty with
      | Some DOWNLOAD, DOWNLOAD | Some LLM, LLM | Some UNEXPECTED, UNEXPECTED => true
      | _, _ => false
      end
  | inr _ => match ty with UNEXPECTED => true | _ => false end
  end.

Definition count {A} (p : A -> bool) (l : list A) : nat := length (List.filter p l).

(** The sites for which [processSite] has settled, in order. *)
Definition settledSites (events : list TallyEvent)
  : list (string * (Site.SiteProcessingResult + Error)) :=
  flat_map (fun e => match e with
                     | SiteSettled siteUrl outcome => [(siteUrl, outcome)]
                     | ErrorLogged _ => []
                     end) events.

(** The update of the consolidated results a settled site leads to. *)
Definition updateOf {U} {api : Fetch.URLApi U}
  (o : string * (Site.SiteProcessingResult + Error)) : string * ExtractedData :=
  (siteNameOf (fst o), dataOf (snd o)).

Definition noErrorType (o : string * (Site.SiteProcessingResult + Error)) : bool :=
  match snd o with
  | inl result => match Site.errorType result with None => true | Some _ => false end
  | inr _ => false
  end.

Definition isRejection (o : string * (Site.SiteProcessingResult + Error)) : bool :=
  match snd o with inl _ => false | inr _ => true end.

(** *** Notions used to state the properties of the pool and the file queue *)

(** What holds of the pool of [sites] with at most [workerCount] workers
    between two steps. *)
Definition poolInvariant (sites : list string) (workerCount : nat) (p : Pool) : Prop :=
  handed p ++ queue p = sites /\
  completed p = length (handed p) /\
  activeWorkers p = Z.of_nat (length (inFlight p)) /\
  length (inFlight p) <= workerCount /\
  (queue p <> [] -> length (inFlight p) = workerCount) /\
  (resolved p = true <-> 0 < workerCount /\ queue p = [] /\ inFlight p = []).

Definition queueInvariant {Op} (enqueued : list Op) (q : FileQueue Op) : Prop :=
  startedOps Op q ++ pending Op q = enqueued /\
  (running Op q = true <-> current Op q <> None) /\
  (pending Op q <> [] -> running Op q = true) /\
  (forall operation, current Op q = Some operation ->
                     last (startedOps Op q) = Some operation).

End App.

(** ** app.ts: analyzeExtractionResults *)

Module Analysis.

Import JS Types.

(** [list.length > 0 && list[0] !== "nothing found"] *)
Definition hasData (list : list string) : bool :=
  match list with
  | [] => false
  | first :: _ => negb (String.eqb first "nothing found")
  end.

Record Coverage := {
  processedSites : nat;
  sitesWithPhones : nat;
  sitesWithSocialMedia : nat;
  sitesWithAddresses : nat;
  totalPhoneNumbers : nat;
  totalSocialLinks : nat;
  totalAddresses : nat;
  totalDatapoints : nat
}.

(** The callback of [Object.values(allResults).forEach] on the six
    counters. *)
Definition countSite (data : ExtractedData) (c : Coverage) : Coverage :=
  let c :=
    if hasData (phone_numbers data) then
      {| processedSites := processedSites c;
         sitesWithPhones := S (sitesWithPhones c);
         sitesWithSocialMedia := sitesWithSocialMedia c;
         sitesWithAddresses := sitesWithAddresses c;
         totalPhoneNumbers := totalPhoneNumbers c + length (phone_numbers data);
         totalSocialLinks := totalSocialLinks c; totalAddresses := totalAddresses c;
         totalDatapoints := totalDatapoints c |}
    else c in
  let c :=
    if hasData (social_media_links data) then
      {| processedSites := processedSites c;
         sitesWithPhones := sitesWithPhones c;
         sitesWithSocialMedia := S (sitesWithSocialMedia c);
         sitesWithAddresses := sitesWithAddresses c;
         totalPhoneNumbers := totalPhoneNumbers c;
         totalSocialLinks := totalSocialLinks c + length (social_media_links data);
         totalAddresses := totalAddresses c;
         totalDatapoints := totalDatapoints c |}
    else c in
  if hasData (addresses data) then
    {| processedSites := processedSites c;
       sitesWithPhones := sitesWithPhones c;
       sitesWithSocialMedia := sitesWithSocialMedia c;
       sitesWithAddresses := S (sitesWithAddresses c);
       totalPhoneNumbers := totalPhoneNumbers c;
       totalSocialLinks := totalSocialLinks c;
       totalAddresses := totalAddresses c + length (addresses data);
       totalDatapoints := totalDatapoints c |}
  else c.

(** The counters [analyzeExtractionResults] computes from [allResults]. *)
Definition analyzeExtractionResults (allResults : LLM.ResultRecord) : Coverage :=
  let c :=
    fold_left (fun c entry => countSite (snd entry) c) allResults
      {| processedSites := length allResults;
         sitesWithPhones := 0; sitesWithSocialMedia := 0; sitesWithAddresses := 0;
         totalPhoneNumbers := 0; totalSocialLinks := 0; totalAddresses := 0;
         totalDatapoints := 0 |} in
  {| processedSites := processedSites c;
     sitesWithPhones := sitesWithPhones c;
     sitesWithSocialMedia := sitesWithSocialMedia c;
     sitesWithAddresses := sitesWithAddresses c;
     totalPhoneNumbers := totalPhoneNumbers c;
     totalSocialLinks := totalSocialLinks c;
     totalAddresses := totalAddresses c;
     totalDatapoints := totalPhoneNumbers c + totalSocialLinks c + totalAddresses c |}.

(** *** Notions used to state the properties of the analysis *)

(** What [countSite] keeps true of the counters after [n] sites. *)
Definition bounded (n : nat) (c : Coverage) : Prop :=
  sitesWithPhones c <= n /\ sitesWithSocialMedia c <= n /\ sitesWithAddresses c <= n /\
  sitesWithPhones c <= totalPhoneNumbers c /\
  sitesWithSocialMedia c <= totalSocialLinks c /\
  sitesWithAddresses c <= totalAddresses c.

End Analysis.

(** ** ingest.ts *)

Module Ingest.

Import JS Types.

(** [\d] *)
Definition isDigit (c : ascii) : bool :=
  let n := nat_of_ascii c in (Nat.leb 48 n && Nat.leb n 57)%bool.

(** [phone.replace(/\D/g, '')] *)
Fixpoint normalizePhone (phone : string) : string :=
  match phone with
  | EmptyString => EmptyString
  | String c rest =>
      if isDigit c then String c (normalizePhone rest) else normalizePhone rest
  end.

(** A row of the CSV file of company names; a column that is missing reads
    as the empty string. *)
Record CsvRecord := {
  domain : string;
  company_commercial_name : string;
  company_legal_name : string;
  company_all_available_names : string
}.

(** A merged record, as it is sent to the index. *)
Record MergedRecord := {
  mdomain : string;
  mcommercial_name : option string;
  mlegal_name : option string;
  mall_available_names : option string;
  mphone_numbers : list string;
  msocial_media_links : list string;
  maddresses : list string;
  mtimestamp : string
}.

(** [value || null] *)
Definition orNull (value : string) : option string :=
  if String.eqb value "" then None else Some value.

(** The callback of [csvRecords.map]; [now] is [new Date().toISOString()]. *)
Definition mergeRecord (jsonData : LLM.ResultRecord) (now : string) (record : CsvRecord)
  : MergedRecord :=
  let domain := toLowerCase (trim (domain record)) in
  let extracted :=
    match LLM.obj_get domain jsonData with
    | Some data => data
    | None => emptyExtractedData
    end in
  {| mdomain := domain;
     mcommercial_name := orNull (company_commercial_name record);
     mlegal_name := orNull (company_legal_name record);
     mall_available_names := orNull (company_all_available_names record);
     mphone_numbers := map normalizePhone (phone_numbers extracted);
     msocial_media_links := social_media_links extracted;
     maddresses := addresses extracted;
     mtimestamp := now |}.

(** [item.index.error] of an item of a bulk response. *)
Record ItemError := {
  etype : option string;
  ereason : option string
}.

(** The response of [client.bulk]: [errors], and for each item the error of
    its [index] entry, if it has one. *)
Record BulkResponse := {
  errors : bool;
  items : list (option ItemError)
}.

Record FailedSite := {
  site : string;
  ferror : string
}.

Record IngestResult := {
  success : nat;
  failed : nat;
  failedSites : list FailedSite
}.

Definition batchSize : nat := 50.

(** [value || fallback] for an optional string. *)
Definition orDefault (value : option string) (fallback : string) : string :=
  match value with
  | Some v => if String.eqb v "" then fallback else v
  | None => fallback
  end.

(** The callback of [response.items.forEach]. *)
Definition countItem (batch : list MergedRecord) (r : IngestResult)
  (idx : nat) (item : option ItemError) : IngestResult :=
  match item with
  | Some error =>
      let recordIndex := idx / 2 in
      let siteName :=
        match nth_error batch recordIndex with
        | Some record => mdomain record
        | None => "unknown"%string
        end in
      {| success := success r; failed := S (failed r);
         failedSites :=
           failedSites r ++
           [{| site := siteName;
               ferror := orDefault (etype error) "Unknown error" +:+ ": "
                         +:+ orDefault (ereason error) "No reason provided" |}] |}
  | None => {| success := S (success r); failed := failed r;
               failedSites := failedSites r |}
  end.

Fixpoint countItems (batch : list MergedRecord) (idx : nat)
  (items : list (option ItemError)) (r : IngestResult) : IngestResult :=
  match items with
  | [] => r
  | item :: rest => countItems batch (S idx) rest (countItem batch r idx item)
  end.

Section IngestData.
(** [client.bulk] for the operations built from a batch: the response, or
    the error it rejects with. *)
Variable bulk : list MergedRecord -> BulkResponse + Error.
Variable records : list MergedRecord.

(** The body of the [for] loop for one batch. *)
Definition ingestBatch (batch : list MergedRecord) (r : IngestResult) : IngestResult :=
  if Nat.eqb (length batch) 0 then r
  else
    match bulk batch with
    | inl response =>
        if errors response then countItems batch 0 (items response) r
        else {| success := success r + length batch; failed := failed r;
                failedSites := failedSites r |}
    | inr error =>
        {| success := success r; failed := failed r + length batch;
           failedSites :=
             failedSites r ++
             map (fun record =>
                    {| site := mdomain record;
                       ferror := "Bulk operation failed: " +:+ message error |})
                 batch |}
    end.

(** [for (let i = 0; i < totalRecords; i += batchSize)]: the result, and
    the batches handed to [client.bulk]; [fuel] bounds the number of times
    the condition is evaluated. *)
Fixpoint ingestFrom (fuel i : nat) (r : IngestResult)
  : IngestResult * list (list MergedRecord) :=
  match fuel with
  | O => (r, [])
  | S fuel' =>
      if Nat.ltb i (length records) then
        let batch := firstn batchSize (skipn i records) in
        let '(r', batches) := ingestFrom fuel' (i + batchSize) (ingestBatch batch r) in
        (r', batch :: batches)
      else (r, [])
  end.

Definition ingestData : IngestResult * list (list MergedRecord) :=
  ingestFrom (S (length records)) 0
             {| success := 0; failed := 0; failedSites := [] |}.

End IngestData.

(** *** Notions used to state the properties of the ingest *)

Fixpoint allDigits (s : string) : bool :=
  match s with
  | EmptyString => true
  | String c rest => isDigit c && allDigits rest
  end.

(** A response that reports errors lists one item for each record of the
    batch. *)
Definition oneItemPerRecord (bulk : list MergedRecord -> BulkResponse + Error) : Prop :=
  forall batch response,
    bulk batch = inl response -> errors response = true ->
    length (items response) = length batch.

(** *** Data of the examples *)

Definition recordOf (domain : string) : MergedRecord :=
  {| mdomain := domain; mcommercial_name := None; mlegal_name := None;
     mall_available_names := None; mphone_numbers := []; msocial_media_links := [];
     maddresses := []; mtimestamp := "2025-01-01T00:00:00.000Z" |}.

(** An index that answers every batch with errors, one item per record,
    refusing the records of [bad.example]. *)
Definition pickyIndex (batch : list MergedRecord) : BulkResponse + Error :=
  inl {| errors := true;
         items := map (fun record =>
                         if String.eqb (mdomain record) "bad.example"
                         then Some {| etype := Some "mapper_parsing_exception"%string;
                                      ereason := None |}
                         else None) batch |}.

End Ingest.

(** ** api.ts *)

Module Api.

Import JS Types.

Definition normalizePhone : string -> string := Ingest.normalizePhone.

(** [formatPhoneNumber(phoneNumber)] *)
Definition formatPhoneNumber (phoneNumber : string) : string :=
  let cleaned := normalizePhone phoneNumber in
  if Nat.eqb (String.length cleaned) 10 then
    ("(" +:+ substring 0 3 cleaned +:+ ") " +:+ substring 3 3 cleaned +:+ "-"
     +:+ substring 6 4 cleaned)%string
  else phoneNumber.

(** A member of the JSON body as the handler sees it: missing, a string, or
    another JSON value ([null], a boolean, a number, an array or an
    object), given by its JSON text.  Of a value that is not a string the
    handler tests whether it counts as true, which [truthy] tells. *)
Inductive Field :=
| Missing
| Text (s : string)
| Value (json : string) (truthy : bool).

(** The body of a request to [/match]. *)
Record MatchRequest := {
  input_name : Field;
  input_phone : Field;
  input_website : Field;
  input_facebook : Field
}.

Inductive Clause :=
| MultiMatch (query : Field)
| ExistsPhoneNumbers
| TermDomain (domain : string)
| TermSocialMediaLinks (link : Field).

(** [CompanyDocument]; [cphone_numbers] is [None] when the field is missing
    or is not an array. *)
Record CompanyDocument := {
  cdomain : string;
  ccompany_commercial_name : option string;
  ccompany_legal_name : option string;
  ccompany_all_available_names : option string;
  cphone_numbers : option (list string);
  csocial_media_links : list string;
  caddresses : list string;
  ctimestamp : string
}.

(** A hit of the search: its [_source], if it has one. *)
Definition Hit : Type := option CompanyDocument.

Inductive Reply :=
| ErrorReply (status : Z) (error : string)
| DocumentReply (source : CompanyDocument).

Definition truthy (f : Field) : bool :=
  match f with
  | Missing => false
  | Text s => negb (String.eqb s "")
  | Value _ t => t
  end.

(** [if (input_phone) { normalizePhone(input_phone); push }]: [None] when
    the call throws, as it does on a value that is not a string and so has
    no method [replace]. *)
Definition phoneClause (input_phone : Field) : option (list Clause) :=
  if truthy input_phone then
    match input_phone with
    | Text _ => Some [ExistsPhoneNumbers]
    | _ => None
    end
  else Some [].

(** [if (input_website) push({term: {domain: input_website.toLowerCase()}})]:
    [None] when the call of [toLowerCase] throws. *)
Definition websiteClause (input_website : Field) : option (list Clause) :=
  if truthy input_website then
    match input_website with
    | Text s => Some [TermDomain (toLowerCase s)]
    | _ => None
    end
  else Some [].

(** The [should] clauses, built before the [try] block: [None] when building
    them throws. *)
Definition shouldClauses (req : MatchRequest) : option (list Clause) :=
  match phoneClause (input_phone req), websiteClause (input_website req) with
  | Some phone, Some website =>
      Some ((if truthy (input_name req) then [MultiMatch (input_name req)] else []) ++
            phone ++ website ++
            (if truthy (input_facebook req)
             then [TermSocialMediaLinks (input_facebook req)] else []))
  | _, _ => None
  end.

(** The callback of [hits.filter]. *)
Definition phoneMatches (normalizedInput : string) (hit : Hit) : bool :=
  match hit with
  | Some source =>
      match cphone_numbers source with
      | Some phones =>
          existsb (fun phone => String.eqb (normalizePhone phone) normalizedInput) phones
      | None => false
      end
  | None => false
  end.

(** The reply for a hit chosen: its source with the phone numbers
    formatted. *)
Definition replyWith (hit : Hit) : Reply :=
  match hit with
  | None => ErrorReply 500 "Matching document has no source data"
  | Some source =>
      DocumentReply
        {| cdomain := cdomain source;
           ccompany_commercial_name := ccompany_commercial_name source;
           ccompany_legal_name := ccompany_legal_name source;
           ccompany_all_available_names := ccompany_all_available_names source;
           cphone_numbers := option_map (map formatPhoneNumber) (cphone_numbers source);
           csocial_media_links := csocial_media_links source;
           caddresses := caddresses source;
           ctimestamp := ctimestamp source |}
  end.

(** The handler of [POST /match]; [search] is [client.search] for the
    [should] clauses and the size given.  The reply, and the searches made.
    No reply: the handler throws outside its [try] block, the promise it
    returned is rejected and nothing answers the request. *)
Definition matchHandler
  (search : list Clause -> nat -> list Hit + Error) (req : MatchRequest)
  : option Reply * list (list Clause * nat) :=
  match shouldClauses req with
  | None => (None, [])
  | Some clauses =>
      if Nat.eqb (length clauses) 0 then (Some (ErrorReply 400 "No input provided"), [])
      else
        let size := if truthy (input_phone req) then 100 else 1 in
        match search clauses size with
        | inr _ => (Some (ErrorReply 500 "Search failed"), [(clauses, size)])
        | inl hits =>
            match hits with
            | [] => (Some (ErrorReply 404 "No matching company found"),
                     [(clauses, size)])
            | first :: _ =>
                let phoneHits :=
                  match input_phone req with
                  | Text phone =>
                      if truthy (input_phone req)
                      then List.filter (phoneMatches (normalizePhone phone)) hits
                      else []
                  | _ => []
                  end in
                match phoneHits with
                | hit :: _ => (Some (replyWith hit), [(clauses, size)])
                | [] => (Some (replyWith first), [(clauses, size)])
                end
            end
        end
  end.

(** *** Notions used to state the properties of the handler *)

(** The document the index holds for a merged record. *)
Definition documentOf (m : Ingest.MergedRecord) : CompanyDocument :=
  {| cdomain := Ingest.mdomain m;
     ccompany_commercial_name := Ingest.mcommercial_name m;
     ccompany_legal_name := Ingest.mlegal_name m;
     ccompany_all_available_names := Ingest.mall_available_names m;
     cphone_numbers := Some (Ingest.mphone_numbers m);
     csocial_media_links := Ingest.msocial_media_links m;
     caddresses := Ingest.maddresses m;
     ctimestamp := Ingest.mtimestamp m |}.

(** None of the four inputs is given: each is missing, or empty, or a
    value that counts as false. *)
Definition noInput (req : MatchRequest) : bool :=
  negb (truthy (input_name req)) && negb (truthy (input_phone req)) &&
  negb (truthy (input_website req)) && negb (truthy (input_facebook req)).

(** A phone or a web site is given that is not a string. *)
Definition malformed (req : MatchRequest) : bool :=
  let notText f := match f with Text _ => false | _ => true end in
  (truthy (input_phone req) && notText (input_phone req)) ||
  (truthy (input_website req) && notText (input_website req)).

(** The clauses of a request, none for a malformed one. *)
Definition clausesOf (req : MatchRequest) : list Clause :=
  match shouldClauses req with
  | Some clauses => clauses
  | None => []
  end.

End Api.

(** ** Runs of the extraction batch queue *)

Module LLMRuns.
Import Types LLM.

(** The requests of a run, in the order of the [queueItem] calls. *)
Definition enqueued (events : list Event) : list LLMInput :=
  flat_map (fun e => match e with Enqueue input => [input] | _ => [] end) events.

(** What the fields of the processor tell about each other in every state
    the program reaches. *)
Definition consistent (s : State) : Prop :=
  (processing s = true <-> inFlight s <> None) /\
  (processing s = false -> length (queue s) < batchSize) /\
  Forall (fun batch => batch <> []) (started s) /\
  (forall batch, inFlight s = Some batch -> last (started s) = Some batch).

(** The part of [consistent] that [processBatch] needs to re-establish the
    rest. *)
Definition linked (s : State) : Prop :=
  (processing s = true <-> inFlight s <> None) /\
  Forall (fun batch => batch <> []) (started s) /\
  (forall batch, inFlight s = Some batch -> last (started s) = Some batch).



(** Settled promises are distinct, were created, and have no resolver
    left. *)
Definition settledOnce (m : gmap string nat) (log : list (nat * Settlement))
  (next : nat) : Prop :=
  NoDup (map fst log) /\
  forall p, In p (map fst log) -> p < next /\ forall k, m !! k <> Some p.

End LLMRuns.

(** ** Runs of the per-site pipeline *)

Module SiteRuns.
Import Types Site.

Definition isLLMCall (x : Effect) : bool :=
  match x with LLMCall _ _ => true | _ => false end.

End SiteRuns.

(** * Part II: its properties *)

(** ** String concatenation *)

Module TextFacts.

Lemma append_cons (x : ascii) (a b : string) :
  (String x a +:+ b)%string = String x (a +:+ b).
Proof. reflexivity. Qed.

Lemma append_assoc (a b c : string) : ((a +:+ b) +:+ c = a +:+ b +:+ c)%string.
Proof.
  induction a as [|x a IH]; [reflexivity|]. now rewrite !append_cons, IH.
Qed.

Lemma append_nil_r (a : string) : (a +:+ "" = a)%string.
Proof.
  induction a as [|x a IH]; [reflexivity|]. now rewrite append_cons, IH.
Qed.

Lemma length_append (a b : string) :
  String.length (a +:+ b) = String.length a + String.length b.
Proof.
  induction a as [|x a IH]; [reflexivity|]. rewrite append_cons. simpl. now rewrite IH.
Qed.

End TextFacts.

(** ** Substrings *)

Module JSFacts.

Import JS.

Lemma startsWith_spec s p :
  startsWith s p = true <-> exists post, s = p +:+ post.
Proof.
  revert s. induction p as [|a p IH]; intros s; simpl.
  - split; [intros _; now exists s | reflexivity].
  - destruct s as [|b s]; simpl.
    + split; [discriminate | intros [post H]; discriminate].
    + rewrite andb_true_iff, IH, Ascii.eqb_eq. split.
      * intros [-> [post ->]]. now exists post.
      * intros [post H]. injection H as -> ->. split; [reflexivity | now exists post].
Qed.

Lemma includes_spec s k : includes s k = true <-> substring_of k s.
Proof.
  unfold substring_of. induction s as [|c s IH]; simpl.
  - rewrite orb_false_r, startsWith_spec. split.
    + intros [post H]. now exists EmptyString, post.
    + intros [[|a pre] [post H]]; simpl in H; [now exists post | discriminate].
  - rewrite orb_true_iff, startsWith_spec, IH. split.
    + intros [[post H] | [pre [post H]]].
      * now exists EmptyString, post.
      * exists (String c pre), post. simpl. now rewrite H.
    + intros [[|a pre] [post H]]; simpl in H.
      * left. now exists post.
      * right. injection H as -> ->. now exists pre, post.
Qed.

Lemma toLowerCase_app a b :
  toLowerCase (a +:+ b) = toLowerCase a +:+ toLowerCase b.
Proof. induction a as [|c a IH]; simpl; [reflexivity | now rewrite IH]. Qed.

Lemma toLowerCase_app_inv s a b :
  toLowerCase s = a +:+ b ->
  exists s1 s2, s = s1 +:+ s2 /\ toLowerCase s1 = a /\ toLowerCase s2 = b.
Proof.
  revert s. induction a as [|c a IH]; intros s H; simpl in H.
  - now exists EmptyString, s.
  - destruct s as [|d s]; simpl in H; [discriminate|].
    injection H as Hc Hs. destruct (IH _ Hs) as (s1 & s2 & -> & H1 & H2).
    exists (String d s1), s2. simpl. now rewrite Hc, H1, H2.
Qed.

(** Looking for a lower-case keyword in the lower-cased text is looking for
    the keyword in the text up to case. *)
Lemma includes_toLowerCase s k :
  includes (toLowerCase s) k = true <-> ci_substring_of k s.
Proof.
  rewrite includes_spec. unfold substring_of, ci_substring_of. split.
  - intros (pre & post & H).
    apply toLowerCase_app_inv in H as (s1 & s2 & -> & H1 & H2).
    apply toLowerCase_app_inv in H2 as (s3 & s4 & -> & H3 & H4).
    now exists s1, s3, s4.
  - intros (pre & mid & post & -> & <-).
    exists (toLowerCase pre), (toLowerCase post).
    now rewrite !toLowerCase_app.
Qed.

Lemma trimStart_first s :
  trimStart s = EmptyString \/ notWhite (firstChar (trimStart s)) = true.
Proof.
  induction s as [|c s IH]; simpl; [now left|].
  destruct (is_white c) eqn:E; [exact IH|]. right. simpl. now rewrite E.
Qed.

Lemma trimEnd_cons c s :
  trimEnd (String c s) =
    match trimEnd s with
    | EmptyString => if is_white c then EmptyString else String c EmptyString
    | t => String c t
    end.
Proof. reflexivity. Qed.

Lemma trimEnd_last s :
  trimEnd s = EmptyString \/ notWhite (lastChar (trimEnd s)) = true.
Proof.
  induction s as [|c s IH]; [now left|]. rewrite trimEnd_cons.
  destruct (trimEnd s) as [|d t] eqn:E.
  - destruct (is_white c) eqn:Ec; [now left|]. right. simpl. now rewrite Ec.
  - right. destruct IH as [IH|IH]; [discriminate|]. exact IH.
Qed.

Lemma trimEnd_first s :
  notWhite (firstChar s) = true -> firstChar (trimEnd s) = firstChar s.
Proof.
  destruct s as [|c s]; [reflexivity|]. rewrite trimEnd_cons. simpl.
  intros H. destruct (trimEnd s); [|reflexivity].
  apply negb_true_iff in H. now rewrite H.
Qed.

(** A trimmed string is empty or starts and ends with a character that is
    not white space. *)
Lemma trim_ends s :
  trim s = EmptyString \/
  (notWhite (firstChar (trim s)) = true /\ notWhite (lastChar (trim s)) = true).
Proof.
  unfold trim. destruct (trimEnd_last (trimStart s)) as [H|H]; [now left|].
  right. split; [|exact H].
  destruct (trimStart_first s) as [H0|H0].
  - rewrite H0 in H. discriminate.
  - now rewrite trimEnd_first.
Qed.

Lemma trimStart_fixed s : notWhite (firstChar s) = true -> trimStart s = s.
Proof.
  destruct s as [|c s]; [reflexivity|]. simpl. intros H.
  apply negb_true_iff in H. now rewrite H.
Qed.

Lemma trimEnd_fixed s : notWhite (lastChar s) = true -> trimEnd s = s.
Proof.
  induction s as [|c s IH]; [reflexivity|]. rewrite trimEnd_cons.
  destruct s as [|d s].
  - simpl. intros H. apply negb_true_iff in H. now rewrite H.
  - intros H. change (lastChar (String c (String d s))) with (lastChar (String d s)) in H.
    rewrite (IH H). reflexivity.
Qed.

Lemma trim_fixed s :
  notWhite (firstChar s) = true -> notWhite (lastChar s) = true -> trim s = s.
Proof.
  intros H1 H2. unfold trim. rewrite (trimStart_fixed s H1). now apply trimEnd_fixed.
Qed.

Lemma trimStart_split s :
  exists pre, s = pre +:+ trimStart s /\ allWhite pre = true.
Proof.
  induction s as [|c s (pre & IH & Hpre)]; [now exists EmptyString|]. simpl.
  destruct (is_white c) eqn:E; [|now exists EmptyString].
  exists (String c pre). rewrite TextFacts.append_cons, <- IH. simpl. now rewrite E.
Qed.

Lemma trimEnd_split s :
  exists post, s = trimEnd s +:+ post /\ allWhite post = true.
Proof.
  induction s as [|c s (post & IH & Hpost)]; [now exists EmptyString|].
  rewrite trimEnd_cons. destruct (trimEnd s) as [|d t].
  - change (EmptyString +:+ post)%string with post in IH. subst s.
    destruct (is_white c) eqn:E.
    + exists (String c post). split; [reflexivity|]. simpl. now rewrite E.
    + now exists post.
  - exists post. split; [|exact Hpost]. rewrite TextFacts.append_cons. now f_equal.
Qed.

(** [trim] removes the white space at the two ends, and nothing else. *)
Lemma trim_spec s : trimmed_of (trim s) s.
Proof.
  destruct (trimStart_split s) as (pre & Hs & Hpre).
  destruct (trimEnd_split (trimStart s)) as (post & Ht & Hpost).
  exists pre, post. split; [|split; [exact Hpre|split; [exact Hpost|apply trim_ends]]].
  unfold trim. now rewrite <- Ht.
Qed.

End JSFacts.

(** ** The contact page locator *)

Module ContactFinderFacts.

Import JS JSFacts ContactFinder.

Lemma isContactLink_spec mainPageUrl link :
  isContactLink mainPageUrl link = true <-> qualifies mainPageUrl link.
Proof.
  unfold isContactLink, qualifies.
  rewrite andb_true_iff, negb_true_iff, String.eqb_neq, existsb_exists.
  split; intros [[k [Hk Hin]] Hne]; (split; [|exact Hne]); exists k; split;
    try exact Hk; now apply includes_toLowerCase.
Qed.

Lemma filter_selection mainPageUrl ls :
  selection (qualifies mainPageUrl) ls (List.filter (isContactLink mainPageUrl) ls).
Proof.
  induction ls as [|l ls IH]; simpl; [constructor|].
  destruct (isContactLink mainPageUrl l) eqn:E.
  - apply sel_keep; [now apply isContactLink_spec | exact IH].
  - apply sel_drop; [|exact IH].
    intros H. apply isContactLink_spec in H. congruence.
Qed.

Lemma selection_functional P ls o1 o2 :
  selection P ls o1 -> selection P ls o2 -> o1 = o2.
Proof.
  intros H1. revert o2. induction H1; intros o2 H2; inversion H2; subst;
    try reflexivity; try contradiction; [f_equal|]; now apply IHselection.
Qed.

(** C9.  [findContactLinks] keeps exactly the links that contain one of the
    keywords contact, imprint, impressum, about up to case and differ from
    the main page URL, in input order; an empty or missing list gives the
    empty list (the function has no failing path); and the example of the
    specification evaluates as stated. *)
Theorem findContactLinks_spec :
  (forall links mainPageUrl,
      selection (qualifies mainPageUrl) links
                (findContactLinks (Some links) mainPageUrl)) /\
  (forall mainPageUrl,
      findContactLinks None mainPageUrl = [] /\
      findContactLinks (Some []) mainPageUrl = []) /\
  findContactLinks (Some ["http://a/contact"; "http://a/"; "http://a/ABOUT"]%string)
                   "http://a/"
  = ["http://a/contact"; "http://a/ABOUT"]%string.
Proof.
  split; [|split].
  - intros links mainPageUrl. unfold findContactLinks.
    destruct links as [|l ls]; [constructor|].
    change (Nat.eqb (length (l :: ls)) 0) with false. cbv iota.
    apply filter_selection.
  - intros mainPageUrl. split; reflexivity.
  - reflexivity.
Qed.

End ContactFinderFacts.

(** ** The alternate-target retry of the direct strategies *)

Module FetchFacts.

Import JS JSFacts Types Fetch.

(** The www-prefixed host is ["www."] followed by the www-stripped one. *)
Lemma www_toggle h : wwwHostname h = ("www." +:+ baseHostname h)%string.
Proof.
  unfold wwwHostname, baseHostname.
  destruct (startsWith h "www.") eqn:E; [|reflexivity].
  apply startsWith_spec in E as [post ->]. reflexivity.
Qed.

Section Alternates.
Context {U : Type} {api : URLApi U}.
Variable got : Network.

Lemma generateUrlVariations_parsed url u :
  parse url = Some u ->
  generateUrlVariations url =
    if String.eqb (baseForm u) (wwwForm u) then [wwwForm u]
    else [wwwForm u; baseForm u].
Proof.
  intros H. unfold generateUrlVariations, set_add. rewrite H. simpl.
  fold (wwwForm u) (baseForm u). now rewrite orb_false_r.
Qed.

Lemma generateUrlVariations_unparsed url :
  parse url = None -> generateUrlVariations url = [].
Proof. intros H. unfold generateUrlVariations. now rewrite H. Qed.

Lemma generateUrlVariations_NoDup url : NoDup (generateUrlVariations url).
Proof.
  destruct (parse url) as [u|] eqn:E.
  - rewrite (generateUrlVariations_parsed _ _ E).
    destruct (String.eqb (baseForm u) (wwwForm u)) eqn:Eb.
    + apply NoDup_singleton.
    + apply String.eqb_neq in Eb. apply NoDup_cons. split.
      * intros Hin. apply list_elem_of_singleton in Hin. congruence.
      * apply NoDup_singleton.
  - rewrite (generateUrlVariations_unparsed _ E). apply NoDup_nil_2.
Qed.

Lemma alternates_NoDup url : NoDup (alternates url).
Proof.
  unfold alternates, set_delete.
  assert (Hf : forall (f : string -> bool) (l : list string),
             NoDup l -> NoDup (List.filter f l)).
  { intros f l H. induction H as [|x l Hx _ IH]; simpl; [apply NoDup_nil_2|].
    destruct (f x); [|exact IH]. apply NoDup_cons. split; [|exact IH].
    rewrite list_elem_of_In, filter_In, <- list_elem_of_In. tauto. }
  apply Hf, Hf, generateUrlVariations_NoDup.
Qed.

Lemma alternates_not_original url : url ∉ alternates url.
Proof.
  unfold alternates, set_delete. rewrite list_elem_of_In, !filter_In.
  intros [[_ H] _]. now rewrite String.eqb_refl in H.
Qed.

Lemma tryVariations_run l :
  let '(r, reqs) := tryVariations got l in
  exists attempted,
    reqs = map (fun t => {| target := t; retryLimit := 0 |}) attempted /\
    attempted `prefix_of` List.filter (fun t => negb (String.eqb t "")) l /\
    match r with
    | Some resp => exists pre t,
        attempted = pre ++ [t] /\ answers got t resp /\ Forall (refuses got) pre
    | None =>
        attempted = List.filter (fun t => negb (String.eqb t "")) l /\
        Forall (refuses got) attempted
    end.
Proof.
  induction l as [|t l IH]; simpl.
  - exists []. repeat split; [reflexivity | constructor].
  - destruct (String.eqb t "") eqn:Et; simpl; [exact IH|].
    destruct (got t 0%nat) as [resp|e] eqn:Eg.
    + exists [t]. split; [reflexivity|]. split; [apply prefix_cons, prefix_nil|].
      exists [], t. repeat split; [exact Eg | constructor].
    + destruct (tryVariations got l) as [r reqs].
      destruct IH as (att & -> & Hpre & Hr).
      exists (t :: att). split; [reflexivity|].
      split; [now apply prefix_cons|].
      assert (Ht : refuses got t) by now exists e.
      destruct r as [resp|].
      * destruct Hr as (pre & t' & -> & Ha & Hf).
        exists (t :: pre), t'. repeat split; [exact Ha | now constructor].
      * destruct Hr as [-> Hf]. split; [reflexivity | now constructor].
Qed.

Lemma fetchHtmlWith_fallback retryable label url err :
  got url 1%nat = inr err ->
  retryable err = true ->
  fallback_run got label url (fst (fetchHtmlWith got retryable label url))
                         (snd (fetchHtmlWith got retryable label url)).
Proof.
  intros Hgot Hretry. unfold fetchHtmlWith. rewrite Hgot, Hretry.
  pose proof (tryVariations_run (set_delete url (generateUrlVariations url))) as H.
  destruct (tryVariations got _) as [r reqs].
  destruct H as (att & -> & Hpre & Hr). fold (alternates url) in Hpre, Hr.
  destruct r as [resp|]; simpl.
  - exists att. repeat split; assumption.
  - destruct Hr as [-> Hf]. exists (alternates url). repeat split; assumption.
Qed.

End Alternates.

(** C8 (as the code has it).  When the first fetch of a direct strategy fails
    with a retryable error, the strategy builds the www-prefixed and the
    www-stripped form of the address (one string when both coincide, none
    when the address does not parse), drops the one equal to the address it
    was given, and requests each remaining alternate once, in that order and
    with no retry of the HTTP client, until one answers; when none answers it
    fails with its "All ... fetch attempts failed" error.  No step of the
    fallback waits. *)
Theorem direct_fetch_alternates :
  forall (U : Type) (api : URLApi U) (got : Network) (url : string) (err : GotError),
    got url 1%nat = inr err ->
    (LocalHttpsStrategy.isRetryableError err = true ->
     fallback_run got "HTTPS" url
       (fst (LocalHttpsStrategy.fetchHtml got url))
       (snd (LocalHttpsStrategy.fetchHtml got url))) /\
    (LocalHttpStrategy.isRetryableError err = true ->
     fallback_run got "HTTP" url
       (fst (LocalHttpStrategy.fetchHtml got url))
       (snd (LocalHttpStrategy.fetchHtml got url))) /\
    NoDup (alternates url) /\ (url ∉ alternates url) /\
    (forall u, parse url = Some u ->
       generateUrlVariations url =
         if String.eqb (baseForm u) (wwwForm u) then [wwwForm u]
         else [wwwForm u; baseForm u]) /\
    (parse url = None -> generateUrlVariations url = []) /\
    (forall h, wwwHostname h = ("www." +:+ baseHostname h)%string).
Proof.
  intros U api got url err Hgot.
  split; [|split; [|split; [|split; [|split; [|split]]]]].
  - intros Hr. now apply fetchHtmlWith_fallback with (err := err).
  - intros Hr. now apply fetchHtmlWith_fallback with (err := err).
  - apply alternates_NoDup.
  - apply alternates_not_original.
  - apply generateUrlVariations_parsed.
  - apply generateUrlVariations_unparsed.
  - apply www_toggle.
Qed.

Lemma direct_fetch_alternates_witness :
  unreachable "https://example.com" 1%nat
    = inr {| gname := "RequestError"; gcode := Some "ENOTFOUND"%string;
             gstatusCode := None; gmessage := "getaddrinfo ENOTFOUND" |} /\
  fallback_run unreachable "HTTPS" "https://example.com"
    (fst (LocalHttpsStrategy.fetchHtml unreachable "https://example.com"))
    (snd (LocalHttpsStrategy.fetchHtml unreachable "https://example.com")).
Proof.
  split; [reflexivity|].
  apply (direct_fetch_alternates SimpleURL simpleURL unreachable
           "https://example.com" _ eq_refl).
  reflexivity.
Defined.

(** For an address already in the form [new URL] prints it, two variants are
    generated and only one of them is requested: the other is the address
    itself and is deleted from the set. *)
Lemma only_one_alternate_attempted :
  generateUrlVariations "https://example.com/"
    = ["https://www.example.com/"; "https://example.com/"]%string /\
  snd (LocalHttpsStrategy.fetchHtml unreachable "https://example.com/")
    = [ {| target := "https://example.com/"; retryLimit := 1 |};
        {| target := "https://www.example.com/"; retryLimit := 0 |} ] /\
  snd (LocalHttpStrategy.fetchHtml unreachable "http://example.com/")
    = [ {| target := "http://example.com/"; retryLimit := 1 |};
        {| target := "http://www.example.com/"; retryLimit := 0 |} ].
Proof. split; [|split]; vm_compute; reflexivity. Qed.

End FetchFacts.

(** ** The acquisition chain *)

Module StrategiesFacts.

Import JS JSFacts Types Strategies.









#[local] Existing Instance Fetch.simpleURL.


Lemma fetchHtml_https_error_text {U} {api : Fetch.URLApi U} (net : Network) url e :
  fst (Fetch.LocalHttpsStrategy.fetchHtml net url) = inr e ->
  e = Err ("All HTTPS fetch attempts failed for " +:+ url).
Proof.
  unfold Fetch.LocalHttpsStrategy.fetchHtml, Fetch.fetchHtmlWith.
  destruct (net url 1%nat) as [resp|err]; simpl; [discriminate|].
  destruct (if Fetch.LocalHttpsStrategy.isRetryableError err then _ else _)
    as [[resp|] reqs]; simpl; [discriminate|].
  now intros [= <-].
Qed.

(** C7 (as the code has it).  The direct-insecure strategy is never
    applicable without a previous error; with one, it is applicable exactly
    when the error's message contains, up to case, one of [fetch attempts
    failed], [enotfound], [econnrefused], [timeout], [403]; in particular it
    is applicable after every failure of the direct-secure fetch, whose
    message always reads "All HTTPS fetch attempts failed for ...". *)
Theorem localHttp_isApplicable_spec :
  (forall url, LocalHttpStrategy.isApplicable url None = false) /\
  (forall url e,
      LocalHttpStrategy.isApplicable url (Some e) = true <->
      exists signature, In signature LOCAL_HTTP_SIGNATURES /\
                        ci_substring_of signature (message e)) /\
  (forall (U : Type) (api : Fetch.URLApi U) (net : Network) url url' e,
      fst (Fetch.LocalHttpsStrategy.fetchHtml net url) = inr e ->
      LocalHttpStrategy.isApplicable url' (Some e) = true).
Proof.
  assert (Hiff : forall url e,
      LocalHttpStrategy.isApplicable url (Some e) = true <->
      exists signature, In signature LOCAL_HTTP_SIGNATURES /\
                        ci_substring_of signature (message e)).
  { intros url e. unfold LocalHttpStrategy.isApplicable, includesLower.
    rewrite !orb_true_iff, !includes_toLowerCase. unfold LOCAL_HTTP_SIGNATURES.
    split.
    - intros [[[[H|H]|H]|H]|H]; eexists; (split; [|exact H]); simpl; tauto.
    - intros (sg & Hin & H). simpl in Hin.
      destruct Hin as [<-|[<-|[<-|[<-|[<-|[]]]]]]; tauto. }
  split; [reflexivity|]. split; [exact Hiff|].
  intros U api net url url' e H. apply fetchHtml_https_error_text in H as ->.
  apply Hiff. exists "fetch attempts failed"%string. split; [simpl; tauto|].
  exists "All HTTPS "%string, "fetch attempts failed"%string, (" for " +:+ url)%string.
  split; reflexivity.
Qed.

(** A 404 from the secure fetch carries none of the four conditions in its
    text, and the insecure strategy is applicable after it. *)
Lemma localHttp_applicable_after_404 :
  fst (Fetch.LocalHttpsStrategy.fetchHtml notFound "https://example.com")
    = inr (Err "All HTTPS fetch attempts failed for https://example.com") /\
  transportFailureText
    (Err "All HTTPS fetch attempts failed for https://example.com") = false /\
  LocalHttpStrategy.isApplicable "https://example.com"
    (Some (Err "All HTTPS fetch attempts failed for https://example.com")) = true.
Proof. split; [|split]; vm_compute; reflexivity. Qed.

End StrategiesFacts.

(** ** The readability scorer *)

Module ReadabilityFacts.

Import JS JSFacts TextFacts Readability.

Lemma insertByScore_head c l :
  match l with
  | [] => insertByScore c l = [c]
  | d :: _ =>
      exists rest,
        insertByScore c l = (if (cscore d <=? cscore c)%Z then c else d) :: rest
  end.
Proof.
  destruct l as [|d l]; simpl; [reflexivity|].
  destruct (cscore d <=? cscore c)%Z; eauto.
Qed.

Lemma sortByScore_head l :
  match sortByScore l with
  | [] => l = []
  | c :: _ => first_highest l c
  end.
Proof.
  induction l as [|c l IH]; simpl; [reflexivity|].
  pose proof (insertByScore_head c (sortByScore l)) as Hins.
  destruct (sortByScore l) as [|m rest].
  - subst l. rewrite Hins. exists [], []. repeat split; intros d [].
  - destruct Hins as [rest' ->].
    destruct IH as (pre & post & -> & Hpre & Hpost).
    destruct (cscore m <=? cscore c)%Z eqn:E.
    + apply Z.leb_le in E. exists [], (pre ++ m :: post).
      split; [reflexivity|]. split; [intros d []|].
      intros d Hd. apply in_app_or in Hd as [Hd|[<-|Hd]].
      * specialize (Hpre d Hd). lia.
      * exact E.
      * specialize (Hpost d Hd). lia.
    + apply Z.leb_gt in E. exists (c :: pre), post.
      split; [reflexivity|]. split; [|exact Hpost].
      intros d [<-|Hd]; [exact E | now apply Hpre].
Qed.

(** [sortByScore] is the stable sort of the source: a permutation of its
    input, in descending order of score, entries of equal score in their
    original order. These three properties determine the sorted list. *)
Lemma insertByScore_permutation c l : Permutation (c :: l) (insertByScore c l).
Proof.
  induction l as [|d l IH]; simpl; [reflexivity|].
  destruct (cscore d <=? cscore c)%Z; [reflexivity|].
  rewrite perm_swap. now apply perm_skip.
Qed.

Lemma sortByScore_permutation l : Permutation l (sortByScore l).
Proof.
  induction l as [|c l IH]; simpl; [reflexivity|].
  rewrite <- insertByScore_permutation. now apply perm_skip.
Qed.

Lemma insertByScore_sorted c l :
  StronglySorted byScore l -> StronglySorted byScore (insertByScore c l).
Proof.
  induction 1 as [|d l Hl IH Hd]; simpl; [repeat constructor|].
  destruct (cscore d <=? cscore c)%Z eqn:E.
  - apply Z.leb_le in E. constructor; [now constructor|].
    constructor; [exact E|].
    eapply Forall_impl; [exact Hd|]. unfold byScore. intros; lia.
  - apply Z.leb_gt in E. constructor; [exact IH|].
    rewrite <- insertByScore_permutation. constructor; [|exact Hd].
    unfold byScore. lia.
Qed.

Lemma sortByScore_sorted l : StronglySorted byScore (sortByScore l).
Proof.
  induction l as [|c l IH]; simpl; [constructor|now apply insertByScore_sorted].
Qed.

Lemma insertByScore_stable v c l :
  scored v (insertByScore c l) = scored v (c :: l).
Proof.
  unfold scored.
  induction l as [|d l IH]; simpl; [reflexivity|].
  destruct (cscore d <=? cscore c)%Z eqn:E; [reflexivity|].
  apply Z.leb_gt in E. simpl in *. rewrite IH.
  destruct (cscore d =? v)%Z eqn:Ed, (cscore c =? v)%Z eqn:Ec; try reflexivity.
  apply Z.eqb_eq in Ed, Ec. lia.
Qed.

Lemma sortByScore_stable v l : scored v (sortByScore l) = scored v l.
Proof.
  induction l as [|c l IH]; simpl; [reflexivity|].
  rewrite insertByScore_stable. unfold scored in *. simpl. now rewrite IH.
Qed.

Lemma first_highest_unique l c1 c2 :
  first_highest l c1 -> first_highest l c2 -> c1 = c2.
Proof.
  intros (pre1 & post1 & -> & Hpre1 & Hpost1) (pre2 & post2 & Heq & Hpre2 & Hpost2).
  apply app_eq_app in Heq as [k [[-> Hk]|[-> Hk]]].
  - destruct k as [|x k]; simpl in Hk.
    + now injection Hk.
    + injection Hk as <- ->.
      assert (cscore c2 < cscore c1)%Z
        by (apply Hpre1, in_or_app; right; now left).
      assert (cscore c1 <= cscore c2)%Z
        by (apply Hpost2, in_or_app; right; now left).
      lia.
  - destruct k as [|x k]; simpl in Hk.
    + now injection Hk.
    + injection Hk as <- ->.
      assert (cscore c1 < cscore c2)%Z
        by (apply Hpre2, in_or_app; right; now left).
      assert (cscore c2 <= cscore c1)%Z
        by (apply Hpost1, in_or_app; right; now left).
      lia.
Qed.

Lemma first_highest_bounds l c d :
  first_highest l c -> In d l -> (cscore d <= cscore c)%Z.
Proof.
  intros (pre & post & -> & Hpre & Hpost) Hd.
  apply in_app_or in Hd as [Hd|[<-|Hd]].
  - specialize (Hpre d Hd). lia.
  - lia.
  - now apply Hpost.
Qed.

Lemma first_highest_In l c : first_highest l c -> In c l.
Proof. intros (pre & post & -> & _). apply in_or_app. right. now left. Qed.

Lemma Node_induction (P : Node -> Prop) :
  (forall data, P (TextNode data)) ->
  (forall t c i children, Forall P children -> P (Element t c i children)) ->
  forall n, P n.
Proof.
  intros Htext Helem. fix IH 1. intros [data|t c i children].
  - apply Htext.
  - apply Helem. induction children as [|x children IHc]; constructor.
    + apply IH.
    + exact IHc.
Qed.

Lemma before_irrefl p : ~ before p p.
Proof. induction p as [|i p IH]; simpl; [tauto|]. intros [H|[_ H]]; [lia | tauto]. Qed.

Lemma before_trans p q r : before p q -> before q r -> before p r.
Proof.
  revert q r. induction p as [|i p IH]; intros [|j q] [|k r]; simpl; try tauto.
  intros [H1|[-> H1]] [H2|[-> H2]]; [left; lia | now left | now left |].
  right. split; [reflexivity|]. now apply (IH q r).
Qed.

Lemma before_asym p q : before p q -> ~ before q p.
Proof. intros H1 H2. exact (before_irrefl p (before_trans p q p H1 H2)). Qed.

Lemma numbered_In {A B} (f : nat -> A -> list B) i l y :
  In y (numbered f i l) <->
  exists j x, nth_error l j = Some x /\ In y (f (i + j) x).
Proof.
  revert i. induction l as [|x l IH]; intros i; simpl.
  - split; [tauto|]. intros (j & x & H & _). now destruct j.
  - rewrite in_app_iff, IH. split.
    + intros [H|(j & z & Hj & H)].
      * exists 0, x. now rewrite Nat.add_0_r.
      * exists (S j), z. now rewrite Nat.add_succ_r.
    + intros ([|j] & z & Hj & H).
      * injection Hj as <-. rewrite Nat.add_0_r in H. now left.
      * right. exists j, z. now rewrite Nat.add_succ_r in H.
Qed.

Lemma numbered_agree {A B} (f g : nat -> A -> list B) i l :
  (forall j x, nth_error l j = Some x -> f (i + j) x = g (i + j) x) ->
  numbered f i l = numbered g i l.
Proof.
  revert i. induction l as [|x l IH]; intros i H; simpl; [reflexivity|].
  rewrite <- (Nat.add_0_r i) at 1 3. rewrite (H 0 x eq_refl), Nat.add_0_r.
  f_equal. apply IH. intros j z Hj. rewrite Nat.add_succ_comm. now apply (H (S j)).
Qed.

Lemma flat_map_numbered {A B C} (g : B -> list C) (f : nat -> A -> list B) i l :
  flat_map g (numbered f i l) = numbered (fun i x => flat_map g (f i x)) i l.
Proof.
  revert i. induction l as [|x l IH]; intros i; simpl; [reflexivity|].
  now rewrite flat_map_app, IH.
Qed.

Lemma numbered_flat_map {A B} (f : A -> list B) i l :
  numbered (fun _ x => f x) i l = flat_map f l.
Proof.
  revert i. induction l as [|x l IH]; intros i; simpl; [reflexivity|]. now rewrite IH.
Qed.

Lemma positions_In n p : In p (positions n) <-> nodeAt n p <> None.
Proof.
  revert n. induction p as [|i p IH]; intros n.
  - destruct n; simpl; split; auto; discriminate.
  - destruct n as [data|t c id children]; simpl.
    + split; [intros [H|[]]; discriminate | congruence].
    + split.
      * intros [H|H]; [discriminate|].
        apply numbered_In in H as (j & x & Hj & H). simpl in H.
        apply in_map_iff in H as (p' & Heq & Hp'). injection Heq as <- <-.
        rewrite Hj. now apply IH.
      * intros H. right. destruct (nth_error children i) as [x|] eqn:Hi; [|congruence].
        apply numbered_In. exists i, x. split; [exact Hi|]. simpl.
        apply in_map. now apply IH.
Qed.

Lemma StronglySorted_app {A} (R : A -> A -> Prop) l1 l2 :
  StronglySorted R l1 -> StronglySorted R l2 ->
  (forall x y, In x l1 -> In y l2 -> R x y) ->
  StronglySorted R (l1 ++ l2).
Proof.
  induction 1 as [|x l1 H1 IH Hx]; intros H2 H; simpl; [exact H2|].
  constructor.
  - apply IH; [exact H2|]. intros a b Ha Hb. apply H; [now right | exact Hb].
  - apply Forall_app. split; [exact Hx|].
    apply List.Forall_forall. intros y Hy. apply H; [now left | exact Hy].
Qed.

Lemma StronglySorted_map_cons i l :
  StronglySorted before l -> StronglySorted before (map (cons i) l).
Proof.
  induction 1 as [|p l H IH Hp]; simpl; constructor; [exact IH|].
  apply List.Forall_forall. intros q Hq. apply in_map_iff in Hq as (q' & <- & Hq').
  simpl. right. split; [reflexivity|].
  rewrite List.Forall_forall in Hp. now apply Hp.
Qed.

Lemma positions_sorted n : StronglySorted before (positions n).
Proof.
  induction n as [data|t c id children IH] using Node_induction; simpl.
  - repeat constructor.
  - constructor.
    + generalize 0. induction children as [|x children IHc]; intros i; simpl;
        [constructor|].
      apply Forall_cons in IH as [Hx Hrest].
      apply StronglySorted_app.
      * now apply StronglySorted_map_cons.
      * now apply IHc.
      * intros p q Hp Hq. apply in_map_iff in Hp as (p' & <- & _).
        apply numbered_In in Hq as (j & y & _ & Hq). simpl in Hq.
        apply in_map_iff in Hq as (q' & <- & _). simpl. left. lia.
    + apply List.Forall_forall. intros q Hq.
      apply numbered_In in Hq as (j & y & _ & Hq). simpl in Hq.
      apply in_map_iff in Hq as (q' & <- & _). exact I.
Qed.

Lemma StronglySorted_filter {A} (R : A -> A -> Prop) (f : A -> bool) l :
  StronglySorted R l -> StronglySorted R (List.filter f l).
Proof.
  induction 1 as [|x l H IH Hx]; simpl; [constructor|].
  destruct (f x); [|exact IH]. constructor; [exact IH|].
  rewrite List.Forall_forall in *. intros y Hy. apply List.filter_In in Hy as [Hy _].
  now apply Hx.
Qed.

Lemma sorted_NoDup l : StronglySorted before l -> NoDup l.
Proof.
  induction 1 as [|p l H IH Hp]; constructor; [|exact IH].
  rewrite list_elem_of_In. intros Hin. rewrite List.Forall_forall in Hp.
  exact (before_irrefl p (Hp p Hin)).
Qed.

Lemma flat_map_map {A B C} (g : B -> list C) (f : A -> B) l :
  flat_map g (map f l) = flat_map (fun x => g (f x)) l.
Proof. induction l as [|x l IH]; simpl; [reflexivity|]. now rewrite IH. Qed.

Lemma positions_head n : exists ps, positions n = [] :: ps.
Proof. destruct n; simpl; eauto. Qed.

(** [walk], [descendants] and [text] read off the positions. *)
Lemma walk_positions n ancestors :
  walk ancestors n
  = flat_map (fun p => match nodeAt n p with
                       | Some (Element t c i ch) =>
                           [(Element t c i ch, ancestorsAt n p ++ ancestors)]
                       | _ => []
                       end) (positions n).
Proof.
  revert ancestors.
  induction n as [data|t c id children IH] using Node_induction; intros ancestors;
    [reflexivity|].
  cbn [walk positions flat_map nodeAt ancestorsAt app]. f_equal.
  rewrite flat_map_numbered, <- (numbered_flat_map _ 0).
  apply numbered_agree. intros j x Hj. cbn [Nat.add].
  rewrite List.Forall_forall in IH.
  rewrite (IH x (nth_error_In _ _ Hj)), flat_map_map.
  apply flat_map_ext. intros p. cbn [nodeAt ancestorsAt]. rewrite Hj.
  destruct (nodeAt x p) as [[|t' c' i' ch']|]; try reflexivity.
  now rewrite <- app_assoc.
Qed.

Lemma descendants_positions n :
  map Some (descendants n) = map (nodeAt n) (tl (positions n)).
Proof.
  induction n as [data|t c id children IH] using Node_induction; [reflexivity|].
  cbn [descendants positions tl].
  rewrite <- (numbered_flat_map _ 0).
  assert (H : forall i (l : list Node),
             (forall j x, nth_error l j = Some x -> nth_error children (i + j) = Some x) ->
             map Some (numbered (fun _ c0 => c0 :: descendants c0) i l)
             = map (nodeAt (Element t c id children))
                   (numbered (fun i c0 => map (cons i) (positions c0)) i l)).
  { intros i l. revert i. induction l as [|x l IHl]; intros i Hl; [reflexivity|].
    cbn [numbered]. rewrite !map_app. f_equal.
    - rewrite map_map. cbn [nodeAt].
      pose proof (Hl 0 x eq_refl) as H0. rewrite Nat.add_0_r in H0.
      assert (Hx : In x children) by exact (nth_error_In _ _ H0).
      rewrite List.Forall_forall in IH. specialize (IH x Hx).
      destruct (positions_head x) as [ps Epos]. rewrite Epos in *.
      cbn [map tl] in *. rewrite H0. cbn [nodeAt]. f_equal.
      rewrite IH. apply map_ext. intros p. reflexivity.
    - apply IHl. intros j y Hj. rewrite Nat.add_succ_comm. now apply (Hl (S j)). }
  apply H. intros j x Hj. exact Hj.
Qed.

Lemma concatStrings_app a b :
  concatStrings (a ++ b) = (concatStrings a +:+ concatStrings b)%string.
Proof.
  unfold concatStrings. induction a as [|x a IH]; [reflexivity|].
  simpl. now rewrite IH, append_assoc.
Qed.

Lemma text_positions n : text n = concatStrings (map (dataAt n) (positions n)).
Proof.
  induction n as [data|t c id children IH] using Node_induction.
  - unfold concatStrings, dataAt. simpl. now rewrite append_nil_r.
  - cbn [text positions map]. unfold dataAt at 1. cbn [nodeAt].
    change (concatStrings (EmptyString :: ?l)) with (concatStrings l).
    fold (concatStrings (map text children)).
    assert (H : forall i (l : list Node),
               (forall j x, nth_error l j = Some x ->
                            nth_error children (i + j) = Some x) ->
               concatStrings (map text l)
               = concatStrings
                   (map (dataAt (Element t c id children))
                        (numbered (fun i c0 => map (cons i) (positions c0)) i l))).
    { intros i l. revert i. induction l as [|x l IHl]; intros i Hl; [reflexivity|].
      cbn [numbered map]. rewrite map_app, concatStrings_app.
      change (concatStrings (text x :: map text l))
        with (text x +:+ concatStrings (map text l))%string.
      pose proof (Hl 0 x eq_refl) as H0. rewrite Nat.add_0_r in H0.
      rewrite List.Forall_forall in IH. rewrite (IH x (nth_error_In _ _ H0)).
      f_equal.
      - rewrite map_map. f_equal. apply map_ext. intros p.
        unfold dataAt. cbn [nodeAt]. now rewrite H0.
      - apply IHl. intros j y Hj. rewrite Nat.add_succ_comm. now apply (Hl (S j)). }
    apply H. intros j x Hj. exact Hj.
Qed.

(** The ancestors of a position are the nodes at its proper prefixes, the
    longest first. *)
Lemma ancestorsAt_length n p :
  nodeAt n p <> None -> length (ancestorsAt n p) = length p.
Proof.
  revert n. induction p as [|i p IH]; intros n H; [reflexivity|].
  destruct n as [data|t c id children]; [now elim H|]. simpl in *.
  destruct (nth_error children i) as [x|]; [|now elim H].
  rewrite length_app, (IH x H). simpl. lia.
Qed.

Lemma ancestorsAt_nth n p k :
  nodeAt n p <> None -> k < length p ->
  nth_error (ancestorsAt n p) k = nodeAt n (firstn (length p - S k) p).
Proof.
  revert n k. induction p as [|i p IH]; intros n k H Hk; [simpl in Hk; lia|].
  destruct n as [data|t c id children]; [now elim H|].
  cbn [ancestorsAt nodeAt] in *.
  destruct (nth_error children i) as [x|] eqn:Hi; [|now elim H].
  pose proof (ancestorsAt_length x p H) as Hlen.
  destruct (Nat.eq_dec k (length p)) as [->|Hne].
  - rewrite nth_error_app2 by lia. rewrite Hlen, Nat.sub_diag.
    cbn [length]. rewrite Nat.sub_diag. reflexivity.
  - simpl in Hk. rewrite nth_error_app1 by lia.
    rewrite (IH x k H) by lia.
    replace (length (i :: p) - S k) with (S (length p - S k)) by (simpl; lia).
    cbn [firstn nodeAt]. now rewrite Hi.
Qed.

Lemma NoDup_filter_list {A} (ok : A -> bool) l : NoDup l -> NoDup (List.filter ok l).
Proof.
  induction 1 as [|x l Hx Hnd IH]; simpl; [constructor|].
  destruct (ok x); [|exact IH]. constructor; [|exact IH].
  rewrite list_elem_of_In. intros H. apply List.filter_In in H as [H _].
  apply Hx. now apply list_elem_of_In.
Qed.

Lemma positions_tl_In n p :
  In p (tl (positions n)) <-> p <> [] /\ nodeAt n p <> None.
Proof.
  pose proof (positions_In n p) as Hin.
  pose proof (sorted_NoDup _ (positions_sorted n)) as Hnd.
  destruct (positions_head n) as [ps Hps]. rewrite Hps in *. cbn [tl].
  apply NoDup_cons in Hnd as [Hnil _]. rewrite list_elem_of_In in Hnil.
  split.
  - intros H. split; [intros ->; contradiction|]. apply Hin. now right.
  - intros [Hne H]. apply Hin in H as [H|H]; [congruence | exact H].
Qed.

Lemma filter_length_option {A B} (f : B -> option A) (g : A -> bool) l l' :
  map Some l = map f l' ->
  length (List.filter g l)
  = length (List.filter (fun x => match f x with Some a => g a | None => false end) l').
Proof.
  revert l'. induction l as [|a l IH]; intros [|b l'] H; try discriminate H;
    [reflexivity|].
  simpl in H. injection H as Ha Hl. simpl. rewrite <- Ha.
  destruct (g a); simpl; now rewrite (IH l' Hl).
Qed.

Lemma findCount_spec tags n : countsBelow tags n (findCount tags n).
Proof.
  exists (List.filter (fun p => match nodeAt n p with
                                | Some m => hasTag tags m
                                | None => false
                                end) (tl (positions n))).
  split; [|split].
  - apply NoDup_filter_list.
    pose proof (sorted_NoDup _ (positions_sorted n)) as Hnd.
    destruct (positions_head n) as [ps Hps]. rewrite Hps in *.
    now apply NoDup_cons in Hnd as [_ Hnd].
  - intros p. rewrite List.filter_In, positions_tl_In. split.
    + intros [[Hne _] H]. split; [exact Hne|].
      destruct (nodeAt n p) as [[data|t c i ch]|]; try discriminate H.
      exists t, c, i, ch. split; [reflexivity|].
      simpl in H. apply existsb_exists in H as (t' & Hin & Heq).
      apply String.eqb_eq in Heq. now subst.
    + intros [Hne (t & c & i & ch & Hp & Hin)]. rewrite Hp.
      split; [split; [exact Hne | discriminate]|].
      simpl. apply existsb_exists. exists t. split; [exact Hin | apply String.eqb_refl].
  - unfold findCount. f_equal.
    apply filter_length_option, descendants_positions.
Qed.

Lemma concatStrings_filter {A} (f : A -> string) (g : A -> bool) l :
  (forall x, g x = false -> f x = EmptyString) ->
  concatStrings (map f l) = concatStrings (map f (List.filter g l)).
Proof.
  intros H. induction l as [|x l IH]; [reflexivity|]. simpl.
  destruct (g x) eqn:E; simpl; unfold concatStrings in *; simpl; rewrite IH;
    [reflexivity|]. now rewrite (H x E).
Qed.

Lemma text_spec n : textOf n (text n).
Proof.
  exists (List.filter (fun p => match nodeAt n p with
                                | Some (TextNode _) => true
                                | _ => false
                                end) (positions n)).
  split; [|split].
  - apply StronglySorted_filter, positions_sorted.
  - intros p. rewrite List.filter_In, positions_In. split.
    + intros [_ H]. destruct (nodeAt n p) as [[data|]|]; try discriminate H.
      now exists data.
    + intros [data ->]. split; [discriminate | reflexivity].
  - rewrite text_positions. apply concatStrings_filter.
    intros p H. unfold dataAt. now destruct (nodeAt n p) as [[data|]|].
Qed.

Lemma regexTest_spec words s : regexTest words s = true <-> matchesAny words s.
Proof.
  unfold regexTest, matchesAny. rewrite existsb_exists.
  split; intros (w & Hw & H); exists w; (split; [exact Hw|]);
    now apply includes_toLowerCase.
Qed.

Lemma prefix_unique t c p1 p2 :
  noWhite t = true -> noWhite c = true ->
  (t +:+ p1 = c +:+ p2)%string ->
  notWhite (firstChar p1) = false -> notWhite (firstChar p2) = false -> t = c.
Proof.
  revert c. induction t as [|x t IH]; intros [|y c] Ht Hc Heq H1 H2; simpl in *.
  - reflexivity.
  - change (EmptyString +:+ p1)%string with p1 in Heq. subst p1.
    rewrite append_cons in H1. simpl in H1.
    apply andb_true_iff in Hc as [Hy _]. congruence.
  - change (EmptyString +:+ p2)%string with p2 in Heq. subst p2.
    rewrite append_cons in H2. simpl in H2.
    apply andb_true_iff in Ht as [Hx _]. congruence.
  - rewrite !append_cons in Heq. injection Heq as -> Heq.
    apply andb_true_iff in Ht as [_ Ht]. apply andb_true_iff in Hc as [_ Hc].
    f_equal. now apply IH.
Qed.

Lemma lastChar_cons a s : s <> EmptyString -> lastChar (String a s) = lastChar s.
Proof. now destruct s. Qed.

Lemma splitWhite_shape s :
  exists t ts,
    splitWhite s = t :: ts /\ noWhite t = true /\
    (exists post, s = (t +:+ post)%string /\ notWhite (firstChar post) = false) /\
    forall c,
      In c ts <->
      noWhite c = true /\
      exists pre post,
        s = (pre +:+ c +:+ post)%string /\ pre <> EmptyString /\
        notWhite (lastChar pre) = false /\ notWhite (firstChar post) = false.
Proof.
  induction s as [|a s (t & ts & Hs & Ht & (post & Hpost & Hfirst) & Hts)].
  - exists EmptyString, []. split; [reflexivity|]. split; [reflexivity|].
    split; [now exists EmptyString|].
    intros c. split; [intros []|].
    intros (_ & [|x pre] & post & H & Hne & _); [congruence | discriminate H].
  - simpl. rewrite Hs. destruct (is_white a) eqn:Ea.
    + exists EmptyString, (t :: ts). split; [reflexivity|]. split; [reflexivity|].
      split; [exists (String a s); split; [reflexivity|]; simpl; now rewrite Ea|].
      intros c. split.
      * intros [<-|Hc].
        -- split; [exact Ht|]. exists (String a EmptyString), post.
           split; [now rewrite append_cons, <- Hpost|].
           split; [discriminate|]. split; [simpl; now rewrite Ea | exact Hfirst].
        -- apply Hts in Hc as (Hc & pre & post' & H & Hne & Hl & Hf).
           split; [exact Hc|]. exists (String a pre), post'.
           split; [now rewrite append_cons, <- H|]. split; [discriminate|].
           split; [now rewrite lastChar_cons | exact Hf].
      * intros (Hc & [|x pre] & post' & H & Hne & Hl & Hf); [congruence|].
        rewrite append_cons in H. injection H as <- H.
        destruct pre as [|y pre].
        -- left. change (EmptyString +:+ c +:+ post')%string with (c +:+ post')%string in H.
           rewrite Hpost in H. now apply (prefix_unique t c post post').
        -- right. apply Hts. split; [exact Hc|].
           exists (String y pre), post'. split; [exact H|]. split; [discriminate|].
           split; [|exact Hf]. now rewrite lastChar_cons in Hl.
    + exists (String a t), ts. split; [reflexivity|].
      split; [simpl; now rewrite Ea, Ht|].
      split; [exists post; split; [now rewrite append_cons, <- Hpost | exact Hfirst]|].
      intros c. rewrite Hts. split.
      * intros (Hc & pre & post' & H & Hne & Hl & Hf).
        split; [exact Hc|]. exists (String a pre), post'.
        split; [now rewrite append_cons, <- H|]. split; [discriminate|].
        split; [now rewrite lastChar_cons | exact Hf].
      * intros (Hc & [|x pre] & post' & H & Hne & Hl & Hf); [congruence|].
        rewrite append_cons in H. injection H as <- H.
        destruct pre as [|y pre]; [simpl in Hl; rewrite Ea in Hl; discriminate Hl|].
        split; [exact Hc|]. exists (String y pre), post'.
        split; [exact H|]. split; [discriminate|].
        split; [|exact Hf]. now rewrite lastChar_cons in Hl.
Qed.

Lemma classList_spec c className : In c (classList className) <-> classWord c className.
Proof.
  unfold classList, classWord. rewrite List.filter_In, negb_true_iff.
  destruct (splitWhite_shape className)
    as (t & ts & -> & Ht & (post & Hpost & Hfirst) & Hts).
  assert (Hne : String.eqb c "" = false <-> c <> EmptyString).
  { destruct (String.eqb_spec c ""); split; congruence. }
  rewrite Hne. split.
  - intros [[<-|Hc] Hc0].
    + split; [exact Hc0|]. split; [exact Ht|]. exists EmptyString, post.
      split; [exact Hpost|]. now split.
    + apply Hts in Hc as (Hc & pre & post' & H & _ & Hl & Hf).
      split; [exact Hc0|]. split; [exact Hc|]. now exists pre, post'.
  - intros (Hc0 & Hc & pre & post' & H & Hl & Hf). split; [|exact Hc0].
    destruct pre as [|x pre].
    + left. change (EmptyString +:+ c +:+ post')%string with (c +:+ post')%string in H.
      rewrite Hpost in H. now apply (prefix_unique t c post post').
    + right. apply Hts. split; [exact Hc|]. exists (String x pre), post'.
      split; [exact H|]. split; [discriminate|]. now split.
Qed.

Lemma existsb_eqb_string x l : existsb (String.eqb x) l = true <-> In x l.
Proof.
  rewrite existsb_exists. split.
  - intros (y & Hy & H). apply String.eqb_eq in H. now subst.
  - intros H. exists x. split; [exact H | apply String.eqb_refl].
Qed.

Lemma isContainer_spec n : isContainer n = true <-> structural n.
Proof.
  destruct n as [data|t cls id ch]; [split; [discriminate | intros []]|].
  unfold isContainer, structural.
  rewrite !orb_true_iff, existsb_eqb_string, String.eqb_eq, existsb_exists.
  split.
  - intros [[H|(c & Hc & H)]|H]; [now left | right; left | now right; right].
    exists c. split; [exact Hc|]. apply classList_spec.
    apply existsb_exists in H as (c' & Hc' & H). apply String.eqb_eq in H. now subst.
  - intros [H|[(c & Hc & H)|H]]; [now left; left | left; right | now right].
    exists c. split; [exact Hc|]. apply existsb_exists. exists c.
    split; [now apply classList_spec | apply String.eqb_refl].
Qed.

Lemma firstn_In_nth {A} (l : list A) k a :
  In a (firstn k l) <-> exists j, j < k /\ nth_error l j = Some a.
Proof.
  revert k. induction l as [|x l IH]; intros [|k]; simpl.
  - split; [tauto|]. intros (j & H & _). lia.
  - split; [tauto|]. intros (j & _ & H). now destruct j.
  - split; [tauto|]. intros (j & H & _). lia.
  - rewrite IH. split.
    + intros [->|(j & Hj & H)]; [exists 0; split; [lia | reflexivity]|].
      exists (S j). split; [lia | exact H].
    + intros ([|j] & Hj & H); [left; now injection H|].
      right. exists j. split; [lia | exact H].
Qed.

Lemma positiveRegex_spec n : positiveRegex n = true <-> contentNamed n.
Proof.
  destruct n as [data|t cls id ch]; [split; [discriminate | intros []]|].
  apply regexTest_spec.
Qed.

Lemma negativeRegex_spec n : negativeRegex n = true <-> boilerplateNamed n.
Proof.
  destruct n as [data|t cls id ch]; [split; [discriminate | intros []]|].
  apply regexTest_spec.
Qed.

Lemma keptAt_spec doc p : keptAt doc p = true <-> kept doc p.
Proof.
  unfold keptAt, kept. destruct (nodeAt doc p) as [n|] eqn:Hp.
  - assert (Hvalid : nodeAt doc p <> None) by congruence.
    rewrite !andb_true_iff, !Z.ltb_lt, negb_true_iff, isContainer_spec.
    assert (Hn : isNested (ancestorsAt doc p) = false <->
                 forall k a, 1 <= k <= 3 -> k <= length p ->
                             nodeAt doc (firstn (length p - k) p) = Some a ->
                             ~ contentNamed a).
    { unfold isNested. split.
      - intros H k a Hk Hlen Ha Hc. apply positiveRegex_spec in Hc.
        assert (existsb positiveRegex (firstn 3 (ancestorsAt doc p)) = true);
          [|congruence].
        apply existsb_exists. exists a. split; [|exact Hc].
        apply firstn_In_nth. exists (k - 1). split; [lia|].
        rewrite ancestorsAt_nth by (try exact Hvalid; lia).
        now replace (S (k - 1)) with k by lia.
      - intros H. destruct (existsb _ _) eqn:E; [|reflexivity].
        apply existsb_exists in E as (a & Ha & Epos).
        apply firstn_In_nth in Ha as (j & Hj & Ha).
        assert (Hlt : j < length p).
        { rewrite <- (ancestorsAt_length doc p Hvalid).
          apply nth_error_Some. congruence. }
        rewrite ancestorsAt_nth in Ha by (try exact Hvalid; lia).
        apply positiveRegex_spec in Epos.
        destruct (H (S j) a); [lia | lia | exact Ha | exact Epos]. }
    rewrite Hn. split.
    + intros [[[H1 H2] H3] H4]. now exists n.
    + intros (m & [= <-] & H1 & H2 & H3 & H4). tauto.
  - split; [discriminate|]. intros (m & H & _). discriminate H.
Qed.

Lemma candidates_positions doc :
  candidates doc
  = flat_map (fun p => match nodeAt doc p with
                       | Some n => if keptAt doc p
                                   then [{| element := n; cscore := score n |}] else []
                       | None => []
                       end) (positions doc).
Proof.
  unfold candidates. rewrite walk_positions.
  induction (positions doc) as [|p ps IH]; [reflexivity|].
  cbn [flat_map]. rewrite flat_map_app, IH. f_equal.
  unfold keptAt. destruct (nodeAt doc p) as [[data|t c i ch]|]; [reflexivity| |reflexivity].
  cbn [flat_map]. rewrite !app_nil_r.
  destruct (isContainer (Element t c i ch)); [|reflexivity]. cbn [andb].
  destruct (10 <? _)%Z; [|reflexivity]. destruct (200 <? _)%Z; [|reflexivity].
  reflexivity.
Qed.

(** The candidates are the kept elements, in document order. *)
Lemma candidates_kept doc :
  exists ps : list (list nat),
    StronglySorted before ps /\
    (forall p, In p ps <-> kept doc p) /\
    Forall2 (fun c p => nodeAt doc p = Some (element c) /\ cscore c = score (element c))
            (candidates doc) ps.
Proof.
  exists (List.filter (keptAt doc) (positions doc)). split; [|split].
  - apply StronglySorted_filter, positions_sorted.
  - intros p. rewrite List.filter_In, keptAt_spec, positions_In. split; [tauto|].
    intros H. split; [|exact H]. destruct H as (n & -> & _). discriminate.
  - rewrite candidates_positions.
    induction (positions doc) as [|p ps IH]; [constructor|].
    cbn [flat_map List.filter].
    destruct (keptAt doc p) eqn:Ek.
    + unfold keptAt in Ek. destruct (nodeAt doc p) as [n|] eqn:Hp; [|discriminate].
      cbn [app]. constructor; [now split | exact IH].
    + destruct (nodeAt doc p); exact IH.
Qed.

Lemma sorted_split l1 p l2 :
  StronglySorted before (l1 ++ p :: l2) ->
  (forall q, In q l1 -> before q p) /\ (forall q, In q l2 -> before p q).
Proof.
  induction l1 as [|x l1 IH]; simpl; intros H.
  - apply StronglySorted_inv in H as [_ H]. rewrite List.Forall_forall in H.
    split; [intros q []|exact H].
  - apply StronglySorted_inv in H as [Hs Hx]. rewrite List.Forall_forall in Hx.
    destruct (IH Hs) as [H1 H2]. split; [|exact H2].
    intros q [<-|Hq]; [|now apply H1]. apply Hx, in_or_app. right. now left.
Qed.

Lemma Forall2_In_l {A B} (R : A -> B -> Prop) l k x :
  Forall2 R l k -> In x l -> exists y, In y k /\ R x y.
Proof.
  induction 1 as [|a b l k Hab H IH]; intros Hx; [destruct Hx|].
  destruct Hx as [<-|Hx]; [exists b; split; [now left | exact Hab]|].
  destruct (IH Hx) as (y & Hy & Hxy). exists y. split; [now right | exact Hxy].
Qed.

Lemma Forall2_In_r {A B} (R : A -> B -> Prop) l k y :
  Forall2 R l k -> In y k -> exists x, In x l /\ R x y.
Proof.
  induction 1 as [|a b l k Hab H IH]; intros Hy; [destruct Hy|].
  destruct Hy as [<-|Hy]; [exists a; split; [now left | exact Hab]|].
  destruct (IH Hy) as (x & Hx & Hxy). exists x. split; [now right | exact Hxy].
Qed.

(** The first of the highest-scoring candidates is the selected element. *)
Lemma first_highest_selected doc c :
  first_highest (candidates doc) c ->
  exists p, nodeAt doc p = Some (element c) /\ cscore c = score (element c) /\
            kept doc p /\
            forall q m, kept doc q -> nodeAt doc q = Some m ->
                        (score m <= score (element c))%Z /\
                        (before q p -> (score m < score (element c))%Z).
Proof.
  intros (pre & post & Heq & Hpre & Hpost).
  destruct (candidates_kept doc) as (ps & Hsorted & Hkept & Hall).
  rewrite Heq in Hall.
  apply Forall2_app_inv_l in Hall as (ps1 & ps2 & H1 & H2 & ->).
  inversion H2 as [|c' p post' ps2' [Hp Hc] H3]; subst.
  exists p. split; [exact Hp|]. split; [exact Hc|].
  split; [apply Hkept, in_or_app; right; now left|].
  destruct (sorted_split _ _ _ Hsorted) as [Hbefore Hafter].
  intros q m Hq Hm. apply Hkept in Hq. rewrite <- Hc.
  apply in_app_or in Hq as [Hq|[<-|Hq]].
  - destruct (Forall2_In_r _ _ _ _ H1 Hq) as (d & Hd & Hdq & Hds).
    rewrite Hm in Hdq. injection Hdq as ->. rewrite <- Hds.
    specialize (Hpre d Hd). split; [lia | intros _; exact Hpre].
  - rewrite Hm in Hp. injection Hp as ->. rewrite <- Hc.
    split; [lia|]. intros Hb. now apply before_irrefl in Hb.
  - destruct (Forall2_In_r _ _ _ _ H3 Hq) as (d & Hd & Hdq & Hds).
    rewrite Hm in Hdq. injection Hdq as ->. rewrite <- Hds.
    specialize (Hpost d Hd). split; [exact Hpost|].
    intros Hb. exfalso. exact (before_asym _ _ Hb (Hafter q Hq)).
Qed.

Lemma selected_first_highest doc p n :
  nodeAt doc p = Some n -> kept doc p ->
  (forall q m, kept doc q -> nodeAt doc q = Some m ->
               (score m <= score n)%Z /\ (before q p -> (score m < score n)%Z)) ->
  first_highest (candidates doc) {| element := n; cscore := score n |}.
Proof.
  intros Hp Hk Hbest.
  destruct (candidates_kept doc) as (ps & Hsorted & Hkept & Hall).
  apply Hkept, in_split in Hk as (ps1 & ps2 & ->).
  destruct (sorted_split _ _ _ Hsorted) as [Hbefore Hafter].
  apply Forall2_app_inv_r in Hall as (pre & post' & H1 & H2 & Heq).
  inversion H2 as [|c p' post ps2' [Hc Hs] H3]; subst.
  rewrite Hp in Hc. injection Hc as Hc.
  assert (Ec : c = {| element := n; cscore := score n |}).
  { destruct c as [e v]. simpl in *. now subst. }
  subst c. exists pre, post. split; [exact Heq|]. simpl. split.
  - intros d Hd. destruct (Forall2_In_l _ _ _ _ H1 Hd) as (q & Hq & Hdq & Hds).
    rewrite Hds. apply (Hbest q (element d)); [|exact Hdq|now apply Hbefore].
    apply Hkept, in_or_app. now left.
  - intros d Hd. destruct (Forall2_In_l _ _ _ _ H3 Hd) as (q & Hq & Hdq & Hds).
    rewrite Hds. apply (Hbest q (element d)); [|exact Hdq].
    apply Hkept, in_or_app. right. now right.
Qed.

Lemma findMainContent_selected doc e :
  findMainContent doc = Some e <-> exists p, selected doc p /\ nodeAt doc p = Some e.
Proof.
  unfold findMainContent, selected.
  pose proof (sortByScore_head (candidates doc)) as Hh.
  destruct (sortByScore (candidates doc)) as [|top rest].
  - split; [discriminate|].
    intros (p & (n & Hp & Hk & H20 & Hbest) & _).
    destruct (selected_first_highest doc p n Hp Hk Hbest) as (pre & post & H & _).
    rewrite Hh in H. now destruct pre.
  - destruct (first_highest_selected doc top Hh) as (p & Hp & Hs & Hk & Hbest).
    destruct (20 <? cscore top)%Z eqn:E.
    + apply Z.ltb_lt in E. split.
      * intros [= <-]. exists p. split; [|exact Hp].
        exists (element top). split; [exact Hp|]. split; [exact Hk|].
        split; [lia | exact Hbest].
      * intros (q & (n & Hq & Hkq & H20 & Hbestq) & Hq').
        pose proof (selected_first_highest doc q n Hq Hkq Hbestq) as Hfirst.
        rewrite (first_highest_unique _ _ _ Hh Hfirst). simpl. congruence.
    + apply Z.ltb_ge in E. split; [discriminate|].
      intros (q & (n & Hq & Hkq & H20 & Hbestq) & _).
      pose proof (selected_first_highest doc q n Hq Hkq Hbestq) as Hfirst.
      rewrite (first_highest_unique _ _ _ Hh Hfirst) in E. simpl in E. lia.
Qed.

Lemma findMainContent_none doc :
  findMainContent doc = None <->
  forall p n, kept doc p -> nodeAt doc p = Some n -> (score n <= 20)%Z.
Proof.
  unfold findMainContent.
  pose proof (sortByScore_head (candidates doc)) as Hh.
  destruct (candidates_kept doc) as (ps & Hsorted & Hkept & Hall).
  destruct (sortByScore (candidates doc)) as [|top rest].
  - split; [|reflexivity]. intros _ p n Hk Hp.
    rewrite Hh in Hall. inversion Hall; subst. now apply Hkept in Hk.
  - destruct (first_highest_selected doc top Hh) as (p & Hp & Hs & Hk & Hbest).
    destruct (20 <? cscore top)%Z eqn:E.
    + apply Z.ltb_lt in E. split; [discriminate|].
      intros H. specialize (H p _ Hk Hp). lia.
    + apply Z.ltb_ge in E. split; [|reflexivity].
      intros _ q m Hq Hm. destruct (Hbest q m Hq Hm) as [Hle _]. lia.
Qed.

Lemma nodes_positions n : map Some (n :: descendants n) = map (nodeAt n) (positions n).
Proof.
  pose proof (descendants_positions n) as H.
  destruct (positions_head n) as [ps Hps]. rewrite Hps in *. simpl in *.
  now rewrite H.
Qed.

Lemma head_filter_sorted {A} (f : list nat -> option A) (g : A -> bool) l ps :
  map Some l = map f ps -> StronglySorted before ps ->
  match head (List.filter g l) with
  | Some x =>
      exists p, In p ps /\ f p = Some x /\ g x = true /\
                forall q y, In q ps -> f q = Some y -> g y = true ->
                            q = p \/ before p q
  | None => forall q y, In q ps -> f q = Some y -> g y = false
  end.
Proof.
  revert ps. induction l as [|x l IH]; intros [|p ps] H Hs; try discriminate H.
  - intros q y [].
  - simpl in H. injection H as Hx Hl.
    apply StronglySorted_inv in Hs as [Hs Hp]. rewrite List.Forall_forall in Hp.
    specialize (IH ps Hl Hs). simpl. destruct (g x) eqn:Eg; simpl.
    + exists p. split; [now left|]. split; [now symmetry|]. split; [exact Eg|].
      intros q y [<-|Hq] _ _; [now left | right; now apply Hp].
    + destruct (head (List.filter g l)) as [z|].
      * destruct IH as (p' & Hp' & Hf & Hg & Hfirst).
        exists p'. split; [now right|]. split; [exact Hf|]. split; [exact Hg|].
        intros q y [<-|Hq] Hq' Hy; [congruence|]. now apply (Hfirst q y).
      * intros q y [<-|Hq] Hq'; [congruence | now apply (IH q y)].
Qed.

Lemma bodyOf_spec doc :
  match bodyOf doc with
  | Some b => exists p, firstBody doc p /\ nodeAt doc p = Some b
  | None => forall p c i ch, nodeAt doc p <> Some (Element "body" c i ch)
  end.
Proof.
  unfold bodyOf.
  pose proof (head_filter_sorted (nodeAt doc) (hasTag ["body"%string]) _ _
                (nodes_positions doc) (positions_sorted doc)) as H.
  assert (Hbody : forall m, hasTag ["body"%string] m = true <->
                            exists c i ch, m = Element "body" c i ch).
  { intros [data|t c i ch]; simpl.
    - split; [discriminate | intros (c & i & ch & H0); discriminate H0].
    - rewrite orb_false_r, String.eqb_eq. split.
      + intros ->. now exists c, i, ch.
      + intros (c' & i' & ch' & H0). now injection H0. }
  destruct (head _) as [b|].
  - destruct H as (p & Hin & Hp & Hg & Hfirst). exists p. split; [|exact Hp].
    apply Hbody in Hg as (c & i & ch & ->). split; [now exists c, i, ch|].
    intros q c' i' ch' Hq. apply (Hfirst q (Element "body" c' i' ch')).
    + apply positions_In. congruence.
    + exact Hq.
    + apply Hbody. now exists c', i', ch'.
  - intros p c i ch Hp.
    assert (Hin : In p (positions doc)) by (apply positions_In; congruence).
    specialize (H p _ Hin Hp).
    assert (hasTag ["body"%string] (Element "body" c i ch) = true)
      by (apply Hbody; now exists c, i, ch).
    congruence.
Qed.

(** C5.  For every element of a parsed document the score is
    [min(floor(textLength/100), 20)], where [textLength] is the length of the
    element's text (the data of its text nodes in document order) without
    the white space at its ends, plus 2 per paragraph, 3 per heading, 1 per
    image and 2 per list among the elements below it, plus 5 when its class
    and id match the content-indicating pattern and minus 10 when they
    match the boilerplate-indicating pattern.  The candidates are, in
    document order, the structural elements of score above 10 and text
    longer than 200 none of whose three nearest ancestors matches the
    content-indicating pattern.  The element returned is the candidate of
    highest score, the first in document order among those of that score,
    provided that score exceeds 20; otherwise nothing is selected and the
    caller converts the first [body] element of the document. *)
Theorem findMainContent_spec :
  forall doc : Node,
    (forall t cls id children,
        let n := Element t cls id children in
        exists (content trimmed : string)
               (paragraphs headings images lists bonus penalty : Z),
          textOf n content /\ trimmed_of trimmed content /\
          textLength n = Z.of_nat (String.length trimmed) /\
          countsBelow ["p"%string] n paragraphs /\
          countsBelow ["h1"; "h2"; "h3"; "h4"; "h5"; "h6"]%string n headings /\
          countsBelow ["img"%string] n images /\
          countsBelow ["ul"; "ol"]%string n lists /\
          (contentNamed n /\ bonus = 5%Z \/ ~ contentNamed n /\ bonus = 0%Z) /\
          (boilerplateNamed n /\ penalty = 10%Z \/
           ~ boilerplateNamed n /\ penalty = 0%Z) /\
          score n =
            (Z.min (Z.of_nat (String.length trimmed) / 100) 20
             + 2 * paragraphs + 3 * headings + 1 * images + 2 * lists
             + bonus - penalty)%Z) /\
    (exists ps : list (list nat),
        StronglySorted before ps /\
        (forall p, In p ps <-> kept doc p) /\
        Forall2 (fun c p => nodeAt doc p = Some (element c) /\
                            cscore c = score (element c))
                (candidates doc) ps) /\
    (forall e,
        findMainContent doc = Some e <->
        exists p, selected doc p /\ nodeAt doc p = Some e) /\
    (findMainContent doc = None <->
     forall p n, kept doc p -> nodeAt doc p = Some n -> (score n <= 20)%Z) /\
    (forall e, findMainContent doc = Some e -> processHtml doc = Some e) /\
    (findMainContent doc = None ->
     match processHtml doc with
     | Some body => exists p, firstBody doc p /\ nodeAt doc p = Some body
     | None => forall p c i ch, nodeAt doc p <> Some (Element "body" c i ch)
     end).
Proof.
  intros doc. split; [|split; [|split; [|split; [|split]]]].
  - intros t cls id children n.
    exists (text n), (trim (text n)), (findCount ["p"%string] n),
      (findCount HEADINGS n), (findCount ["img"%string] n),
      (findCount ["ul"; "ol"]%string n),
      (if positiveRegex n then 5%Z else 0%Z), (if negativeRegex n then 10%Z else 0%Z).
    split; [apply text_spec|]. split; [apply trim_spec|]. split; [reflexivity|].
    do 4 (split; [apply findCount_spec|]).
    split; [|split].
    + destruct (positiveRegex n) eqn:E; [left | right]; (split; [|reflexivity]).
      * now apply positiveRegex_spec.
      * intros H. apply positiveRegex_spec in H. congruence.
    + destruct (negativeRegex n) eqn:E; [left | right]; (split; [|reflexivity]).
      * now apply negativeRegex_spec.
      * intros H. apply negativeRegex_spec in H. congruence.
    + unfold score, textLength. cbv zeta.
      destruct (positiveRegex n), (negativeRegex n); ring.
  - apply candidates_kept.
  - apply findMainContent_selected.
  - apply findMainContent_none.
  - intros e H. unfold processHtml. now rewrite H.
  - intros H. unfold processHtml. rewrite H. apply bodyOf_spec.
Qed.

Example examplePage_selects_article :
  findMainContent examplePage = Some article /\ score article = 90%Z /\
  processHtml examplePage = Some article.
Proof. repeat split; vm_compute; reflexivity. Qed.

Example tie_goes_to_the_first :
  score (block "first") = 22%Z /\ score (block "second") = 22%Z /\
  findMainContent tiePage = Some (block "first").
Proof. split; [|split]; vm_compute; reflexivity. Qed.

Example nested_block_is_discarded :
  map element (candidates nestedPage)
    = [Element "div" "content" "" [ block "inner" ]] /\
  findMainContent nestedPage = Some (Element "div" "content" "" [ block "inner" ]).
Proof. split; vm_compute; reflexivity. Qed.

End ReadabilityFacts.

(** ** The extraction batch queue *)

Module LLMFacts.

Import JS JSFacts Types LLM.

Lemma resolveReturned_steps results st :
  resolveReturned results st = settleEach (returnedSteps results) st.
Proof.
  unfold resolveReturned, settleEach, returnedSteps. revert st.
  induction results as [|[k v] r IH]; intros st; simpl; [reflexivity | apply IH].
Qed.

Lemma settleEach_app a b st :
  settleEach (a ++ b) st = settleEach b (settleEach a st).
Proof. unfold settleEach. apply fold_left_app. Qed.

Lemma resolveMissing_steps results batch st :
  resolveMissing results batch st = settleEach (missingSteps results batch) st.
Proof.
  unfold resolveMissing, missingSteps. revert st.
  induction batch as [|i b IH]; intros st; simpl; [reflexivity|].
  rewrite settleEach_app, <- IH.
  now destruct (obj_get (siteName i) results).
Qed.

Lemma rejectAll_steps error batch st :
  rejectAll error batch st = settleEach (rejectSteps error batch) st.
Proof.
  unfold rejectAll, settleEach, rejectSteps. revert st.
  induction batch as [|i b IH]; intros st; simpl; [reflexivity | apply IH].
Qed.

Lemma settlementsOf_app p l1 l2 :
  settlementsOf p (l1 ++ l2) = settlementsOf p l1 ++ settlementsOf p l2.
Proof. unfold settlementsOf. now rewrite List.filter_app, map_app. Qed.

Lemma settlementsOf_other p p' o : p' <> p -> settlementsOf p [(p', o)] = [].
Proof.
  intros H. unfold settlementsOf. simpl.
  destruct (Nat.eqb_spec p' p); [contradiction | reflexivity].
Qed.

Lemma settlementsOf_same p o : settlementsOf p [(p, o)] = [o].
Proof. unfold settlementsOf. simpl. now rewrite Nat.eqb_refl. Qed.

Lemma settleEach_cons k o steps st :
  settleEach ((k, o) :: steps) st = settleEach steps (settleSite k o st).
Proof. reflexivity. Qed.

(** The loops only delete resolvers. *)
Lemma settleEach_subset steps (m : gmap string nat) log k p :
  (settleEach steps (m, log)).1 !! k = Some p -> m !! k = Some p.
Proof.
  revert m log. induction steps as [|[k' o] steps IH]; intros m log; [easy|].
  rewrite settleEach_cons. unfold settleSite. cbn [fst snd].
  destruct (m !! k') as [p'|] eqn:E; [|apply IH].
  intros H. apply IH in H. now apply lookup_delete_Some in H.
Qed.

(** The loops only add settlements. *)
Lemma settleEach_log_grows steps (m : gmap string nat) log x :
  In x log -> In x (settleEach steps (m, log)).2.
Proof.
  revert m log. induction steps as [|[k' o] steps IH]; intros m log; [easy|].
  rewrite settleEach_cons. unfold settleSite. cbn [fst snd].
  destruct (m !! k') as [p'|] eqn:E; [|apply IH].
  intros H. apply IH, in_or_app. now left.
Qed.

(** A promise no resolver points to is not settled. *)
Lemma settleEach_unowned steps (m : gmap string nat) log p :
  (forall k, m !! k <> Some p) ->
  settlementsOf p (settleEach steps (m, log)).2 = settlementsOf p log.
Proof.
  revert m log. induction steps as [|[k' o] steps IH]; intros m log Hm; [easy|].
  rewrite settleEach_cons. unfold settleSite. cbn [fst snd].
  destruct (m !! k') as [p'|] eqn:E; [|now apply IH].
  rewrite IH.
  - rewrite settlementsOf_app, settlementsOf_other, app_nil_r; [reflexivity|].
    intros ->. now apply (Hm k').
  - intros k H. apply lookup_delete_Some in H as [_ H]. now apply (Hm k).
Qed.

(** The first call for a registered site settles its promise. *)
Lemma settleEach_hits steps (m : gmap string nat) log k p o :
  m !! k = Some p -> firstFor k steps = Some o ->
  In (p, o) (settleEach steps (m, log)).2.
Proof.
  revert m log. induction steps as [|[k' o'] steps IH]; intros m log Hk Hf; simpl in Hf;
    [discriminate|].
  rewrite settleEach_cons. unfold settleSite. cbn [fst snd].
  destruct (String.eqb_spec k k') as [<-|Hne].
  - injection Hf as <-. rewrite Hk. apply settleEach_log_grows, in_or_app.
    right. now left.
  - destruct (m !! k') as [p'|] eqn:E; apply IH; try assumption.
    rewrite lookup_delete_ne; [assumption | congruence].
Qed.

(** With distinct resolvers, the promise of a registered site receives
    exactly the settlement of the first call for that site, and the site is
    no longer registered afterwards. *)
Lemma settleEach_owned steps (m : gmap string nat) log k p :
  injective m -> m !! k = Some p ->
  settlementsOf p (settleEach steps (m, log)).2
    = settlementsOf p log ++ match firstFor k steps with
                             | Some o => [o]
                             | None => []
                             end /\
  (settleEach steps (m, log)).1 !! k
    = match firstFor k steps with Some _ => None | None => Some p end.
Proof.
  revert m log. induction steps as [|[k' o] steps IH]; intros m log Hinj Hk.
  - simpl. now rewrite app_nil_r.
  - rewrite settleEach_cons. unfold settleSite. cbn [fst snd firstFor].
    destruct (String.eqb_spec k k') as [<-|Hne].
    + rewrite Hk. split.
      * rewrite settleEach_unowned.
        -- now rewrite settlementsOf_app, settlementsOf_same.
        -- intros k2 H. apply lookup_delete_Some in H as [Hne H].
           apply Hne. now apply (Hinj k k2 p).
      * match goal with |- ?x = None => destruct x as [q|] eqn:E end; [|reflexivity].
        apply settleEach_subset in E. now rewrite lookup_delete_eq in E.
    + destruct (m !! k') as [p'|] eqn:E; [|now apply IH].
      assert (Hp : p' <> p) by (intros ->; apply Hne; now apply (Hinj k k' p)).
      destruct (IH (delete k' m) (log ++ [(p', o)])) as [H1 H2].
      * intros k1 k2 q Ha Hb. apply lookup_delete_Some in Ha as [_ Ha].
        apply lookup_delete_Some in Hb as [_ Hb]. now apply (Hinj k1 k2 q).
      * rewrite lookup_delete_ne; [assumption | congruence].
      * split; [|exact H2].
        now rewrite H1, settlementsOf_app, settlementsOf_other, app_nil_r.
Qed.

Lemma settleEach_injective steps (m : gmap string nat) log :
  injective m -> injective (settleEach steps (m, log)).1.
Proof.
  intros Hinj k1 k2 p H1 H2. apply settleEach_subset in H1, H2.
  now apply (Hinj k1 k2 p).
Qed.

Lemma firstFor_returned k results :
  firstFor k (returnedSteps results) = Resolved <$> obj_get k results.
Proof.
  induction results as [|[k' v] r IH]; simpl; [reflexivity|].
  now destruct (String.eqb k k').
Qed.

Lemma firstFor_missing results batch input :
  In input batch -> obj_get (siteName input) results = None ->
  firstFor (siteName input) (missingSteps results batch)
    = Some (Resolved emptyExtractedData).
Proof.
  intros Hin Hnone. induction batch as [|i b IH]; [destruct Hin|]. simpl.
  destruct (obj_get (siteName i) results) eqn:E; simpl.
  - destruct Hin as [->|Hin]; [congruence | now apply IH].
  - destruct (String.eqb_spec (siteName input) (siteName i)); [reflexivity|].
    destruct Hin as [->|Hin]; [contradiction | now apply IH].
Qed.

Lemma firstFor_reject error batch input :
  In input batch ->
  firstFor (siteName input) (rejectSteps error batch) = Some (Rejected error).
Proof.
  intros Hin. induction batch as [|i b IH]; [destruct Hin|]. simpl.
  destruct (String.eqb_spec (siteName input) (siteName i)); [reflexivity|].
  destruct Hin as [->|Hin]; [contradiction | now apply IH].
Qed.

Lemma processBatch_keeps s :
  pendingResolvers (processBatch s) = pendingResolvers s /\
  settled (processBatch s) = settled s /\
  nextPromise (processBatch s) = nextPromise s.
Proof. unfold processBatch. now destruct (_ || _). Qed.

Lemma processBatchSettles_loops outcome s batch :
  inFlight s = Some batch ->
  pendingResolvers (processBatchSettles outcome s)
    = (afterLoops outcome batch (pendingResolvers s, settled s)).1 /\
  settled (processBatchSettles outcome s)
    = (afterLoops outcome batch (pendingResolvers s, settled s)).2.
Proof.
  intros H. unfold processBatchSettles. rewrite H. cbv zeta.
  destruct (Nat.leb _ _); [|split; reflexivity].
  now destruct (processBatch_keeps
    {| queue := queue s; processing := false;
       pendingResolvers := (afterLoops outcome batch (pendingResolvers s, settled s)).1;
       nextPromise := nextPromise s;
       settled := (afterLoops outcome batch (pendingResolvers s, settled s)).2;
       timers := timers s; inFlight := None; started := started s |}) as (-> & -> & _).
Qed.

(** When a flush completes, the promise registered for a site of the batch
    is settled once more, with the data returned for the site, with the
    empty result when the response omits the site, or with the error of the
    failed call; and the site is no longer registered. *)
Lemma flush_settles_registered outcome s batch input p :
  inFlight s = Some batch ->
  injective (pendingResolvers s) ->
  In input batch ->
  pendingResolvers s !! siteName input = Some p ->
  settlementsOf p (settled (processBatchSettles outcome s))
    = settlementsOf p (settled s) ++ [expected outcome (siteName input)] /\
  pendingResolvers (processBatchSettles outcome s) !! siteName input = None.
Proof.
  intros Hfl Hinj Hin Hp.
  destruct (processBatchSettles_loops outcome s batch Hfl) as [-> ->].
  destruct outcome as [results|error]; simpl.
  - rewrite resolveReturned_steps, resolveMissing_steps.
    destruct (settleEach (returnedSteps results) (pendingResolvers s, settled s))
      as [m1 log1] eqn:E1.
    pose proof (settleEach_owned (returnedSteps results) _ (settled s) _ _ Hinj Hp)
      as [H1 H2].
    pose proof (settleEach_injective (returnedSteps results) _ (settled s) Hinj) as Hinj1.
    rewrite E1 in H1, H2, Hinj1. simpl in H1, H2, Hinj1.
    rewrite firstFor_returned in H1, H2.
    destruct (obj_get (siteName input) results) as [data|] eqn:Eg; simpl in H1, H2.
    + split.
      * rewrite settleEach_unowned; [exact H1|].
        intros k Hk. assert (Hk' : pendingResolvers s !! k = Some p).
        { apply (settleEach_subset (returnedSteps results) _ (settled s)).
          now rewrite E1. }
        rewrite (Hinj _ _ _ Hk' Hp) in Hk. congruence.
      * match goal with |- ?x = None => destruct x as [q|] eqn:E end; [|reflexivity].
        apply settleEach_subset in E. congruence.
    + destruct (settleEach_owned (missingSteps results batch) m1 log1 _ _ Hinj1 H2)
        as [H3 H4].
      rewrite (firstFor_missing _ _ _ Hin Eg) in H3, H4.
      split; [now rewrite H3, H1, app_nil_r | exact H4].
  - rewrite rejectAll_steps.
    destruct (settleEach_owned (rejectSteps error batch) _ (settled s) _ _ Hinj Hp)
      as [H1 H2].
    rewrite (firstFor_reject _ _ _ Hin) in H1, H2. now split.
Qed.

Lemma afterLoops_steps outcome batch st :
  afterLoops outcome batch st = settleEach (stepsOf outcome batch) st.
Proof.
  destruct outcome as [results|error]; simpl.
  - now rewrite settleEach_app, resolveReturned_steps, resolveMissing_steps.
  - apply rejectAll_steps.
Qed.

Lemma queueItem_fields input s :
  pendingResolvers (snd (queueItem input s))
    = <[siteName input := nextPromise s]> (pendingResolvers s) /\
  settled (snd (queueItem input s)) = settled s /\
  nextPromise (snd (queueItem input s)) = S (nextPromise s).
Proof.
  unfold queueItem. cbv zeta. destruct (Nat.leb _ _).
  - cbn [snd]. now destruct (processBatch_keeps
      {| queue := queue s ++ [input]; processing := processing s;
         pendingResolvers := <[siteName input := nextPromise s]> (pendingResolvers s);
         nextPromise := S (nextPromise s); settled := settled s;
         timers := timers s; inFlight := inFlight s; started := started s |})
      as (-> & -> & ->).
  - now destruct (_ && _).
Qed.

Lemma timerFires_fields s :
  pendingResolvers (timerFires s) = pendingResolvers s /\
  settled (timerFires s) = settled s /\
  nextPromise (timerFires s) = nextPromise s.
Proof.
  unfold timerFires. destruct (timers s) as [|n]; [easy|]. cbv zeta.
  destruct (_ && _); [|easy].
  now destruct (processBatch_keeps
    {| queue := queue s; processing := processing s;
       pendingResolvers := pendingResolvers s; nextPromise := nextPromise s;
       settled := settled s; timers := n; inFlight := inFlight s;
       started := started s |}) as (-> & -> & ->).
Qed.

Lemma processRemainingItems_fields s :
  pendingResolvers (snd (processRemainingItems s)) = pendingResolvers s /\
  settled (snd (processRemainingItems s)) = settled s /\
  nextPromise (snd (processRemainingItems s)) = nextPromise s.
Proof.
  unfold processRemainingItems. destruct (_ && _); [|easy].
  apply processBatch_keeps.
Qed.

Lemma processBatchSettles_fields outcome s :
  (exists batch, inFlight s = Some batch /\
     pendingResolvers (processBatchSettles outcome s)
       = (settleEach (stepsOf outcome batch) (pendingResolvers s, settled s)).1 /\
     settled (processBatchSettles outcome s)
       = (settleEach (stepsOf outcome batch) (pendingResolvers s, settled s)).2 /\
     nextPromise (processBatchSettles outcome s) = nextPromise s) \/
  (inFlight s = None /\ processBatchSettles outcome s = s).
Proof.
  destruct (inFlight s) as [batch|] eqn:E.
  - left. exists batch. split; [reflexivity|].
    destruct (processBatchSettles_loops outcome s batch E) as [-> ->].
    rewrite afterLoops_steps. split; [reflexivity|]. split; [reflexivity|].
    unfold processBatchSettles. rewrite E. cbv zeta.
    destruct (Nat.leb _ _); [|reflexivity].
    now destruct (processBatch_keeps
      {| queue := queue s; processing := false;
         pendingResolvers := (afterLoops outcome batch (pendingResolvers s, settled s)).1;
         nextPromise := nextPromise s;
         settled := (afterLoops outcome batch (pendingResolvers s, settled s)).2;
         timers := timers s; inFlight := None; started := started s |})
      as (_ & _ & ->).
  - right. split; [reflexivity|]. unfold processBatchSettles. now rewrite E.
Qed.

Lemma step_wellFormed s e : wellFormed s -> wellFormed (step s e).
Proof.
  intros [Hinj Hlt]. destruct e as [input| | |outcome]; unfold wellFormed; cbn [step].
  - destruct (queueItem_fields input s) as (-> & _ & ->). split.
    + intros k1 k2 p H1 H2.
      apply lookup_insert_Some in H1 as [[<- <-]|[Hn1 H1]];
        apply lookup_insert_Some in H2 as [[<- H2]|[Hn2 H2]]; try reflexivity.
      * apply Hlt in H2. lia.
      * subst p. apply Hlt in H1. lia.
      * now apply (Hinj k1 k2 p).
    + intros k p H. apply lookup_insert_Some in H as [[_ <-]|[_ H]]; [lia|].
      apply Hlt in H. lia.
  - now destruct (timerFires_fields s) as (-> & _ & ->).
  - now destruct (processRemainingItems_fields s) as (-> & _ & ->).
  - destruct (processBatchSettles_fields outcome s)
      as [(batch & _ & -> & _ & ->)|[_ ->]]; [|now split].
    split.
    + now apply settleEach_injective.
    + intros k p H. apply settleEach_subset in H. now apply (Hlt k).
Qed.

Lemma run_wellFormed events s : wellFormed s -> wellFormed (run events s).
Proof.
  revert s. induction events as [|e events IH]; intros s H; simpl; [exact H|].
  now apply IH, step_wellFormed.
Qed.

Lemma initial_wellFormed : wellFormed initial.
Proof. split; intros k; intros; simpl in *; now rewrite lookup_empty in *. Qed.

(** A promise that was created and that no resolver points to any more is
    never settled, whatever happens afterwards. *)
Lemma orphan_never_settled events s p :
  (forall k, pendingResolvers s !! k <> Some p) ->
  p < nextPromise s ->
  settlementsOf p (settled (run events s)) = settlementsOf p (settled s).
Proof.
  revert s. induction events as [|e events IH]; intros s Hno Hlt; simpl; [reflexivity|].
  assert (H : (forall k, pendingResolvers (step s e) !! k <> Some p) /\
              p < nextPromise (step s e) /\
              settlementsOf p (settled (step s e)) = settlementsOf p (settled s)).
  { destruct e as [input| | |outcome]; cbn [step].
    - destruct (queueItem_fields input s) as (-> & -> & ->).
      split; [|split; [lia | reflexivity]].
      intros k H. apply lookup_insert_Some in H as [[_ H]|[_ H]]; [lia|].
      now apply (Hno k).
    - now destruct (timerFires_fields s) as (-> & -> & ->).
    - now destruct (processRemainingItems_fields s) as (-> & -> & ->).
    - destruct (processBatchSettles_fields outcome s)
        as [(batch & _ & -> & -> & ->)|[_ ->]]; [|easy].
      split; [|split; [exact Hlt | now apply settleEach_unowned]].
      intros k H. apply settleEach_subset in H. now apply (Hno k). }
  destruct H as (H1 & H2 & <-). now apply IH.
Qed.

(** *** The drain operation *)

Lemma processBatch_taken s :
  queue s <> [] -> processing s = false ->
  processBatch s =
    {| queue := []; processing := true;
       pendingResolvers := pendingResolvers s; nextPromise := nextPromise s;
       settled := settled s; timers := timers s;
       inFlight := Some (queue s); started := started s ++ [queue s] |}.
Proof.
  intros Hq Hp. unfold processBatch. rewrite Hp.
  destruct (queue s); [contradiction | reflexivity].
Qed.

(** C10.  [processRemainingItems] hands a batch to the outbound call if and
    only if the queue is not empty and no flush is in progress when it is
    called; it then takes the whole queue and awaits that flush.  Called
    while a flush is in progress (or on an empty queue) it awaits nothing and
    leaves everything as it was: no flush, no timer, the pending items still
    in the queue. *)
Theorem processRemainingItems_spec :
  forall s : State,
    (started (snd (processRemainingItems s)) <> started s <->
     queue s <> [] /\ processing s = false) /\
    (queue s <> [] /\ processing s = false ->
     fst (processRemainingItems s) = Some (queue s) /\
     started (snd (processRemainingItems s)) = started s ++ [queue s] /\
     queue (snd (processRemainingItems s)) = [] /\
     processing (snd (processRemainingItems s)) = true /\
     timers (snd (processRemainingItems s)) = timers s) /\
    (processing s = true ->
     fst (processRemainingItems s) = None /\ snd (processRemainingItems s) = s) /\
    (queue s = [] ->
     fst (processRemainingItems s) = None /\ snd (processRemainingItems s) = s).
Proof.
  intros s.
  assert (Hyes : queue s <> [] /\ processing s = false ->
                 processRemainingItems s
                 = (Some (queue s), processBatch s)).
  { intros [Hq Hp]. unfold processRemainingItems. rewrite Hp.
    rewrite (processBatch_taken s Hq Hp). cbn [inFlight].
    destruct (queue s); [contradiction | reflexivity]. }
  assert (Hno : processing s = true \/ queue s = [] ->
                processRemainingItems s = (None, s)).
  { intros [Hp|Hq]; unfold processRemainingItems.
    - rewrite Hp. now rewrite andb_false_r.
    - now rewrite Hq. }
  split; [|split; [|split]].
  - split.
    + intros Hne. destruct (processing s) eqn:Hp.
      * rewrite Hno in Hne by now left. now contradiction Hne.
      * destruct (queue s) eqn:Hq; [|easy].
        rewrite Hno in Hne by now right. now contradiction Hne.
    + intros [Hq Hp]. rewrite Hyes by easy. cbn [snd].
      rewrite (processBatch_taken s Hq Hp). cbn [started].
      intros H. apply (f_equal (@length _)) in H. rewrite length_app in H.
      simpl in H. lia.
  - intros [Hq Hp]. rewrite Hyes by easy. cbn [fst snd].
    now rewrite (processBatch_taken s Hq Hp).
  - intros Hp. rewrite Hno by now left. easy.
  - intros Hq. rewrite Hno by now right. easy.
Qed.

Lemma isRetryableError_spec error :
  isRetryableError error = true <->
  (isTypeError error = true /\ tmessage error = "fetch failed"%string) \/
  exists signature, In signature TRANSIENT_SIGNATURES /\
                    substring_of signature (tmessage error).
Proof.
  unfold isRetryableError. cbv zeta.
  rewrite !orb_true_iff, andb_true_iff, String.eqb_eq, !includes_spec.
  unfold TRANSIENT_SIGNATURES. split.
  - intros [[[H|[[H|H]|H]]|[H|H]]|[[H|H]|H]];
      [now left | right; eexists; split; [|exact H]; simpl; tauto ..].
  - intros [H|(sg & Hin & H)]; [tauto|]. simpl in Hin.
    destruct Hin as [<-|[<-|[<-|[<-|[<-|[<-|[<-|[<-|[]]]]]]]]]; tauto.
Qed.

(** The loop ends by itself: more fuel than its three rounds changes
    nothing. *)
Lemma retryLoop_fuel service fuel :
  retryLoop service (3 + fuel) 0 = retryLoop service 3 0.
Proof.
  cbn [retryLoop Nat.add Nat.leb Nat.ltb maxRetries andb].
  destruct (service 0) as [a0|e0]; [reflexivity|].
  destruct (isRetryableError e0); [|reflexivity]. cbn [andb].
  destruct (service 1) as [a1|e1]; [reflexivity|].
  destruct (isRetryableError e1); [|reflexivity]. cbn [andb].
  destruct (service 2) as [a2|e2]; [reflexivity|].
  now rewrite andb_false_r.
Qed.

Lemma callLLMWithBatch_cases service :
  let out := fst (callLLMWithBatch true service) in
  let effects := snd (callLLMWithBatch true service) in
  retrySchedule effects /\
  (forall n, In (Attempt (S n)) effects ->
             exists e, service n = inr e /\ isRetryableError e = true) /\
  (forall err, out = inr err ->
     exists n e,
       last effects = Some (Attempt n) /\ service n = inr e /\
       err = detailedError e /\
       (isRetryableError e = false \/ n = maxRetries)) /\
  (forall results, out = inl results ->
     exists n extractedDataArray,
       last effects = Some (Attempt n) /\ service n = inl extractedDataArray /\
       results = toRecord extractedDataArray).
Proof.
  unfold callLLMWithBatch. change (maxRetries + 2) with (3 + 1).
  rewrite retryLoop_fuel. unfold retrySchedule.
  cbn [retryLoop Nat.add Nat.leb Nat.ltb maxRetries andb].
  destruct (service 0) as [a0|e0] eqn:E0.
  { cbn. split; [tauto|]. split; [|split].
    - intros n [H|[]]. discriminate.
    - discriminate.
    - intros r [= <-]. now exists 0, a0. }
  destruct (isRetryableError e0) eqn:R0; cbn [andb].
  2:{ cbn. split; [tauto|]. split; [|split].
      - intros n [H|[]]. discriminate.
      - intros err [= <-]. exists 0, e0. tauto.
      - discriminate. }
  destruct (service 1) as [a1|e1] eqn:E1.
  { cbn. split; [tauto|]. split; [|split].
    - intros n [H|[H|[H|[]]]]; try discriminate. injection H as <-. now exists e0.
    - discriminate.
    - intros r [= <-]. now exists 1, a1. }
  destruct (isRetryableError e1) eqn:R1; cbn [andb].
  2:{ cbn. split; [tauto|]. split; [|split].
      - intros n [H|[H|[H|[]]]]; try discriminate. injection H as <-. now exists e0.
      - intros err [= <-]. exists 1, e1. tauto.
      - discriminate. }
  destruct (service 2) as [a2|e2] eqn:E2.
  { cbn. split; [tauto|]. split; [|split].
    - intros n [H|[H|[H|[H|[H|[]]]]]]; try discriminate; injection H as <-;
        [now exists e0 | now exists e1].
    - discriminate.
    - intros r [= <-]. now exists 2, a2. }
  rewrite andb_false_r. cbn. split; [tauto|]. split; [|split].
  - intros n [H|[H|[H|[H|[H|[]]]]]]; try discriminate; injection H as <-;
      [now exists e0 | now exists e1].
  - intros err [= <-]. exists 2, e2. tauto.
  - discriminate.
Qed.

(** The retry policy on the registered resolvers.  The outbound call of a
    flush is attempted at most three times, with
    a wait of 1000 ms before the second attempt and 2000 ms before the third;
    an attempt is repeated only after a failure that [isRetryableError]
    accepts, that is a [TypeError] saying [fetch failed] or a message that
    contains a rate-limit, quota, 429, timeout, socket-hang-up or
    network-reset signature.  When the call fails, its error wraps the error
    of the last attempt, which was not retryable or was the third; and in
    every state the processor can reach, the promise registered for each
    site of the batch in flight is then rejected with that one error, once. *)
Theorem callLLMWithBatch_retry_policy :
  forall (service : list LLMInput -> nat -> list (string * ExtractedData) + Thrown)
         (events : list Event) (batch : list LLMInput),
    inFlight (run events initial) = Some batch ->
    (forall error,
        isRetryableError error = true <->
        (isTypeError error = true /\ tmessage error = "fetch failed"%string) \/
        exists signature, In signature TRANSIENT_SIGNATURES /\
                          substring_of signature (tmessage error)) /\
    retrySchedule (snd (callLLMWithBatch true (service batch))) /\
    (forall n, In (Attempt (S n)) (snd (callLLMWithBatch true (service batch))) ->
               exists e, service batch n = inr e /\ isRetryableError e = true) /\
    (forall err,
        fst (callLLMWithBatch true (service batch)) = inr err ->
        (exists n e,
            last (snd (callLLMWithBatch true (service batch))) = Some (Attempt n) /\
            service batch n = inr e /\ err = detailedError e /\
            (isRetryableError e = false \/ n = maxRetries)) /\
        (forall input p,
            In input batch ->
            pendingResolvers (run events initial) !! siteName input = Some p ->
            settlementsOf p (settled (flush true service (run events initial)))
              = settlementsOf p (settled (run events initial)) ++ [Rejected err])).
Proof.
  intros service events batch Hfl.
  destruct (callLLMWithBatch_cases (service batch)) as (H1 & H2 & H3 & _).
  split; [exact isRetryableError_spec|]. split; [exact H1|]. split; [exact H2|].
  intros err Herr. split; [now apply H3|].
  intros input p Hin Hp. unfold flush. rewrite Hfl, Herr.
  assert (Hinj : injective (pendingResolvers (run events initial)))
    by exact (proj1 (run_wellFormed _ _ initial_wellFormed)).
  now destruct (flush_settles_registered (inr err) _ batch input p Hfl Hinj Hin Hp).
Qed.

Lemma callLLMWithBatch_retry_policy_witness :
  inFlight (run [Enqueue siteA; Enqueue siteB; TimerFires] initial)
    = Some [siteA; siteB] /\
  snd (callLLMWithBatch true (alwaysDown [siteA; siteB]))
    = [Attempt 0; Sleep 1000; Attempt 1; Sleep 2000; Attempt 2] /\
  settlementsOf 0 (settled (flush true alwaysDown twoQueued))
    = [Rejected (detailedError fetchFailed)] /\
  settlementsOf 1 (settled (flush true alwaysDown twoQueued))
    = [Rejected (detailedError fetchFailed)].
Proof.
  assert (Hfl : inFlight (run [Enqueue siteA; Enqueue siteB; TimerFires] initial)
                = Some [siteA; siteB]) by reflexivity.
  destruct (callLLMWithBatch_retry_policy alwaysDown _ _ Hfl) as (_ & _ & _ & H).
  destruct (H (detailedError fetchFailed) eq_refl) as [_ Hrej].
  split; [exact Hfl|]. split; [reflexivity|]. split.
  - apply (Hrej siteA 0); [now left | reflexivity].
  - apply (Hrej siteB 1); [right; now left | reflexivity].
Defined.

(** A transient failure followed by a success: one wait of 1000 ms, then the
    site returned is resolved with its data and the site left out of the
    response with the empty result. *)
Example transient_failure_then_success :
  snd (callLLMWithBatch true (busyOnce [siteA; siteB]))
    = [Attempt 0; Sleep 1000; Attempt 1] /\
  settled (flush true busyOnce twoQueued)
    = [(0, Resolved {| phone_numbers := ["+1 555 0100"%string];
                       social_media_links := []; addresses := [] |});
       (1, Resolved emptyExtractedData)].
Proof. split; vm_compute; reflexivity. Qed.

(** C1 on the code.  When a site name is enqueued twice, [queueItem]
    overwrites the resolver stored for the first request.  Both requests are
    in the batch the flush takes; however the outbound call ends, the promise
    of the second request is settled once, and the promise of the first is
    not settled by the flush nor by anything that happens afterwards. *)
Theorem duplicate_siteName_left_pending :
  fst (queueItem firstRequest initial) = 0 /\
  fst (queueItem secondRequest (snd (queueItem firstRequest initial))) = 1 /\
  inFlight duplicateRun = Some [firstRequest; secondRequest] /\
  settled (processBatchSettles (inl [("a.com"%string, sampleData)]) duplicateRun)
    = [(1, Resolved sampleData)] /\
  settled (processBatchSettles (inr (newError "boom")) duplicateRun)
    = [(1, Rejected (newError "boom"))] /\
  forall (outcome : ResultRecord + Thrown) (events : list Event),
    settlementsOf 1 (settled (processBatchSettles outcome duplicateRun))
      = [expected outcome "a.com"] /\
    settlementsOf 0
      (settled (run events (processBatchSettles outcome duplicateRun))) = [].
Proof.
  split; [reflexivity|]. split; [reflexivity|].
  assert (Hfl : inFlight duplicateRun = Some [firstRequest; secondRequest])
    by reflexivity.
  split; [exact Hfl|]. split; [vm_compute; reflexivity|].
  split; [vm_compute; reflexivity|]. intros outcome events.
  assert (Hwf : wellFormed duplicateRun)
    by exact (run_wellFormed _ _ initial_wellFormed).
  assert (Hm : pendingResolvers duplicateRun
               = <["a.com"%string := 1]> (<["a.com"%string := 0]> ∅))
    by reflexivity.
  split.
  - destruct (flush_settles_registered outcome duplicateRun _ secondRequest 1
                Hfl (proj1 Hwf)) as [H _]; [right; now left | reflexivity |].
    exact H.
  - assert (Hno : forall k, pendingResolvers duplicateRun !! k <> Some 0).
    { intros k. rewrite Hm. intros H.
      apply lookup_insert_Some in H as [[_ H]|[Hne H]]; [discriminate|].
      apply lookup_insert_Some in H as [[H _]|[_ H]]; [congruence|].
      now rewrite lookup_empty in H. }
    destruct (processBatchSettles_fields outcome duplicateRun)
      as [(batch & _ & Hr & Hs & Hn)|[Hnone _]]; [|congruence].
    rewrite orphan_never_settled.
    + rewrite Hs. now rewrite settleEach_unowned.
    + rewrite Hr. intros k H. apply settleEach_subset in H. now apply (Hno k).
    + rewrite Hn. cbn. lia.
Qed.

Lemma duplicateRun_orphan (outcome : ResultRecord + Thrown) (events : list Event) :
  settlementsOf 1 (settled (processBatchSettles outcome duplicateRun))
    = [expected outcome "a.com"] /\
  settlementsOf 0
    (settled (run events (processBatchSettles outcome duplicateRun))) = [].
Proof.
  assert (Hfl : inFlight duplicateRun = Some [firstRequest; secondRequest])
    by reflexivity.
  assert (Hwf : wellFormed duplicateRun)
    by exact (run_wellFormed _ _ initial_wellFormed).
  assert (Hm : pendingResolvers duplicateRun
               = <["a.com"%string := 1]> (<["a.com"%string := 0]> ∅))
    by reflexivity.
  split.
  - destruct (flush_settles_registered outcome duplicateRun _ secondRequest 1
                Hfl (proj1 Hwf)) as [H _]; [right; now left | reflexivity |].
    exact H.
  - assert (Hno : forall k, pendingResolvers duplicateRun !! k <> Some 0).
    { intros k. rewrite Hm. intros H.
      apply lookup_insert_Some in H as [[_ H]|[Hne H]]; [discriminate|].
      apply lookup_insert_Some in H as [[H _]|[_ H]]; [congruence|].
      now rewrite lookup_empty in H. }
    destruct (processBatchSettles_fields outcome duplicateRun)
      as [(batch & _ & Hr & Hs & Hn)|[Hnone _]]; [|congruence].
    rewrite orphan_never_settled.
    + rewrite Hs. now rewrite settleEach_unowned.
    + rewrite Hr. intros k H. apply settleEach_subset in H. now apply (Hno k).
    + rewrite Hn. cbn. lia.
Qed.

(** C6 on the code.  The retries are as the claim says: with the service
    down the call is attempted three times, after waits of 1000 ms and
    2000 ms, and fails with one error that wraps the error of the third
    attempt; after a failure that is not transient it is attempted once.
    But not every request of the batch is rejected with that error.  When a
    site name was enqueued twice, [queueItem] has overwritten the resolver of
    the first request: however the call fails, the [catch] block rejects,
    once, the promise of the second request, and the promise of the first
    request, which is in the batch of the flush, is not rejected then nor
    settled by anything that happens afterwards. *)
Theorem failed_call_leaves_duplicate_unrejected :
  inFlight duplicateRun = Some [firstRequest; secondRequest] /\
  callLLMWithBatch true (alwaysDown [firstRequest; secondRequest])
    = (inr (detailedError fetchFailed),
       [Attempt 0; Sleep 1000; Attempt 1; Sleep 2000; Attempt 2]) /\
  settled (flush true alwaysDown duplicateRun)
    = [(1, Rejected (detailedError fetchFailed))] /\
  callLLMWithBatch true (fun _ => inr (newError "400 Bad Request"))
    = (inr (detailedError (newError "400 Bad Request")), [Attempt 0]) /\
  settled (flush true (fun _ _ => inr (newError "400 Bad Request")) duplicateRun)
    = [(1, Rejected (detailedError (newError "400 Bad Request")))] /\
  forall (service : list LLMInput -> nat -> list (string * ExtractedData) + Thrown)
         (err : Thrown) (events : list Event),
    fst (callLLMWithBatch true (service [firstRequest; secondRequest])) = inr err ->
    settlementsOf 1 (settled (flush true service duplicateRun)) = [Rejected err] /\
    settlementsOf 0 (settled (run events (flush true service duplicateRun))) = [].
Proof.
  assert (Hfl : inFlight duplicateRun = Some [firstRequest; secondRequest])
    by reflexivity.
  split; [exact Hfl|]. split; [vm_compute; reflexivity|].
  split; [vm_compute; reflexivity|]. split; [vm_compute; reflexivity|].
  split; [vm_compute; reflexivity|].
  intros service err events Herr. unfold flush. rewrite Hfl, Herr.
  exact (duplicateRun_orphan (inr err) events).
Qed.

(** Twenty requests: the twentieth starts one flush with all of them. *)
Example twenty_items_one_flush :
  started (run (map Enqueue (sites 19)) initial) = [] /\
  started (run (map Enqueue (sites 20)) initial) = [sites 20] /\
  queue (run (map Enqueue (sites 20)) initial) = [].
Proof. split; [|split]; vm_compute; reflexivity. Qed.

(** Five requests: the first timer starts one flush with the five, and the
    timers of the other requests find nothing to do. *)
Example five_items_flush_on_timer :
  started (run (map Enqueue (sites 5)) initial) = [] /\
  started (run (map Enqueue (sites 5) ++ [TimerFires]) initial) = [sites 5] /\
  started (run (map Enqueue (sites 5) ++ repeat TimerFires 5) initial) = [sites 5].
Proof. split; [|split]; vm_compute; reflexivity. Qed.

End LLMFacts.

(** ** The per-site pipeline *)

Module SiteFacts.

Import JS Types Site.

Section Pipeline.
Context {U : Type} {api : Fetch.URLApi U}.
Variable c : Collaborators.

Lemma afterDownload_effects result x :
  In x (snd (afterDownload c result)) ->
  x = HeadlessDownload (effectiveUrl result) /\ initialIsSpa (size result) = true.
Proof.
  unfold afterDownload. destruct (initialIsSpa (size result)).
  - destruct (headlessDownload c (effectiveUrl result)); simpl;
      intros [<-|[]]; now split.
  - intros [].
Qed.

Lemma afterDownload_spa result :
  initialIsSpa (size result) = true ->
  snd (afterDownload c result) = [HeadlessDownload (effectiveUrl result)].
Proof.
  intros H. unfold afterDownload. rewrite H.
  now destruct (headlessDownload c (effectiveUrl result)).
Qed.

Lemma contactStage_effects st x :
  In x (snd (contactStage c st)) -> exists l b, x = ContactPages l b.
Proof.
  unfold contactStage. destruct (downloadMethod st); try (intros []).
  destruct (Nat.ltb 0 (length (slinks st))); [|intros []].
  destruct (Nat.ltb 0 _); [|intros []].
  intros [<-|[]]. eauto.
Qed.

Lemma extractionStage_effects originalUrl st finalContent x :
  In x (snd (extractionStage c originalUrl st finalContent)) ->
  (exists t, x = WriteText t) \/ (exists d, x = WriteJson d) \/
  (exists a b, x = LLMCall a b /\ downloadSuccess st = true).
Proof.
  unfold extractionStage. destruct (downloadSuccess st); simpl.
  - destruct (writeText c finalContent); simpl.
    + intros [<-|[]]; eauto.
    + destruct (processWithLLM c finalContent originalUrl) as [[d|e]|]; simpl.
      * destruct (writeJson c d); simpl;
          intros [<-|[<-|[<-|[]]]]; eauto 6.
      * intros [<-|[<-|[]]]; eauto 6.
      * intros [<-|[<-|[]]]; eauto 6.
  - destruct (writeJson c emptyExtractedData); simpl; intros [<-|[]]; eauto.
Qed.

Lemma contactStage_downloadFailed siteUrl :
  contactStage c (downloadFailed siteUrl) = (EmptyString, []).
Proof. reflexivity. Qed.

(** [processSite] once the outcome of the chain is known. *)
Lemma processSite_unfold originalUrl :
  processSite c originalUrl =
    let siteUrl := ensureUrlScheme originalUrl in
    let run := Strategies.execute (Strategies.downloadChain (chainWorld c)) siteUrl in
    let chainEffects :=
      map (fun a : Strategies.Attempt => ChainAttempt (Strategies.name (fst a)))
          (snd run) in
    let stage1 :=
      match fst run with
      | inl (result, _) => afterDownload c result
      | inr _ => (downloadFailed siteUrl, [])
      end in
    let stage2 := contactStage c (fst stage1) in
    let stage4 :=
      extractionStage c originalUrl (fst stage1)
                      (mainContent (fst stage1) +:+ fst stage2) in
    (fst stage4, chainEffects ++ snd stage1 ++ snd stage2 ++ snd stage4).
Proof.
  unfold processSite. cbv zeta.
  destruct (Strategies.execute _ _) as [outcome attempts]. cbn [fst snd].
  destruct (match outcome with inl (result, _) => _ | inr _ => _ end) as [st e1].
  cbn [fst snd]. destruct (contactStage c st) as [cc e2]. cbn [fst snd].
  now destruct (extractionStage c originalUrl st _) as [r e4].
Qed.

End Pipeline.

(** C4.  The SPA decision is [mainSize < 1500], strictly: 1200 bytes count as
    a script-driven page and 1500 do not.  After a successful acquisition
    the headless browser is asked for the effective URL exactly when the
    size of the acquired result is below 1500; after a failed acquisition it
    is not asked at all. *)
Theorem spa_detection_threshold :
  (forall mainSize, initialIsSpa mainSize = true <-> (mainSize < 1500)%Z) /\
  initialIsSpa 1200 = true /\
  initialIsSpa 1500 = false /\
  forall (U : Type) (api : Fetch.URLApi U) (c : Collaborators) (originalUrl : string),
    match fst (Strategies.execute (Strategies.downloadChain (chainWorld c))
                                  (ensureUrlScheme originalUrl)) with
    | inl (result, _) =>
        (In (HeadlessDownload (effectiveUrl result)) (snd (processSite c originalUrl))
         <-> (size result < 1500)%Z) /\
        (forall url, In (HeadlessDownload url) (snd (processSite c originalUrl)) ->
                     url = effectiveUrl result)
    | inr _ =>
        forall url, ~ In (HeadlessDownload url) (snd (processSite c originalUrl))
    end.
Proof.
  assert (Hspa : forall n, initialIsSpa n = true <-> (n < 1500)%Z)
    by (intros n; apply Z.ltb_lt).
  split; [exact Hspa|]. split; [reflexivity|]. split; [reflexivity|].
  intros U api c originalUrl. rewrite processSite_unfold. cbv zeta. cbn [snd].
  assert (Hother : forall url st1 st fc,
    In (HeadlessDownload url)
       (map (fun a : Strategies.Attempt => ChainAttempt (Strategies.name (fst a)))
            (snd (Strategies.execute (Strategies.downloadChain (chainWorld c))
                                     (ensureUrlScheme originalUrl)))
        ++ st1 ++ snd (contactStage c st) ++ snd (extractionStage c originalUrl st fc))
    -> In (HeadlessDownload url) st1).
  { intros url st1 st fc H. apply in_app_or in H as [H|H].
    - apply in_map_iff in H as (a & Ha & _). discriminate.
    - apply in_app_or in H as [H|H]; [exact H|].
      apply in_app_or in H as [H|H].
      + apply contactStage_effects in H as (l & b & H). discriminate.
      + apply extractionStage_effects in H
          as [[t H]|[[d H]|(a & b & H & _)]]; discriminate. }
  destruct (fst (Strategies.execute _ _)) as [[result status]|e].
  - split; [split|].
    + intros H. apply Hother, afterDownload_effects in H as [_ H]. now apply Hspa.
    + intros H. apply Hspa in H. apply in_or_app. right. apply in_or_app. left.
      rewrite (afterDownload_spa c result H). now left.
    + intros url H. apply Hother, afterDownload_effects in H as [H _].
      now injection H.
  - intros url H. apply Hother in H. destruct H.
Qed.

(** C3 (as the code has it).  When every strategy of the chain fails,
    [processSite] never calls the extraction step and always returns: with an
    empty [ExtractedData] and the download classification when the empty
    result file is written, with the unexpected classification and no
    [ExtractedData] when that write fails. *)
Theorem download_failure_skips_extraction :
  forall (U : Type) (api : Fetch.URLApi U) (c : Collaborators)
         (originalUrl : string) (e : Error),
    fst (Strategies.execute (Strategies.downloadChain (chainWorld c))
                            (ensureUrlScheme originalUrl)) = inr e ->
    (forall finalContent siteName,
        ~ In (LLMCall finalContent siteName) (snd (processSite c originalUrl))) /\
    (writeJson c emptyExtractedData = None ->
     fst (processSite c originalUrl)
       = Some {| rsuccess := true; extractedData := Some emptyExtractedData;
                 rerror := None; errorType := Some DOWNLOAD |}) /\
    (forall e', writeJson c emptyExtractedData = Some e' ->
     fst (processSite c originalUrl) = Some (unexpected e')).
Proof.
  intros U api c originalUrl e He. rewrite processSite_unfold. cbv zeta.
  rewrite He. cbn [fst snd]. rewrite contactStage_downloadFailed. cbn [fst snd].
  split; [|split].
  - intros fc name H. apply in_app_or in H as [H|H].
    + apply in_map_iff in H as (a & Ha & _). discriminate.
    + cbn [app] in H. apply extractionStage_effects in H
        as [[t H]|[[d H]|(a & b & _ & H)]]; discriminate.
  - intros Hw. unfold extractionStage. cbn. now rewrite Hw.
  - intros e' Hw. unfold extractionStage. cbn. now rewrite Hw.
Qed.

#[local] Existing Instance Fetch.simpleURL.

Lemma download_failure_skips_extraction_witness :
  fst (Strategies.execute (Strategies.downloadChain (chainWorld offline))
                          (ensureUrlScheme "example.com"))
    = inr (Err "External HTTPS download failed: getaddrinfo ENOTFOUND") /\
  writeJson offline emptyExtractedData = None /\
  fst (processSite offline "example.com")
    = Some {| rsuccess := true; extractedData := Some emptyExtractedData;
              rerror := None; errorType := Some DOWNLOAD |}.
Proof.
  split; [reflexivity|]. split; [reflexivity|].
  exact (proj1 (proj2 (download_failure_skips_extraction
                         _ _ offline "example.com" _ eq_refl)) eq_refl).
Defined.

(** Every strategy fails and the empty result cannot be written: the site is
    classified as unexpected and carries no [ExtractedData]. *)
Lemma download_failure_unexpected_when_write_fails :
  fst (Strategies.execute (Strategies.downloadChain (chainWorld offlineReadOnly))
                          (ensureUrlScheme "example.com"))
    = inr (Err "External HTTPS download failed: getaddrinfo ENOTFOUND") /\
  fst (processSite offlineReadOnly "example.com")
    = Some {| rsuccess := false; extractedData := None;
              rerror := Some (Err "EACCES: permission denied");
              errorType := Some UNEXPECTED |}.
Proof. split; reflexivity. Qed.

Example spa_1200_rendered :
  In (HeadlessDownload "https://example.com")
     (snd (processSite (serving 1200) "example.com")).
Proof. vm_compute. right. now left. Qed.

Example spa_1500_not_rendered :
  snd (processSite (serving 1500) "example.com")
    = [ChainAttempt "Local HTTPS"; WriteText (filler 1500);
       LLMCall (filler 1500) "example.com"; WriteJson emptyExtractedData].
Proof. vm_compute. reflexivity. Qed.

End SiteFacts.

(** ** Runs of the extraction batch queue *)

Module LLMRunsFacts.
Import JS JSFacts Types LLM LLMFacts LLMRuns.

Lemma processBatch_cases s :
  (processBatch s = s /\ (processing s = true \/ queue s = [])) \/
  (processing s = false /\ queue s <> [] /\
   processBatch s =
     {| queue := []; processing := true;
        pendingResolvers := pendingResolvers s; nextPromise := nextPromise s;
        settled := settled s; timers := timers s;
        inFlight := Some (queue s); started := started s ++ [queue s] |}).
Proof.
  unfold processBatch. destruct (processing s); simpl.
  - left. auto.
  - destruct (queue s) as [|x q]; simpl.
    + left. auto.
    + right. repeat split; auto.
Qed.

Lemma queueItem_cases input s :
  let s1 :=
    {| queue := queue s ++ [input]; processing := processing s;
       pendingResolvers := <[siteName input := nextPromise s]> (pendingResolvers s);
       nextPromise := S (nextPromise s); settled := settled s; timers := timers s;
       inFlight := inFlight s; started := started s |} in
  (batchSize <= length (queue s ++ [input]) /\
   snd (queueItem input s) = processBatch s1) \/
  (length (queue s ++ [input]) < batchSize /\ processing s = false /\
   snd (queueItem input s) =
     {| queue := queue s ++ [input]; processing := false;
        pendingResolvers := <[siteName input := nextPromise s]> (pendingResolvers s);
        nextPromise := S (nextPromise s); settled := settled s;
        timers := S (timers s);
        inFlight := inFlight s; started := started s |}) \/
  (length (queue s ++ [input]) < batchSize /\ processing s = true /\
   snd (queueItem input s) = s1).
Proof.
  intros s1. unfold queueItem. fold s1. cbv zeta.
  change (queue s1) with (queue s ++ [input]).
  destruct (Nat.leb_spec batchSize (length (queue s ++ [input]))) as [H|H].
  - left. auto.
  - right. change (processing s1) with (processing s).
    destruct (processing s) eqn:Hp; cbn [negb andb].
    + right. auto.
    + left. replace (Nat.ltb 0 (length (queue s ++ [input]))) with true.
      * subst s1. cbn. try rewrite Hp. auto.
      * symmetry. apply Nat.ltb_lt. rewrite length_app. simpl. lia.
Qed.

Lemma timerFires_cases s :
  timerFires s = s \/
  exists n, timers s = S n /\
    let s1 :=
      {| queue := queue s; processing := processing s;
         pendingResolvers := pendingResolvers s;
         nextPromise := nextPromise s; settled := settled s; timers := n;
         inFlight := inFlight s; started := started s |} in
    timerFires s = s1 \/ timerFires s = processBatch s1.
Proof.
  unfold timerFires. destruct (timers s) as [|n]; [now left|].
  right. exists n. split; [reflexivity|]. cbv zeta.
  destruct (_ && _); [now right | now left].
Qed.

Lemma processBatchSettles_cases outcome s :
  (inFlight s = None /\ processBatchSettles outcome s = s) \/
  exists batch, inFlight s = Some batch /\
    let st := afterLoops outcome batch (pendingResolvers s, settled s) in
    let s1 :=
      {| queue := queue s; processing := false;
         pendingResolvers := st.1; nextPromise := nextPromise s;
         settled := st.2; timers := timers s;
         inFlight := None; started := started s |} in
    (length (queue s) < batchSize /\ processBatchSettles outcome s = s1) \/
    (batchSize <= length (queue s) /\ processBatchSettles outcome s = processBatch s1).
Proof.
  unfold processBatchSettles. destruct (inFlight s) as [batch|]; [|now left].
  right. exists batch. split; [reflexivity|]. cbv zeta. cbn [queue].
  destruct (Nat.leb_spec batchSize (length (queue s))); [now right | now left].
Qed.

Lemma consistent_linked s : consistent s -> linked s.
Proof. intros (H1 & _ & H3 & H4). split; [exact H1|]. split; assumption. Qed.

Lemma linked_short s :
  linked s -> (processing s = false -> length (queue s) < batchSize) -> consistent s.
Proof.
  intros (H1 & H3 & H4) H2. split; [exact H1|]. split; [exact H2|]. split; assumption.
Qed.

Lemma processBatch_consistent s : linked s -> consistent (processBatch s).
Proof.
  intros Hl. pose proof Hl as (H1 & H3 & H4).
  destruct (processBatch_cases s) as [[-> [Hp|Hq]]|(Hp & Hq & ->)].
  - apply linked_short; [exact Hl | congruence].
  - apply linked_short; [exact Hl | intros _; rewrite Hq; unfold batchSize; simpl; lia].
  - repeat split; cbn; try congruence.
    + apply Forall_app. split; [exact H3 | now constructor].
    + intros batch [= <-]. apply last_snoc.
Qed.


Lemma step_consistent s e : consistent s -> consistent (step s e).
Proof.
  intros Hc. pose proof (consistent_linked s Hc) as Hl.
  pose proof Hl as (H1 & H3 & H4).
  destruct e as [input| | |outcome]; cbn [step].
  - destruct (queueItem_cases input s) as [[_ ->]|[(Hlt & Hp & ->)|(Hlt & Hp & ->)]].
    + apply processBatch_consistent. exact Hl.
    + apply linked_short; [|intros _; exact Hlt].
      rewrite Hp in H1. split; [exact H1|]. split; [exact H3 | exact H4].
    + apply linked_short; [exact Hl | cbn; congruence].
  - destruct (timerFires_cases s) as [->|(n & _ & [->| ->])].
    + exact Hc.
    + destruct Hc as (_ & H2 & _). now apply linked_short.
    + now apply processBatch_consistent.
  - unfold processRemainingItems. destruct (_ && _); cbn [snd]; [|exact Hc].
    now apply processBatch_consistent.
  - destruct (processBatchSettles_cases outcome s)
      as [[_ ->]|(batch & Hb & [[Hlt ->]|[Hge ->]])]; [exact Hc| |].
    + repeat split; cbn; try congruence; tauto.
    + apply processBatch_consistent. repeat split; cbn; try congruence; tauto.
Qed.

Lemma initial_consistent : consistent initial.
Proof.
  unfold consistent, initial, batchSize. cbn.
  split; [split; [discriminate | congruence]|].
  split; [intros _; lia|]. split; [constructor | discriminate].
Qed.

Lemma run_app events1 events2 s :
  run (events1 ++ events2) s = run events2 (run events1 s).
Proof. apply fold_left_app. Qed.

Lemma run_consistent events s : consistent s -> consistent (run events s).
Proof.
  revert s. induction events as [|e events IH]; intros s H; simpl; [exact H|].
  now apply IH, step_consistent.
Qed.





(** X2.  In every state the program reaches, a flush is in flight exactly
    when [processing] is set; while none is, fewer than [batchSize] requests
    are waiting; no batch handed to the outbound call is empty, and the batch
    in flight is the one started last. *)
Theorem queue_stays_consistent :
  forall events : list Event,
    let s := run events initial in
    (processing s = true <-> inFlight s <> None) /\
    (processing s = false -> length (queue s) < batchSize) /\
    Forall (fun batch => batch <> []) (started s) /\
    (forall batch, inFlight s = Some batch -> last (started s) = Some batch).
Proof. intros events. apply (run_consistent events initial initial_consistent). Qed.

Lemma settleEach_settledOnce steps (m : gmap string nat) log next :
  injective m -> (forall k p, m !! k = Some p -> p < next) ->
  settledOnce m log next ->
  settledOnce (settleEach steps (m, log)).1 (settleEach steps (m, log)).2 next.
Proof.
  revert m log. induction steps as [|[k o] steps IH]; intros m log Hinj Hlt Hs;
    [exact Hs|].
  rewrite settleEach_cons. unfold settleSite. cbn [fst snd].
  destruct (m !! k) as [p|] eqn:E; [|now apply IH].
  destruct Hs as [Hnd Hin]. apply IH.
  - intros k1 k2 q H1 H2. apply lookup_delete_Some in H1 as [_ H1].
    apply lookup_delete_Some in H2 as [_ H2]. now apply (Hinj k1 k2 q).
  - intros k' q H. apply lookup_delete_Some in H as [_ H]. now apply (Hlt k').
  - split.
    + rewrite map_app. simpl. apply NoDup_app. split; [exact Hnd|].
      split; [|apply NoDup_singleton].
      intros q Hq Hq'. apply list_elem_of_In in Hq. apply list_elem_of_In in Hq'.
      destruct Hq' as [<-|[]]. destruct (Hin _ Hq) as [_ Hno]. now apply (Hno k).
    + intros q Hq. rewrite map_app in Hq. apply in_app_or in Hq as [Hq|[<-|[]]].
      * destruct (Hin _ Hq) as [Hq1 Hq2]. split; [exact Hq1|].
        intros k' H. apply lookup_delete_Some in H as [_ H]. now apply (Hq2 k').
      * split; [now apply (Hlt k)|].
        intros k' H. apply lookup_delete_Some in H as [Hne H].
        apply Hne. now apply (Hinj k k' p).
Qed.

Lemma step_settledOnce s e :
  wellFormed s ->
  settledOnce (pendingResolvers s) (settled s) (nextPromise s) ->
  settledOnce (pendingResolvers (step s e)) (settled (step s e)) (nextPromise (step s e)).
Proof.
  intros [Hinj Hlt] [Hnd Hin]. destruct e as [input| | |outcome]; cbn [step].
  - destruct (queueItem_fields input s) as (-> & -> & ->). split; [exact Hnd|].
    intros p Hp. destruct (Hin p Hp) as [H1 H2]. split; [lia|].
    intros k H. apply lookup_insert_Some in H as [[_ H]|[_ H]]; [lia|].
    now apply (H2 k).
  - now destruct (timerFires_fields s) as (-> & -> & ->).
  - now destruct (processRemainingItems_fields s) as (-> & -> & ->).
  - destruct (processBatchSettles_fields outcome s)
      as [(batch & _ & -> & -> & ->)|[_ ->]]; [|now split].
    now apply settleEach_settledOnce.
Qed.

Lemma run_settledOnce events s :
  wellFormed s ->
  settledOnce (pendingResolvers s) (settled s) (nextPromise s) ->
  settledOnce (pendingResolvers (run events s)) (settled (run events s))
              (nextPromise (run events s)).
Proof.
  revert s. induction events as [|e events IH]; intros s Hw Hs; [exact Hs|].
  change (run (e :: events) s) with (run events (step s e)).
  apply IH; [now apply step_wellFormed | now apply step_settledOnce].
Qed.

Lemma settlementsOf_absent p log : ~ In p (map fst log) -> settlementsOf p log = [].
Proof.
  unfold settlementsOf. induction log as [|[q o] log IH]; simpl; [reflexivity|].
  intros H. destruct (Nat.eqb_spec q p) as [->|Hne]; [tauto|]. apply IH. tauto.
Qed.

Lemma settlementsOf_NoDup p log :
  NoDup (map fst log) -> length (settlementsOf p log) <= 1.
Proof.
  induction log as [|[q o] log IH]; simpl; [unfold settlementsOf; simpl; lia|].
  intros Hnd. apply NoDup_cons in Hnd as [Hq Hnd].
  change ((q, o) :: log) with ([(q, o)] ++ log). rewrite settlementsOf_app.
  destruct (Nat.eq_dec q p) as [->|Hne].
  - rewrite settlementsOf_same, settlementsOf_absent; [simpl; lia|].
    intros H. apply Hq. now apply list_elem_of_In.
  - rewrite settlementsOf_other by exact Hne. now apply IH.
Qed.

(** X3.  No promise returned by [queueItem] is ever settled twice, whatever
    requests arrive, timers fire and calls return: the log of [resolve] and
    [reject] calls holds at most one entry for each promise. *)
Theorem promise_settled_at_most_once :
  forall (events : list Event) (p : nat),
    length (settlementsOf p (settled (run events initial))) <= 1.
Proof.
  intros events p. apply settlementsOf_NoDup.
  apply (run_settledOnce events initial initial_wellFormed).
  split; [constructor | intros q []].
Qed.

Lemma enqueue_during_flush input s :
  processing s = true -> length (queue s ++ [input]) < batchSize ->
  let s' := step s (Enqueue input) in
  queue s' = queue s ++ [input] /\ processing s' = true /\
  inFlight s' = inFlight s /\ timers s' = timers s /\ started s' = started s.
Proof.
  intros Hp Hlt. cbn [step].
  destruct (queueItem_cases input s) as [[Hge _]|[(_ & Hp' & _)|(_ & _ & ->)]];
    [lia | congruence | now cbn].
Qed.

Lemma enqueues_during_flush inputs s :
  processing s = true -> length (queue s ++ inputs) < batchSize ->
  let s' := run (map Enqueue inputs) s in
  queue s' = queue s ++ inputs /\ processing s' = true /\
  inFlight s' = inFlight s /\ timers s' = timers s /\ started s' = started s.
Proof.
  revert s. induction inputs as [|input inputs IH]; intros s Hp Hlt.
  - cbn. now rewrite app_nil_r.
  - rewrite length_app in Hlt. simpl in Hlt.
    destruct (enqueue_during_flush input s Hp) as (Hq & Hp1 & Hf & Ht & Hs).
    { rewrite length_app. simpl. lia. }
    change (run (map Enqueue (input :: inputs)) s)
      with (run (map Enqueue inputs) (step s (Enqueue input))).
    destruct (IH (step s (Enqueue input)) Hp1) as (Hq' & Hp' & Hf' & Ht' & Hs').
    { rewrite Hq, !length_app. simpl. lia. }
    cbv zeta. rewrite Hq', Hf', Ht', Hs', Hq, Hf, Ht, Hs, <- app_assoc. now split.
Qed.

(** X4.  Requests that arrive while a flush is in flight set no timer, and
    when the flush completes with fewer than [batchSize] of them waiting no
    new flush is started: they stay in the queue, and unless a timer set
    earlier is still pending nothing flushes them until [queueItem] or
    [processRemainingItems] is called again. *)
Theorem requests_during_flush_wait :
  forall (s : State) (batch inputs : list LLMInput) (outcome : ResultRecord + Thrown),
    inFlight s = Some batch -> processing s = true ->
    length (queue s ++ inputs) < batchSize ->
    let s' := run (map Enqueue inputs ++ [CallSettles outcome]) s in
    queue s' = queue s ++ inputs /\ processing s' = false /\ inFlight s' = None /\
    timers s' = timers s /\ started s' = started s /\
    (timers s = 0 -> step s' TimerFires = s').
Proof.
  intros s batch inputs outcome Hf Hp Hlt s'. subst s'. rewrite run_app.
  destruct (enqueues_during_flush inputs s Hp Hlt) as (Hq & Hp1 & Hf1 & Ht & Hs).
  set (s1 := run (map Enqueue inputs) s) in *.
  change (run [CallSettles outcome] s1) with (processBatchSettles outcome s1).
  destruct (processBatchSettles_cases outcome s1)
    as [[Hn _]|(b & Hb & [[_ ->]|[Hge _]])].
  - congruence.
  - cbn. repeat split; try assumption.
    intros H0. unfold timerFires. cbn. now rewrite Ht, H0.
  - rewrite Hq in Hge. lia.
Qed.

Lemma requests_during_flush_wait_witness :
  let s := run [Enqueue siteA; TimerFires] initial in
  let s' := run (map Enqueue [siteB] ++ [CallSettles (inr fetchFailed)]) s in
  inFlight s = Some [siteA] /\ timers s = 0 /\
  queue s' = [siteB] /\ processing s' = false /\ inFlight s' = None /\
  timers s' = 0 /\ step s' TimerFires = s'.
Proof.
  cbv zeta.
  assert (Hlt : length (queue (run [Enqueue siteA; TimerFires] initial) ++ [siteB])
                < batchSize) by (vm_compute; lia).
  destruct (requests_during_flush_wait
              (run [Enqueue siteA; TimerFires] initial) [siteA] [siteB]
              (inr fetchFailed) eq_refl eq_refl Hlt)
    as (H1 & H2 & H3 & H4 & _ & H6).
  split; [reflexivity|]. split; [reflexivity|]. split; [exact H1|].
  split; [exact H2|]. split; [exact H3|]. split; [exact H4|]. exact (H6 eq_refl).
Defined.









End LLMRunsFacts.

(** ** Escalation along the acquisition chain *)

Module ChainFacts.
Import JS JSFacts Types Strategies StrategiesFacts TextFacts.

Section Escalation.
Context {U : Type} {api : Fetch.URLApi U}.
Variable w : World.

Lemma fetch_attempts_failed_text label url :
  includes (toLowerCase ("All " +:+ label +:+ " fetch attempts failed for " +:+ url))
           "fetch attempts failed" = true.
Proof.
  apply includes_toLowerCase.
  exists ("All " +:+ label +:+ " ")%string, "fetch attempts failed"%string,
         (" for " +:+ url)%string.
  split; [|reflexivity]. now rewrite !append_assoc.
Qed.

Lemma fetchHtmlWith_error_text (retryable : GotError -> bool) label url e :
  fst (Fetch.fetchHtmlWith (got w) retryable label url) = inr e ->
  e = Err ("All " +:+ label +:+ " fetch attempts failed for " +:+ url).
Proof.
  unfold Fetch.fetchHtmlWith.
  destruct (got w url 1%nat) as [resp|err]; simpl; [discriminate|].
  destruct (if retryable err then _ else _) as [[resp|] reqs]; simpl; [discriminate|].
  now intros [= <-].
Qed.

Lemma localHttpsDownload_error url e :
  localHttpsDownload w url = inr e ->
  includesLower e "fetch attempts failed" = true.
Proof.
  unfold localHttpsDownload, Fetch.LocalHttpsStrategy.fetchHtml.
  destruct (fst _) as [resp|e'] eqn:E; [discriminate|]. intros [= <-].
  apply fetchHtmlWith_error_text in E as ->. apply fetch_attempts_failed_text.
Qed.

Lemma localHttpDownload_error url e :
  localHttpDownload w url = inr e ->
  includesLower e "fetch attempts failed" = true.
Proof.
  unfold localHttpDownload, Fetch.LocalHttpStrategy.fetchHtml.
  destruct (fst _) as [resp|e'] eqn:E; [discriminate|]. intros [= <-].
  apply fetchHtmlWith_error_text in E as ->. apply fetch_attempts_failed_text.
Qed.

Lemma externalDownload_error label url e :
  externalDownload w label url = inr e ->
  startsWith (message e) ("External " +:+ label +:+ " download failed: ") = true.
Proof.
  unfold externalDownload. intros H. apply startsWith_spec.
  destruct (got w _ 0%nat) as [resp|err].
  - destruct (Z.eqb _ 200); [discriminate|]. injection H as <-. cbn [message].
    eexists. rewrite !append_assoc. reflexivity.
  - injection H as <-. cbn [message]. eexists. rewrite !append_assoc. reflexivity.
Qed.

End Escalation.

(** X6.  In the chain the orchestrator builds the strategies escalate
    without gaps: the direct-secure strategy is always attempted first; after
    it fails the direct-insecure strategy is always attempted, and after that
    one fails the remote-proxy-secure strategy is always attempted.  So a run
    that succeeds made one, two or three attempts, and a run that fails made
    all three and fails with the error of the remote proxy, whose message
    starts with "External HTTPS download failed: ". *)
Theorem chain_escalates :
  forall (U : Type) (api : Fetch.URLApi U) (w : World) (url : string),
    let names := map (fun a : Attempt => name (fst a))
                     (snd (execute (downloadChain w) url)) in
    match fst (execute (downloadChain w) url) with
    | inl (result, status) =>
        (names = ["Local HTTPS"]%string /\ download (localHttps w) url = inl result) \/
        (names = ["Local HTTPS"; "Local HTTP"]%string /\
         download (localHttp w) url = inl result) \/
        (names = ["Local HTTPS"; "Local HTTP"; "External HTTPS"]%string /\
         download (externalHttps w) url = inl result)
    | inr e =>
        names = ["Local HTTPS"; "Local HTTP"; "External HTTPS"]%string /\
        startsWith (message e) "External HTTPS download failed: " = true
    end.
Proof.
  intros U api w url. unfold execute, downloadChain, addStrategy. cbn [app].
  cbn [executeFrom isApplicable localHttps LocalHttpsStrategy.isApplicable negb download].
  destruct (localHttpsDownload w url) as [r1|e1] eqn:E1; [now left|].
  cbn [isApplicable localHttp download].
  assert (H2 : LocalHttpStrategy.isApplicable url (Some e1) = true).
  { unfold LocalHttpStrategy.isApplicable.
    now rewrite (localHttpsDownload_error w url e1 E1). }
  rewrite H2. cbn [negb].
  destruct (localHttpDownload w url) as [r2|e2] eqn:E2; [right; now left|].
  cbn [executeFrom isApplicable externalHttps download].
  assert (H3 : ExternalHttpsStrategy.isApplicable url (Some e2) = true).
  { unfold ExternalHttpsStrategy.isApplicable.
    apply (localHttpDownload_error w url e2 E2). }
  rewrite H3. cbn [negb].
  destruct (externalDownload w "HTTPS" (toHttps url)) as [r3|e3] eqn:E3;
    [right; right; now split|].
  cbn. split; [reflexivity|].
  apply (externalDownload_error w "HTTPS" (toHttps url) e3 E3).
Qed.

End ChainFacts.

(** ** Results and effects of the per-site pipeline *)

Module SiteRunsFacts.
Import JS Types Site SiteFacts SiteRuns.

Section Stage4.
Context {U : Type} {api : Fetch.URLApi U}.
Variable c : Collaborators.

(** How [extractionStage] can end. *)
Lemma extractionStage_cases originalUrl st finalContent :
  let out := extractionStage c originalUrl st finalContent in
  (exists data, fst out = Some {| rsuccess := true; extractedData := Some data;
                                  rerror := None;
                                  errorType := if downloadSuccess st then None
                                               else Some DOWNLOAD |} /\
                last (snd out) = Some (WriteJson data) /\ writeJson c data = None /\
                (downloadSuccess st = false -> data = emptyExtractedData)) \/
  (exists e, fst out = Some {| rsuccess := false; extractedData := None;
                               rerror := Some e;
                               errorType := if downloadSuccess st then Some LLM
                                            else Some UNEXPECTED |}) \/
  (fst out = None /\ downloadSuccess st = true /\
   last (snd out) = Some (LLMCall finalContent originalUrl)).
Proof.
  unfold extractionStage. destruct (downloadSuccess st); cbn [negb].
  - destruct (writeText c finalContent) as [e|]; [right; left; now exists e|].
    destruct (processWithLLM c finalContent originalUrl) as [[data|e]|];
      [|right; left; now exists e | right; right; now cbn].
    destruct (writeJson c data) as [e|] eqn:Hw; [right; left; now exists e|].
    left. exists data. cbn. now rewrite Hw.
  - destruct (writeJson c emptyExtractedData) as [e|] eqn:Hw;
      [right; left; now exists e|].
    left. exists emptyExtractedData. cbn. now rewrite Hw.
Qed.

Lemma extractionStage_llm originalUrl st finalContent :
  let effects := snd (extractionStage c originalUrl st finalContent) in
  length (List.filter isLLMCall effects) <= 1 /\
  forall content name, In (LLMCall content name) effects ->
    content = finalContent /\ name = originalUrl /\ downloadSuccess st = true /\
    writeText c finalContent = None /\
    exists post, effects = WriteText content :: LLMCall content name :: post /\
                 List.filter isLLMCall post = [].
Proof.
  unfold extractionStage. destruct (downloadSuccess st); cbn [negb].
  - destruct (writeText c finalContent) as [e|] eqn:Ht.
    + cbn. split; [lia|]. intros content name [H|[]]. discriminate.
    + destruct (processWithLLM c finalContent originalUrl) as [[data|e]|].
      * destruct (writeJson c data) as [e|]; cbn; (split; [lia|]);
          intros content name [H|[H|[H|[]]]]; try discriminate;
          injection H as <- <-; repeat split; eauto.
      * cbn. split; [lia|]. intros content name [H|[H|[]]]; try discriminate.
        injection H as <- <-. repeat split; eauto.
      * cbn. split; [lia|]. intros content name [H|[H|[]]]; try discriminate.
        injection H as <- <-. repeat split; eauto.
  - destruct (writeJson c emptyExtractedData); cbn; (split; [lia|]);
      intros content name [H|[]]; discriminate.
Qed.

Lemma before_stage4_no_llm originalUrl :
  let siteUrl := ensureUrlScheme originalUrl in
  let run := Strategies.execute (Strategies.downloadChain (chainWorld c)) siteUrl in
  let stage1 :=
    match fst run with
    | inl (result, _) => afterDownload c result
    | inr _ => (downloadFailed siteUrl, [])
    end in
  List.filter isLLMCall
    (map (fun a : Strategies.Attempt => ChainAttempt (Strategies.name (fst a))) (snd run)
     ++ snd stage1 ++ snd (contactStage c (fst stage1))) = [].
Proof.
  cbv zeta. rewrite !List.filter_app.
  assert (H : forall l : list Effect,
             (forall x, In x l -> isLLMCall x = false) -> List.filter isLLMCall l = []).
  { induction l as [|x l IH]; intros Hl; [reflexivity|]. simpl.
    rewrite (Hl x) by now left. apply IH. intros y Hy. apply Hl. now right. }
  rewrite !H; [reflexivity| | |].
  - intros x Hx. apply contactStage_effects in Hx as (l & b & ->). reflexivity.
  - intros x Hx. destruct (fst (Strategies.execute _ _)) as [[result status]|e].
    + apply afterDownload_effects in Hx as [-> _]. reflexivity.
    + destruct Hx.
  - intros x Hx. apply in_map_iff in Hx as (a & <- & _). reflexivity.
Qed.

(** The forms a result of [processSite] takes. *)
Lemma processSite_shapes originalUrl :
  match fst (processSite c originalUrl) with
  | Some r =>
      (rsuccess r = true /\ (exists data, extractedData r = Some data) /\
       (errorType r = None \/ errorType r = Some DOWNLOAD)) \/
      (rsuccess r = false /\ extractedData r = None /\
       (errorType r = Some LLM \/ errorType r = Some UNEXPECTED))
  | None => True
  end.
Proof.
  rewrite processSite_unfold. cbv zeta. cbn [fst].
  match goal with
  | |- context [extractionStage c originalUrl ?st ?fc] =>
      destruct (extractionStage_cases originalUrl st fc)
        as [(data & -> & _)|[(e & ->)|(-> & _)]];
      [left|right|exact I]; cbn [rsuccess extractedData errorType];
      destruct (downloadSuccess st); eauto
  end.
Qed.

Lemma afterDownload_downloadSuccess result :
  downloadSuccess (fst (afterDownload c result)) = true.
Proof.
  unfold afterDownload. destruct (initialIsSpa (size result)); [|reflexivity].
  now destruct (headlessDownload c (effectiveUrl result)).
Qed.

(** How [extractionStage] ends, and on what answers of the collaborators. *)
Lemma extractionStage_outcomes originalUrl st finalContent :
  let out := extractionStage c originalUrl st finalContent in
  if downloadSuccess st then
    match fst out with
    | Some r =>
        (exists data,
            r = {| rsuccess := true; extractedData := Some data; rerror := None;
                   errorType := None |} /\
            processWithLLM c finalContent originalUrl = Some (inl data) /\
            writeJson c data = None /\
            snd out = [WriteText finalContent; LLMCall finalContent originalUrl;
                       WriteJson data]) \/
        (exists e,
            r = llmFailed e /\
            (writeText c finalContent = Some e \/
             processWithLLM c finalContent originalUrl = Some (inr e) \/
             exists data, processWithLLM c finalContent originalUrl = Some (inl data) /\
                          writeJson c data = Some e))
    | None =>
        processWithLLM c finalContent originalUrl = None /\
        snd out = [WriteText finalContent; LLMCall finalContent originalUrl]
    end
  else
    snd out = [WriteJson emptyExtractedData] /\
    match writeJson c emptyExtractedData with
    | None =>
        fst out = Some {| rsuccess := true; extractedData := Some emptyExtractedData;
                          rerror := None; errorType := Some DOWNLOAD |}
    | Some e => fst out = Some (unexpected e)
    end.
Proof.
  unfold extractionStage. destruct (downloadSuccess st); cbn [negb].
  - destruct (writeText c finalContent) as [e|] eqn:Ht.
    { cbn. right. exists e. auto. }
    destruct (processWithLLM c finalContent originalUrl) as [[data|e]|] eqn:Hp.
    + destruct (writeJson c data) as [e|] eqn:Hw; cbn.
      * right. exists e. split; [reflexivity|]. right. right. now exists data.
      * left. now exists data.
    + cbn. right. exists e. auto.
    + cbn. auto.
  - destruct (writeJson c emptyExtractedData) as [e|]; cbn; auto.
Qed.

End Stage4.

(** X7.  A result of [processSite] reports success exactly when it carries
    extracted data, and that data was written last, and successfully, to the
    result file of the site.  After a failed download the data is the empty
    result, the type is [DOWNLOAD], and the extraction was not called; after
    a successful download the data is what the extraction returned for the
    content saved just before, and there is no error type.  A result that
    reports failure carries no data and an error: after a failed download
    the error of writing the empty result, typed [UNEXPECTED]; after a
    successful download the error of saving the text, of the extraction or
    of writing its result, typed [LLM].  If [processSite] does not return,
    the download had succeeded and the last thing it did was to hand the
    content to the extraction, which never answered. *)
Theorem processSite_result_consistent :
  forall (U : Type) (api : Fetch.URLApi U) (c : Collaborators) (originalUrl : string),
    let chain := fst (Strategies.execute (Strategies.downloadChain (chainWorld c))
                                         (ensureUrlScheme originalUrl)) in
    let effects := snd (processSite c originalUrl) in
    match fst (processSite c originalUrl) with
    | Some r =>
        (rsuccess r = true /\ rerror r = None /\
         exists data,
           extractedData r = Some data /\
           last effects = Some (WriteJson data) /\
           writeJson c data = None /\
           ((errorType r = None /\
             (exists result status, chain = inl (result, status)) /\
             exists finalContent pre,
               processWithLLM c finalContent originalUrl = Some (inl data) /\
               effects = pre ++ [WriteText finalContent;
                                 LLMCall finalContent originalUrl; WriteJson data]) \/
            (errorType r = Some DOWNLOAD /\ (exists e, chain = inr e) /\
             data = emptyExtractedData /\ List.filter isLLMCall effects = []))) \/
        (rsuccess r = false /\ extractedData r = None /\
         exists e,
           rerror r = Some e /\
           ((errorType r = Some LLM /\
             (exists result status, chain = inl (result, status)) /\
             exists finalContent,
               writeText c finalContent = Some e \/
               processWithLLM c finalContent originalUrl = Some (inr e) \/
               exists data, processWithLLM c finalContent originalUrl = Some (inl data) /\
                            writeJson c data = Some e) \/
            (errorType r = Some UNEXPECTED /\ (exists e', chain = inr e') /\
             writeJson c emptyExtractedData = Some e)))
    | None =>
        (exists result status, chain = inl (result, status)) /\
        exists finalContent,
          processWithLLM c finalContent originalUrl = None /\
          last effects = Some (LLMCall finalContent originalUrl)
    end.
Proof.
  intros U api c originalUrl chain effects. subst chain effects.
  pose proof (before_stage4_no_llm c originalUrl) as Hpre. cbv zeta in Hpre.
  rewrite processSite_unfold. cbv zeta. cbn [fst snd].
  destruct (fst (Strategies.execute _ _)) as [[result status]|e0] eqn:Hchain.
  - match goal with
    | |- context [extractionStage c originalUrl ?st ?fc] =>
        pose proof (extractionStage_outcomes c originalUrl st fc) as Hout;
        cbv zeta in Hout; rewrite afterDownload_downloadSuccess in Hout;
        destruct (extractionStage c originalUrl st fc) as [r4 e4] eqn:E4
    end.
    cbn [fst snd] in *. destruct r4 as [r|].
    + destruct Hout as [(data & -> & Hp & Hw & ->)|(e & -> & He)].
      * left. cbn [rsuccess rerror extractedData errorType].
        split; [reflexivity|]. split; [reflexivity|]. exists data.
        split; [reflexivity|]. split; [now rewrite !last_app|]. split; [exact Hw|].
        left. split; [reflexivity|]. split; [eauto|].
        eexists _, _. split; [exact Hp|]. rewrite !app_assoc. reflexivity.
      * right. cbn [rsuccess rerror extractedData errorType llmFailed].
        split; [reflexivity|]. split; [reflexivity|]. exists e.
        split; [reflexivity|]. left. split; [reflexivity|]. split; [eauto|].
        eexists. exact He.
    + destruct Hout as [Hp ->]. split; [eauto|]. eexists. split; [exact Hp|].
      now rewrite !last_app.
  - pose proof (extractionStage_outcomes c originalUrl
                  (downloadFailed (ensureUrlScheme originalUrl))
                  (mainContent (downloadFailed (ensureUrlScheme originalUrl)) +:+
                   fst (contactStage c (downloadFailed (ensureUrlScheme originalUrl)))))
      as Hout.
    cbv zeta in Hout. cbn [downloadSuccess downloadFailed] in Hout.
    destruct Hout as [Heff Hres]. cbn [fst snd downloadFailed] in *.
    rewrite Heff. destruct (writeJson c emptyExtractedData) as [e|] eqn:Hw; rewrite Hres.
    + right. cbn [rsuccess rerror extractedData errorType unexpected].
      split; [reflexivity|]. split; [reflexivity|]. exists e.
      split; [reflexivity|]. right. split; [reflexivity|]. split; [eauto|]. reflexivity.
    + left. cbn [rsuccess rerror extractedData errorType].
      split; [reflexivity|]. split; [reflexivity|]. exists emptyExtractedData.
      split; [reflexivity|]. split; [now rewrite !last_app|]. split; [exact Hw|].
      right. split; [reflexivity|]. split; [eauto|]. split; [reflexivity|].
      cbn [fst snd] in Hpre.
      rewrite !app_assoc, List.filter_app. rewrite <- !app_assoc. rewrite Hpre.
      reflexivity.
Qed.

(** X8.  [processSite] hands a site to the extraction at most once, under
    the URL it was given, and only after a successful download and after the
    very content it sends has been saved to the site's text file. *)
Theorem extraction_called_once_after_text_saved :
  forall (U : Type) (api : Fetch.URLApi U) (c : Collaborators) (originalUrl : string),
    length (List.filter isLLMCall (snd (processSite c originalUrl))) <= 1 /\
    forall content name,
      In (LLMCall content name) (snd (processSite c originalUrl)) ->
      name = originalUrl /\ writeText c content = None /\
      (exists result status,
          fst (Strategies.execute (Strategies.downloadChain (chainWorld c))
                                  (ensureUrlScheme originalUrl)) = inl (result, status)) /\
      exists pre post,
        snd (processSite c originalUrl)
          = pre ++ WriteText content :: LLMCall content name :: post /\
        List.filter isLLMCall pre = [] /\ List.filter isLLMCall post = [].
Proof.
  intros U api c originalUrl. rewrite processSite_unfold. cbv zeta. cbn [fst snd].
  pose proof (before_stage4_no_llm c originalUrl) as Hpre. cbv zeta in Hpre.
  rewrite !app_assoc in *. rewrite <- !app_assoc in Hpre.
  match goal with
  | |- context [extractionStage c originalUrl ?st ?fc] =>
      destruct (extractionStage_llm c originalUrl st fc) as [Hle Hin];
      set (stage4 := extractionStage c originalUrl st fc) in *
  end.
  split.
  - rewrite List.filter_app, <- !app_assoc, Hpre. exact Hle.
  - intros content name H. apply in_app_or in H as [H|H].
    + exfalso. rewrite <- !app_assoc in H.
      assert (Hf : In (LLMCall content name) (List.filter isLLMCall
                (map (fun a : Strategies.Attempt => ChainAttempt (Strategies.name (fst a)))
                   (snd (Strategies.execute (Strategies.downloadChain (chainWorld c))
                                            (ensureUrlScheme originalUrl))) ++
                 snd (match fst (Strategies.execute (Strategies.downloadChain (chainWorld c))
                                            (ensureUrlScheme originalUrl)) with
                      | inl (result, _) => afterDownload c result
                      | inr _ => (downloadFailed (ensureUrlScheme originalUrl), [])
                      end) ++
                 snd (contactStage c (fst (match fst (Strategies.execute (Strategies.downloadChain (chainWorld c))
                                            (ensureUrlScheme originalUrl)) with
                      | inl (result, _) => afterDownload c result
                      | inr _ => (downloadFailed (ensureUrlScheme originalUrl), [])
                      end))))))
        by (apply filter_In; now split).
      rewrite Hpre in Hf. destruct Hf.
    + destruct (Hin content name H) as (Hc & Hn & Hs & Ht & post & Heq & Hpost).
      subst content name. split; [reflexivity|]. split; [exact Ht|]. split.
      * destruct (fst (Strategies.execute _ _)) as [[result status]|e]; [eauto|].
        cbn in Hs. discriminate.
      * eexists _, post. rewrite Heq. split; [reflexivity|]. split; [|exact Hpost].
        rewrite <- !app_assoc. exact Hpre.
Qed.

End SiteRunsFacts.

(** ** The input loader *)

Module InputLoaderFacts.

Import JS JSFacts Types InputLoader TextFacts.




Lemma splitLines_line line :
  noLineFeed line = true -> splitLines line = [line].
Proof.
  induction line as [|c line IH]; [reflexivity|]. simpl. intros H.
  apply andb_true_iff in H as [Hc Hl]. apply negb_true_iff in Hc.
  now rewrite Hc, (IH Hl).
Qed.

Lemma splitLines_append line rest :
  noLineFeed line = true ->
  splitLines (line +:+ String LF rest) = line :: splitLines rest.
Proof.
  induction line as [|c line IH]; [reflexivity|]. intros H. simpl in H.
  apply andb_true_iff in H as [Hc Hl]. apply negb_true_iff in Hc.
  change (String c line +:+ String LF rest)%string
    with (String c (line +:+ String LF rest)).
  simpl. now rewrite Hc, (IH Hl).
Qed.

Lemma splitLines_joinLines lines :
  lines <> [] -> Forall (fun line => noLineFeed line = true) lines ->
  splitLines (joinLines lines) = lines.
Proof.
  induction lines as [|line lines IH]; [congruence|]. intros _ H.
  apply Forall_cons in H as [H1 H2]. destruct lines as [|l2 lines].
  - simpl. now apply splitLines_line.
  - change (joinLines (line :: l2 :: lines))
      with (line +:+ String LF (joinLines (l2 :: lines)))%string.
    rewrite splitLines_append by exact H1. f_equal. now apply IH.
Qed.

Lemma cleanLine_spec line :
  cleanLine line = true <->
  notWhite (firstChar line) = true /\ notWhite (lastChar line) = true /\
  noLineFeed line = true.
Proof. unfold cleanLine. rewrite !andb_true_iff. tauto. Qed.


(** X10.  Writing a list of sites one per line and reading the file back
    gives the same list, provided each site is a clean line (not empty, no
    white space at either end, no line feed inside); a final line feed at the
    end of the file makes no difference. *)
Theorem readInputCsv_joinLines :
  forall (sites : list string) (readFile : string -> option string)
         (filePath : string),
    Forall (fun site => cleanLine site = true) sites ->
    (readFile filePath = Some (joinLines sites) \/
     readFile filePath = Some (joinLines sites +:+ String LF "")) ->
    readInputCsv readFile filePath = inl sites.
Proof.
  intros sites readFile filePath Hclean.
  assert (Hkeep : List.filter (fun line => Nat.ltb 0 (String.length line))
                              (map trim sites) = sites).
  { induction Hclean as [|site sites Hs _ IH]; [reflexivity|].
    apply cleanLine_spec in Hs as (H1 & H2 & _). simpl.
    rewrite (trim_fixed site H1 H2), IH.
    destruct site; [simpl in H1; discriminate H1 | reflexivity]. }
  assert (Hnl : Forall (fun line => noLineFeed line = true) sites).
  { eapply Forall_impl; [exact Hclean|]. intros s Hs.
    now apply cleanLine_spec in Hs as (_ & _ & H). }
  intros Hfile. unfold readInputCsv. destruct Hfile as [-> | ->]; f_equal.
  - destruct sites as [|s sites]; [reflexivity|].
    now rewrite splitLines_joinLines.
  - destruct sites as [|s sites]; [reflexivity|].
    assert (Hs : splitLines (joinLines (s :: sites) +:+ String LF "")
                 = (s :: sites) ++ [EmptyString]).
    { clear Hkeep Hclean. revert s Hnl. induction sites as [|s2 sites IH]; intros s Hnl.
      - simpl joinLines. apply Forall_cons in Hnl as [H _].
        now rewrite splitLines_append.
      - apply Forall_cons in Hnl as [H1 H2].
        change (joinLines (s :: s2 :: sites))
          with (s +:+ String LF (joinLines (s2 :: sites)))%string.
        rewrite append_assoc.
        change (String LF (joinLines (s2 :: sites)) +:+ String LF "")%string
          with (String LF (joinLines (s2 :: sites) +:+ String LF "")).
        rewrite splitLines_append by exact H1. rewrite (IH s2 H2). reflexivity. }
    rewrite Hs, map_app, List.filter_app, Hkeep. cbn [map List.filter].
    change (Nat.ltb 0 (String.length (trim ""))) with false. cbn iota.
    apply (app_nil_r (s :: sites)).
Qed.

Lemma readInputCsv_joinLines_witness :
  readInputCsv (fun _ => Some (joinLines ["https://example.com"; "example.org"]%string))
               "input.csv"
  = inl ["https://example.com"; "example.org"]%string.
Proof.
  apply (readInputCsv_joinLines ["https://example.com"; "example.org"]%string).
  - repeat constructor.
  - left. reflexivity.
Defined.

End InputLoaderFacts.

(** ** The contact page pass *)

Module ContactPagesFacts.

Import JS Types ContactPages TextFacts.

Lemma set_add_absent x s :
  existsb (String.eqb x) s = false -> Fetch.set_add x s = s ++ [x].
Proof. unfold Fetch.set_add. now intros ->. Qed.

Lemma existsb_eqb_In x s : existsb (String.eqb x) s = true <-> In x s.
Proof.
  rewrite existsb_exists. split.
  - intros (y & Hy & Heq). apply String.eqb_eq in Heq. now subst.
  - intros H. exists x. split; [exact H | apply String.eqb_refl].
Qed.

Lemma concatSections_app a b :
  concatSections (a ++ b) = (concatSections a +:+ concatSections b)%string.
Proof.
  unfold concatSections. induction a as [|x a IH]; [reflexivity|].
  simpl. now rewrite IH, append_assoc.
Qed.

Lemma filter_split_length (ok : string -> bool) l :
  length (List.filter ok l) + length (List.filter (fun x => negb (ok x)) l) = length l.
Proof.
  induction l as [|x l IH]; simpl; [reflexivity|].
  destruct (ok x); simpl; lia.
Qed.

Lemma firstOccurrences_In x l : In x (firstOccurrences l) <-> In x l.
Proof.
  induction l as [|y l IH]; simpl; [tauto|].
  rewrite List.filter_In, IH. split.
  - intros [H|[H _]]; auto.
  - intros [H|H]; [now left|].
    destruct (String.eqb_spec x y) as [->|Hne]; [now left|].
    right. split; [exact H|]. reflexivity.
Qed.

Lemma firstOccurrences_snoc l x :
  firstOccurrences (l ++ [x])
  = if existsb (String.eqb x) l then firstOccurrences l else firstOccurrences l ++ [x].
Proof.
  induction l as [|y l IH]; simpl; [reflexivity|].
  rewrite IH. destruct (String.eqb_spec x y) as [->|Hne]; simpl.
  - destruct (existsb (String.eqb y) l); [reflexivity|].
    rewrite List.filter_app. simpl. rewrite String.eqb_refl. simpl.
    now rewrite app_nil_r.
  - destruct (existsb (String.eqb x) l); [reflexivity|].
    rewrite List.filter_app. simpl.
    destruct (String.eqb_spec x y); [contradiction|]. reflexivity.
Qed.

Lemma NoDup_List_filter (ok : string -> bool) l :
  NoDup l -> NoDup (List.filter ok l).
Proof.
  induction 1 as [|x l Hx Hnd IH]; simpl; [constructor|].
  destruct (ok x); [|exact IH]. constructor; [|exact IH].
  rewrite list_elem_of_In. intros H. apply List.filter_In in H as [H _].
  apply Hx. now apply list_elem_of_In.
Qed.

Lemma firstOccurrences_NoDup l : NoDup (firstOccurrences l).
Proof.
  induction l as [|x l IH]; simpl; [constructor|].
  apply NoDup_cons. split.
  - intros H. apply list_elem_of_In, List.filter_In in H as [_ H].
    now rewrite String.eqb_refl in H.
  - now apply NoDup_List_filter.
Qed.

Lemma firstOccurrences_length l : length (firstOccurrences l) <= length l.
Proof.
  induction l as [|x l IH]; simpl; [lia|].
  pose proof (List.filter_length_le (fun y => negb (String.eqb y x)) (firstOccurrences l)).
  lia.
Qed.

Lemma firstOccurrences_fixed l : NoDup l -> firstOccurrences l = l.
Proof.
  induction 1 as [|x l Hx Hnd IH]; simpl; [reflexivity|]. rewrite IH. f_equal.
  clear IH Hnd. induction l as [|y l IH]; simpl; [reflexivity|].
  destruct (String.eqb_spec y x) as [->|Hne]; simpl.
  - exfalso. apply Hx. now left.
  - f_equal. apply IH. intros H. apply Hx. now right.
Qed.

Lemma filter_sublist (ok : string -> bool) l : sublist (List.filter ok l) l.
Proof.
  induction l as [|x l IH]; simpl; [constructor|].
  destruct (ok x); [now apply sublist_skip | now apply sublist_cons].
Qed.

Lemma firstOccurrences_sublist l : sublist (firstOccurrences l) l.
Proof.
  induction l as [|x l IH]; simpl; [constructor|].
  apply sublist_skip. etransitivity; [|exact IH]. apply filter_sublist.
Qed.

Section Loop.
Variable fetch : string -> string + Error.

Lemma visitLinks_app a b st :
  visitLinks fetch (a ++ b) st = visitLinks fetch b (visitLinks fetch a st).
Proof.
  revert st. induction a as [|x a IH]; intros st; simpl; [reflexivity|].
  destruct (existsb _ _); [apply IH|]. destruct (fetch x); apply IH.
Qed.

Lemma flat_map_agree {A B} (f g : A -> list B) l :
  (forall a, In a l -> f a = g a) -> flat_map f l = flat_map g l.
Proof.
  induction l as [|a l IH]; intros H; simpl; [reflexivity|].
  rewrite (H a) by now left. f_equal. apply IH. intros b Hb. apply H. now right.
Qed.

Lemma requestedOccurrences_snoc l x :
  requestedOccurrences fetch (l ++ [x])
  = requestedOccurrences fetch l
    ++ (if fetched fetch x && existsb (String.eqb x) l then [] else [x]).
Proof.
  unfold requestedOccurrences. rewrite length_app. simpl length.
  rewrite Nat.add_1_r, seq_S, flat_map_app. simpl. f_equal.
  - apply flat_map_agree. intros i Hi. apply in_seq in Hi.
    rewrite nth_error_app1 by lia. rewrite firstn_app.
    replace (i - length l) with 0 by lia. simpl. now rewrite app_nil_r.
  - rewrite nth_error_app2 by lia. rewrite Nat.sub_diag. simpl.
    rewrite firstn_app, Nat.sub_diag, firstn_all. simpl. now rewrite !app_nil_r.
Qed.

(** What a pass over the links gathers, from the start. *)
Lemma visitLinks_exact contactLinks :
  let st := visitLinks fetch contactLinks startPass in
  processedLinks st = firstOccurrences (List.filter (fetched fetch) contactLinks) /\
  accContent st = concatSections (map (sectionOf fetch) (processedLinks st)) /\
  successes st = length (processedLinks st) /\
  failures st = length (List.filter (fun l => negb (fetched fetch l)) contactLinks) /\
  requested st = requestedOccurrences fetch contactLinks.
Proof.
  induction contactLinks as [|x pre IH] using rev_ind; [now cbn|].
  cbv zeta in *. rewrite visitLinks_app.
  destruct IH as (H1 & H2 & H3 & H4 & H5).
  set (st := visitLinks fetch pre startPass) in *.
  rewrite !List.filter_app, requestedOccurrences_snoc. cbn [List.filter].
  assert (Hseen : existsb (String.eqb x) (processedLinks st)
                  = fetched fetch x && existsb (String.eqb x) pre).
  { apply eq_true_iff_eq. rewrite andb_true_iff, !existsb_eqb_In, H1.
    rewrite firstOccurrences_In, List.filter_In. tauto. }
  cbn [visitLinks]. rewrite Hseen.
  destruct (fetch x) as [markdown|e] eqn:Ef.
  - assert (Hf : fetched fetch x = true) by (unfold fetched; now rewrite Ef).
    rewrite Hf in *. cbn [andb negb]. rewrite firstOccurrences_snoc.
    destruct (existsb (String.eqb x) pre) eqn:Epre.
    + assert (Hin : existsb (String.eqb x) (List.filter (fetched fetch) pre) = true).
      { apply existsb_eqb_In, List.filter_In. split; [|exact Hf].
        now apply existsb_eqb_In. }
      rewrite Hin, !app_nil_r. now repeat split.
    + assert (Hin : existsb (String.eqb x) (List.filter (fetched fetch) pre) = false).
      { destruct (existsb _ (List.filter _ _)) eqn:E; [|reflexivity].
        apply existsb_eqb_In, List.filter_In in E as [E _].
        apply existsb_eqb_In in E. congruence. }
      rewrite Hin, app_nil_r.
      cbn [processedLinks accContent successes failures requested].
      assert (Hp : Fetch.set_add x (processedLinks st) = processedLinks st ++ [x]).
      { apply set_add_absent. now rewrite Hseen. }
      rewrite Hp, <- H1. split; [reflexivity|]. split.
      * rewrite map_app, concatSections_app, <- H2. cbn [map].
        unfold sectionOf, concatSections. rewrite Ef.
        cbn [fold_right]. now rewrite append_nil_r.
      * rewrite length_app, H3, H4, H5. simpl. repeat split; lia.
  - assert (Hf : fetched fetch x = false) by (unfold fetched; now rewrite Ef).
    rewrite Hf in *. cbn [andb negb]. rewrite !app_nil_r.
    cbn [processedLinks accContent successes failures requested].
    rewrite length_app, H4, H5. simpl. repeat split; try assumption; lia.
Qed.

Lemma requestedOccurrences_length contactLinks :
  length (requestedOccurrences fetch contactLinks)
  = length (firstOccurrences (List.filter (fetched fetch) contactLinks))
    + length (List.filter (fun l => negb (fetched fetch l)) contactLinks).
Proof.
  induction contactLinks as [|x pre IH] using rev_ind; [reflexivity|].
  rewrite requestedOccurrences_snoc, !List.filter_app, !length_app, IH.
  cbn [List.filter]. destruct (fetched fetch x) eqn:Hf; cbn [andb negb].
  - rewrite firstOccurrences_snoc.
    assert (Hin : existsb (String.eqb x) (List.filter (fetched fetch) pre)
                  = existsb (String.eqb x) pre).
    { apply eq_true_iff_eq. rewrite !existsb_eqb_In, List.filter_In. tauto. }
    rewrite Hin. destruct (existsb (String.eqb x) pre); rewrite ?length_app; simpl; lia.
  - rewrite app_nil_r. simpl. lia.
Qed.

End Loop.


(** X11.  Outside SPA mode [processContactPages] downloads the contact links
    with the direct-secure strategy when the protocol reads HTTPS (in any
    case of letters) and with the direct-insecure strategy otherwise.  An
    occurrence of a link is requested unless the page of the link can be
    downloaded and the link occurs earlier in the list: a page that was
    downloaded is not downloaded again, a link whose download fails is tried
    at every occurrence.  The content is one section per link whose page can
    be downloaded, each link once, in the order of the first occurrences;
    [successCount] counts these links and [failureCount] the occurrences of
    the other links; together they are the number of requests, never exceed
    the number of links, and equal it when the links are distinct. *)
Theorem processContactPages_counts :
  forall (U : Type) (api : Fetch.URLApi U) (w : Strategies.World) (b : Browser)
         (links : list string) (protocol : string),
    let strategy := if String.eqb (toUpperCase protocol) "HTTPS"
                    then Strategies.localHttps w else Strategies.localHttp w in
    let fetch := pageMarkdown (Strategies.download strategy) in
    let r := fst (processContactPages w b (Some links) protocol false) in
    let requests := snd (processContactPages w b (Some links) protocol false) in
    let downloaded := firstOccurrences (List.filter (fetched fetch) links) in
    requests = map (StrategyDownload (Strategies.name strategy))
                   (requestedOccurrences fetch links) /\
    contactContent r = concatSections (map (sectionOf fetch) downloaded) /\
    successCount r = length downloaded /\
    failureCount r = length (List.filter (fun l => negb (fetched fetch l)) links) /\
    length requests = successCount r + failureCount r /\
    successCount r + failureCount r <= length links /\
    (NoDup links -> successCount r + failureCount r = length links).
Proof.
  intros U api w b links protocol strategy fetch r requests downloaded.
  assert (Hs : strategyFor w protocol = strategy) by reflexivity.
  destruct (visitLinks_exact fetch links) as (H1 & H2 & H3 & H4 & H5).
  cbv zeta in *.
  pose proof (requestedOccurrences_length fetch links) as Hlen.
  pose proof (filter_split_length (fetched fetch) links) as Hsplit.
  pose proof (firstOccurrences_length (List.filter (fetched fetch) links)) as Hle.
  assert (Hres : requests = map (StrategyDownload (Strategies.name strategy))
                                (requestedOccurrences fetch links) /\
                 contactContent r = concatSections (map (sectionOf fetch) downloaded) /\
                 successCount r = length downloaded /\
                 failureCount r
                 = length (List.filter (fun l => negb (fetched fetch l)) links)).
  { subst r requests downloaded. destruct links as [|link links]; [now cbn|].
    unfold processContactPages. rewrite Hs. fold fetch.
    cbn [fst snd contactContent successCount failureCount].
    now rewrite H5, H2, H3, H4, H1. }
  destruct Hres as (R1 & R2 & R3 & R4).
  split; [exact R1|]. split; [exact R2|]. split; [exact R3|]. split; [exact R4|].
  rewrite R1, R3, R4, length_map, Hlen. fold downloaded.
  split; [reflexivity|]. subst downloaded. split; [lia|].
  intros Hnd. rewrite firstOccurrences_fixed by now apply NoDup_List_filter.
  exact Hsplit.
Qed.

(** X12.  In SPA mode the contact pages are asked of one browser page, and
    none of a direct strategy.  When the browser cannot be launched, the
    pass asks for nothing and reports no content, no success and no failure,
    and so it does when the page cannot be opened and the browser closes.
    When the page is opened, an occurrence of a link is asked for unless the
    page of the link can be rendered and the link occurs earlier; if the
    browser then closes, the pass reports one section per link that can be
    rendered, each link once, in the order of the first occurrences, the
    number of these links and the number of occurrences of the others; if
    closing the browser fails, it reports no content and every link as
    failed, whatever was rendered. *)
Theorem processContactPages_spa :
  forall (U : Type) (api : Fetch.URLApi U) (w : Strategies.World) (b : Browser)
         (links : list string) (protocol : string),
    let r := fst (processContactPages w b (Some links) protocol true) in
    let requests := snd (processContactPages w b (Some links) protocol true) in
    let rendered := firstOccurrences (List.filter (fetched (render b)) links) in
    contactLinks r = links /\
    requests = (if launches b && opensPage b
                then map PageGoto (requestedOccurrences (render b) links) else []) /\
    match launches b, opensPage b, closeError b with
    | true, _, Some _ =>
        contactContent r = EmptyString /\ successCount r = 0 /\
        failureCount r = length links
    | true, true, None =>
        contactContent r = concatSections (map (sectionOf (render b)) rendered) /\
        successCount r = length rendered /\
        failureCount r
          = length (List.filter (fun l => negb (fetched (render b) l)) links)
    | _, _, _ =>
        contactContent r = EmptyString /\ successCount r = 0 /\ failureCount r = 0
    end.
Proof.
  intros U api w b links protocol r requests rendered. subst r requests rendered.
  destruct (visitLinks_exact (render b) links) as (H1 & H2 & H3 & H4 & H5).
  cbv zeta in *.
  destruct links as [|link links].
  - cbn. destruct (launches b), (opensPage b), (closeError b); now cbn.
  - unfold processContactPages, processSpaContactPages, headlessProcessContactPages.
    destruct (launches b); [|now cbn].
    destruct (opensPage b); cbn [andb].
    + rewrite H5. destruct (closeError b); cbn [fst snd contactLinks contactContent
        successCount failureCount hcontent hsuccessCount hfailureCount];
        [now repeat split|].
      now rewrite H2, H3, H4, H1.
    + destruct (closeError b); now cbn.
Qed.

End ContactPagesFacts.

(** ** The headless download *)

Module HeadlessFacts.

Import JS JSFacts Types Headless.

Lemma uniqueLinks_firstOccurrences links :
  uniqueLinks links = ContactPages.firstOccurrences links.
Proof.
  unfold uniqueLinks. induction links as [|x l IH] using rev_ind; [reflexivity|].
  rewrite fold_left_app. cbn [fold_left]. rewrite IH.
  rewrite ContactPagesFacts.firstOccurrences_snoc. unfold Fetch.set_add.
  assert (H : existsb (String.eqb x) (ContactPages.firstOccurrences l)
              = existsb (String.eqb x) l).
  { apply eq_true_iff_eq.
    now rewrite !ContactPagesFacts.existsb_eqb_In,
                ContactPagesFacts.firstOccurrences_In. }
  now rewrite H.
Qed.

(** X13.  A headless download returns the links of the rendered page
    without the later occurrences of a link: each link once, in the order of
    the first occurrences.  Its content is the markdown of the page, its
    size the length of that content in UTF-8 and its effective URL the URL
    of the page.  When it fails, the error is the one of closing the browser
    or reads "Failed to process SPA with headless browser: ..." *)
Theorem headless_download_links :
  forall (visit : string -> Visit) (closeError : option Error) (url : string),
    match download visit closeError url with
    | inl result =>
        exists page,
          visit url = Loaded page /\ closeError = None /\
          links result = ContactPages.firstOccurrences (pageLinks page) /\
          NoDup (links result) /\
          (forall l, In l (links result) <-> In l (pageLinks page)) /\
          content result = pageMarkdown page /\
          size result = byteLength (pageMarkdown page) /\
          effectiveUrl result = pageUrl page
    | inr e =>
        closeError = Some e \/
        startsWith (message e) "Failed to process SPA with headless browser: " = true
    end.
Proof.
  intros visit closeError url. unfold download.
  destruct (visit url) as [e|e|page].
  - right. apply startsWith_spec. now exists (message e).
  - destruct closeError as [ce|]; [now left|].
    right. apply startsWith_spec. now exists (message e).
  - destruct closeError as [ce|]; [now left|].
    exists page. split; [reflexivity|]. split; [reflexivity|].
    cbn [links size content effectiveUrl].
    rewrite uniqueLinks_firstOccurrences.
    split; [reflexivity|]. split; [apply ContactPagesFacts.firstOccurrences_NoDup|].
    split; [intros l; apply ContactPagesFacts.firstOccurrences_In|]. now repeat split.
Qed.

Section Wait.
Variable now : nat -> Z.
Variable docLength : nat -> Z.
Hypothesis Hsleeps : sleeps now.

Lemma now_grows j : (now O + 500 * Z.of_nat j <= now (S j))%Z.
Proof.
  destruct Hsleeps as [H0 Hs]. induction j as [|j IH]; [lia|].
  specialize (Hs j). lia.
Qed.

Lemma waitLoop_bound fuel j previous stable :
  waitLoop now docLength fuel j previous stable <= 10 - j.
Proof.
  revert j previous stable. induction fuel as [|fuel IH]; intros j previous stable;
    cbn [waitLoop]; [lia|].
  destruct (Z.ltb_spec (now (S j) - now O) maxWaitTime) as [Hlt|Hge]; [|lia].
  pose proof (now_grows j) as Hg. unfold maxWaitTime in Hlt.
  assert (Hj : j < 10) by lia.
  destruct (Z.abs _ <? 50)%Z.
  - destruct (Nat.leb 3 (S stable)); [lia|].
    specialize (IH (S j) (docLength j) (S stable)). lia.
  - specialize (IH (S j) (docLength j) 0). lia.
Qed.

(** With enough fuel the loop has ended by itself: more fuel changes
    nothing. *)
Lemma waitLoop_fuel fuel fuel' j previous stable :
  10 - j < fuel -> 10 - j < fuel' ->
  waitLoop now docLength fuel j previous stable
  = waitLoop now docLength fuel' j previous stable.
Proof.
  revert fuel' j previous stable.
  induction fuel as [|fuel IH]; intros fuel' j previous stable Hf Hf'; [lia|].
  destruct fuel' as [|fuel']; [lia|]. cbn [waitLoop].
  destruct (Z.ltb_spec (now (S j) - now O) maxWaitTime) as [Hlt|Hge]; [|reflexivity].
  pose proof (now_grows j) as Hg. unfold maxWaitTime in Hlt.
  assert (Hj : j < 10) by lia.
  destruct (Z.abs _ <? 50)%Z.
  - destruct (Nat.leb 3 (S stable)); [reflexivity|].
    f_equal. apply IH; lia.
  - f_equal. apply IH; lia.
Qed.

End Wait.

(** X14.  When the sleep of 500 ms between two evaluations of the loop
    condition is honoured by the clock, [waitForPageContent] ends after
    measuring the document at most 10 times, whatever the page does; 11
    evaluations of the condition are enough, and allowing more changes
    nothing. *)
Theorem waitForPageContent_ends :
  forall (now : nat -> Z) (docLength : nat -> Z) (fuel : nat),
    sleeps now ->
    10 < fuel ->
    waitForPageContent now docLength fuel <= 10 /\
    waitForPageContent now docLength fuel = waitForPageContent now docLength 11.
Proof.
  intros now docLength fuel Hs Hfuel. unfold waitForPageContent. split.
  - pose proof (waitLoop_bound now docLength Hs fuel 0 0%Z 0). lia.
  - apply waitLoop_fuel; [exact Hs | lia | lia].
Qed.

Lemma waitForPageContent_ends_witness :
  waitForPageContent (fun k => 1000 * Z.of_nat k)%Z (fun _ => 0%Z) 11 <= 10 /\
  waitForPageContent (fun k => 1000 * Z.of_nat k)%Z (fun _ => 0%Z) 11
  = waitForPageContent (fun k => 1000 * Z.of_nat k)%Z (fun _ => 0%Z) 11.
Proof.
  apply (waitForPageContent_ends (fun k => 1000 * Z.of_nat k)%Z (fun _ => 0%Z) 11).
  - split; [simpl; lia | intros j; lia].
  - lia.
Defined.

End HeadlessFacts.

(** ** File names *)

Module HostnamesFacts.

Import JS JSFacts Types Hostnames TextFacts.

Lemma sanitize_chars s : allChars isFileNameChar (sanitize s) = true.
Proof.
  induction s as [|c s IH]; [reflexivity|]. simpl. rewrite IH, andb_true_r.
  unfold isFileNameChar. destruct (isHostChar c) eqn:E; [now rewrite E | reflexivity].
Qed.

Lemma sanitize_fixed s : allChars isHostChar s = true -> sanitize s = s.
Proof.
  induction s as [|c s IH]; [reflexivity|]. simpl. intros H.
  apply andb_true_iff in H as [-> H]. now rewrite IH.
Qed.

Lemma sanitize_length s : String.length (sanitize s) = String.length s.
Proof. induction s as [|c s IH]; [reflexivity|]. simpl. now rewrite IH. Qed.

Lemma substring0_length n s : String.length (substring0 n s) <= n.
Proof.
  revert s. induction n as [|n IH]; intros [|c s]; simpl; try lia.
  specialize (IH s). lia.
Qed.

Lemma allChars_includes p s k :
  allChars p s = true -> includes s k = true -> allChars p k = true.
Proof.
  intros Hs Hk. apply includes_spec in Hk as (pre & post & ->).
  revert Hs. induction pre as [|c pre IH]; simpl.
  - clear. revert post. induction k as [|c k IH]; intros post; [reflexivity|].
    simpl. intros H. apply andb_true_iff in H as [-> H]. now apply (IH post).
  - intros H. apply andb_true_iff in H as [_ H]. now apply IH.
Qed.

Lemma allChars_append p a b :
  allChars p (a +:+ b) = allChars p a && allChars p b.
Proof.
  induction a as [|c a IH]; [reflexivity|]. rewrite append_cons. simpl.
  now rewrite IH, andb_assoc.
Qed.

(** X15.  The name [getSanitizedHostname] gives to the files of a site
    consists of letters, digits, dots, hyphens and underscores only, whatever
    the URL and whatever the host name the URL parser reports: it holds no
    path separator, no colon and no white space.  When the URL cannot be
    parsed the name is at most 100 characters long.  The name of the error
    log of a site is made of the same characters. *)
Theorem getSanitizedHostname_safe :
  forall (U : Type) (api : Fetch.URLApi U) (url effectiveUrl : string),
    let name := getSanitizedHostname url effectiveUrl in
    let chosen := if String.eqb effectiveUrl "" then url else effectiveUrl in
    let fullUrl := if startsWith chosen "http" then chosen
                   else ("https://" +:+ chosen)%string in
    allChars isFileNameChar name = true /\
    includes name "/" = false /\ includes name "\" = false /\
    includes name ":" = false /\ includes name " " = false /\
    (Fetch.parse fullUrl = None -> String.length name <= 100) /\
    allChars isFileNameChar (errorLogName url) = true.
Proof.
  intros U api url effectiveUrl name chosen fullUrl.
  assert (Hall : allChars isFileNameChar name = true) by apply sanitize_chars.
  assert (Hno : forall k, allChars isFileNameChar k = false -> includes name k = false).
  { intros k Hk. destruct (includes name k) eqn:E; [|reflexivity].
    rewrite (allChars_includes _ _ _ Hall E) in Hk. discriminate. }
  split; [exact Hall|]. repeat (split; [now apply Hno|]).
  split.
  - intros Hp. subst name. unfold getSanitizedHostname. fold chosen. fold fullUrl.
    rewrite Hp, sanitize_length. apply substring0_length.
  - unfold errorLogName. now rewrite allChars_append, sanitize_chars.
Qed.

End HostnamesFacts.

(** ** The tallies of the worker queue *)

Module AppFacts.
Import JS Types Hostnames LLM App.

Ltac conjs := repeat match goal with |- _ /\ _ => split end.

Section Tally.
Context {U : Type} {api : Fetch.URLApi U}.

Lemma countErrorType_fields siteUrl result t :
  let t' := countErrorType siteUrl result t in
  successCount t' = successCount t /\ errorCount t' = errorCount t /\
  allResults t' = allResults t /\ logged t' = logged t /\
  fileUpdates t' = fileUpdates t /\
  downloadErrorCount t' = downloadErrorCount t
    + (if hasErrorType DOWNLOAD (inl result) then 1 else 0) /\
  llmErrorCount t' = llmErrorCount t + (if hasErrorType LLM (inl result) then 1 else 0) /\
  unexpectedErrorCount t' = unexpectedErrorCount t
    + (if hasErrorType UNEXPECTED (inl result) then 1 else 0) /\
  length (downloadErrors t') = length (downloadErrors t)
    + (if hasErrorType DOWNLOAD (inl result) then 1 else 0) /\
  length (llmErrors t') = length (llmErrors t)
    + (if hasErrorType LLM (inl result) then 1 else 0) /\
  length (unexpectedErrors t') = length (unexpectedErrors t)
    + (if hasErrorType UNEXPECTED (inl result) then 1 else 0).
Proof.
  unfold countErrorType, hasErrorType.
  destruct (Site.errorType result) as [[| |]|]; cbn;
    rewrite ?length_app; simpl; repeat split; lia.
Qed.

Lemma count_snoc {A} (p : A -> bool) l x :
  count p (l ++ [x]) = count p l + (if p x then 1 else 0).
Proof.
  unfold count. rewrite List.filter_app, length_app. simpl. now destruct (p x).
Qed.

Lemma count_cons {A} (p : A -> bool) x l :
  count p (x :: l) = (if p x then 1 else 0) + count p l.
Proof. unfold count. simpl. now destruct (p x). Qed.

Lemma count_app {A} (p : A -> bool) l l' :
  count p (l ++ l') = count p l + count p l'.
Proof. unfold count. now rewrite List.filter_app, length_app. Qed.

Lemma count_split {A} (p : A -> bool) l :
  count p l + count (fun x => negb (p x)) l = length l.
Proof.
  unfold count. induction l as [|x l IH]; simpl; [reflexivity|].
  destruct (p x); simpl; lia.
Qed.

Lemma count_sum {A} (p q r : A -> bool) l :
  (forall x, In x l ->
     (if p x then 1 else 0) = (if q x then 1 else 0) + (if r x then 1 else 0)) ->
  count p l = count q l + count r l.
Proof.
  unfold count. induction l as [|x l IH]; intros H; [reflexivity|].
  pose proof (H x (or_introl eq_refl)) as Hx.
  assert (IH' := IH (fun y Hy => H y (or_intror Hy))).
  simpl. destruct (p x), (q x), (r x); simpl in *; lia.
Qed.

Lemma count_le {A} (p q : A -> bool) l :
  (forall x, In x l -> p x = true -> q x = true) -> count p l <= count q l.
Proof.
  unfold count. induction l as [|x l IH]; intros H; [reflexivity|].
  pose proof (H x (or_introl eq_refl)) as Hx.
  assert (IH' := IH (fun y Hy => H y (or_intror Hy))).
  simpl. destruct (p x), (q x); simpl in *; try lia.
Qed.

Lemma removeAt_split {A} i (l : list A) x :
  nth_error l i = Some x ->
  exists l1 l2, l = l1 ++ x :: l2 /\ removeAt i l = l1 ++ l2.
Proof.
  revert i. induction l as [|y l IH]; intros [|i] H; simpl in H; try discriminate H.
  - injection H as ->. now exists [], l.
  - destruct (IH i H) as (l1 & l2 & -> & Hr).
    exists (y :: l1), l2. simpl. now rewrite Hr.
Qed.

Lemma toRecord_snoc items site_name data :
  toRecord (items ++ [(site_name, data)]) = obj_set site_name data (toRecord items).
Proof. unfold toRecord. now rewrite fold_left_app. Qed.

Lemma uponSettled_fields siteUrl outcome t :
  let t' := uponSettled siteUrl outcome t in
  let b (x : bool) := if x then 1 else 0 in
  successCount t' = successCount t + b (countedAsSuccess outcome) /\
  errorCount t' = errorCount t /\
  downloadErrorCount t' = downloadErrorCount t + b (hasErrorType DOWNLOAD outcome) /\
  llmErrorCount t' = llmErrorCount t + b (hasErrorType LLM outcome) /\
  unexpectedErrorCount t' + b (isRejection (siteUrl, outcome))
    = unexpectedErrorCount t + b (hasErrorType UNEXPECTED outcome) /\
  length (downloadErrors t') = length (downloadErrors t) + b (hasErrorType DOWNLOAD outcome) /\
  length (llmErrors t') = length (llmErrors t) + b (hasErrorType LLM outcome) /\
  length (unexpectedErrors t') + b (isRejection (siteUrl, outcome))
    = length (unexpectedErrors t) + b (hasErrorType UNEXPECTED outcome) /\
  length (logged t') = length (logged t) + b (negb (countedAsSuccess outcome)) /\
  fileUpdates t'
    = fileUpdates t ++ (if countedAsSuccess outcome then [updateOf (siteUrl, outcome)]
                        else []) /\
  allResults t'
    = if countedAsSuccess outcome
      then obj_set (siteNameOf siteUrl) (dataOf outcome) (allResults t)
      else allResults t.
Proof.
  cbv zeta. destruct outcome as [result|error].
  - unfold uponSettled.
    destruct (countErrorType_fields siteUrl result t)
      as (H1 & H2 & H3 & H4 & H5 & H6 & H7 & H8 & H9 & H10 & H11).
    cbv zeta in *.
    set (t1 := countErrorType siteUrl result t) in *.
    unfold countedAsSuccess, dataOf, isRejection, updateOf, dataOf.
    cbn [fst snd].
    destruct (Site.rsuccess result); [destruct (Site.extractedData result) as [data|]|];
      cbn [successCount errorCount downloadErrorCount llmErrorCount
           unexpectedErrorCount downloadErrors llmErrors unexpectedErrors
           allResults logged fileUpdates negb];
      rewrite ?length_app, ?app_nil_r, ?H1, ?H2, ?H3, ?H4, ?H5, ?H6, ?H7, ?H8, ?H9,
              ?H10, ?H11;
      simpl; repeat split; lia.
  - unfold uponSettled, countedAsSuccess, dataOf, hasErrorType, isRejection.
    cbn [successCount errorCount downloadErrorCount llmErrorCount
         unexpectedErrorCount downloadErrors llmErrors unexpectedErrors
         allResults logged fileUpdates negb fst snd].
    rewrite ?length_app, ?app_nil_r. simpl. repeat split; lia.
Qed.

Lemma uponLogged_fields siteUrl outcome t :
  countedAsSuccess outcome = false ->
  let t' := uponLogged siteUrl outcome t in
  let b (x : bool) := if x then 1 else 0 in
  successCount t' = successCount t /\
  errorCount t' = S (errorCount t) /\
  downloadErrorCount t' = downloadErrorCount t /\
  llmErrorCount t' = llmErrorCount t /\
  unexpectedErrorCount t' = unexpectedErrorCount t + b (isRejection (siteUrl, outcome)) /\
  length (downloadErrors t') = length (downloadErrors t) /\
  length (llmErrors t') = length (llmErrors t) /\
  length (unexpectedErrors t')
    = length (unexpectedErrors t) + b (isRejection (siteUrl, outcome)) /\
  length (logged t') = length (logged t) /\
  fileUpdates t' = fileUpdates t ++ [updateOf (siteUrl, outcome)] /\
  allResults t' = obj_set (siteNameOf siteUrl) (dataOf outcome) (allResults t).
Proof.
  intros Hc. cbv zeta. unfold uponLogged, isRejection, updateOf.
  destruct outcome as [result|error];
    cbn [successCount errorCount downloadErrorCount llmErrorCount
         unexpectedErrorCount downloadErrors llmErrors unexpectedErrors
         allResults logged fileUpdates fst snd];
    rewrite ?length_app; simpl.
  - assert (Hd : dataOf (inl result) = emptyExtractedData).
    { unfold countedAsSuccess in Hc. unfold dataOf.
      destruct (Site.rsuccess result); [|reflexivity].
      destruct (Site.extractedData result); [discriminate Hc | reflexivity]. }
    simpl in Hd. rewrite Hd. repeat split; lia.
  - repeat split; lia.
Qed.

(** What holds of the tallies between two events. *)
Lemma runTally_invariant (events : list TallyEvent) :
  let s := runTally events in
  let t := tally s in
  let settled := settledSites events in
  successCount t = count (fun o => countedAsSuccess (snd o)) settled /\
  errorCount t + length (logging s)
    = count (fun o => negb (countedAsSuccess (snd o))) settled /\
  downloadErrorCount t = count (fun o => hasErrorType DOWNLOAD (snd o)) settled /\
  llmErrorCount t = count (fun o => hasErrorType LLM (snd o)) settled /\
  unexpectedErrorCount t + count isRejection (logging s)
    = count (fun o => hasErrorType UNEXPECTED (snd o)) settled /\
  length (downloadErrors t) = downloadErrorCount t /\
  length (llmErrors t) = llmErrorCount t /\
  length (unexpectedErrors t) = unexpectedErrorCount t /\
  length (logged t) = errorCount t + length (logging s) /\
  allResults t = toRecord (fileUpdates t) /\
  Permutation (fileUpdates t ++ map updateOf (logging s)) (map updateOf settled) /\
  (forall o, In o (logging s) -> In o settled /\ countedAsSuccess (snd o) = false).
Proof.
  induction events as [|e events IH] using rev_ind.
  - cbn. unfold count. simpl. conjs; try reflexivity.
    intros o [].
  - cbv zeta in *. unfold runTally, settledSites in *.
    rewrite fold_left_app, flat_map_app. cbn [fold_left flat_map].
    set (s := fold_left stepTally events _) in *.
    set (settled := flat_map _ events) in *.
    destruct IH as (I1 & I2 & I3 & I4 & I5 & I6 & I7 & I8 & I9 & I10 & I11 & I12).
    rewrite app_nil_r.
    destruct e as [siteUrl outcome|i]; cbn [stepTally].
    + destruct (uponSettled_fields siteUrl outcome (tally s))
        as (H1 & H2 & H3 & H4 & H5 & H6 & H7 & H8 & H9 & H10 & H11).
      cbv beta zeta in *. cbn [tally logging].
      rewrite !count_snoc. cbn beta. cbn [fst snd].
      destruct (countedAsSuccess outcome) eqn:Hc; cbn [negb] in *.
      * assert (Hr : isRejection (siteUrl, outcome) = false).
        { unfold isRejection. destruct outcome; [reflexivity | discriminate Hc]. }
        rewrite Hr in H5, H8.
        conjs; try lia.
        -- rewrite H11, H10. unfold updateOf. cbn [fst snd].
           rewrite toRecord_snoc. now rewrite I10.
        -- rewrite H10, map_app. cbn [map]. rewrite <- app_assoc.
           etransitivity; [apply Permutation_app_head, Permutation_app_comm|].
           rewrite app_assoc. now apply Permutation_app_tail.
        -- intros o Ho. destruct (I12 o Ho) as (Ha & Hb). split;
             [apply in_or_app; now left | exact Hb].
      * rewrite length_app, count_snoc, !map_app. cbn [length map].
        rewrite app_nil_r in H10.
        conjs; try lia.
        -- rewrite H11, H10. exact I10.
        -- rewrite H10, app_assoc. now apply Permutation_app_tail.
        -- intros o Ho. apply in_app_or in Ho.
           destruct Ho as [Ho|[<-|[]]].
           ++ destruct (I12 o Ho) as (Ha & Hb). split;
                [apply in_or_app; now left | exact Hb].
           ++ split; [apply in_or_app; right; now left | exact Hc].
    + rewrite app_nil_r.
      destruct (nth_error (logging s) i) as [[siteUrl outcome]|] eqn:Hi.
      * destruct (removeAt_split _ _ _ Hi) as (l1 & l2 & Hl & Hr).
        assert (Hin : In (siteUrl, outcome) (logging s)).
        { rewrite Hl. apply in_or_app. right. now left. }
        destruct (I12 _ Hin) as (_ & Hc). cbn [snd] in Hc.
        destruct (uponLogged_fields siteUrl outcome (tally s) Hc)
          as (H1 & H2 & H3 & H4 & H5 & H6 & H7 & H8 & H9 & H10 & H11).
        cbv beta zeta in *. cbn [tally logging].
        rewrite Hr. rewrite Hl in I2, I5, I9, I11.
        rewrite length_app in I2, I9. cbn [length] in I2, I9.
        rewrite count_app, count_cons in I5.
        rewrite map_app in I11. cbn [map] in I11.
        rewrite length_app, count_app, map_app.
        conjs; try lia.
        -- rewrite H11, H10. unfold updateOf. cbn [fst snd].
           rewrite toRecord_snoc. now rewrite I10.
        -- rewrite H10. etransitivity; [|exact I11].
           rewrite <- app_assoc. apply Permutation_app_head.
           cbn [app]. apply Permutation_middle.
        -- intros o Ho. apply I12. rewrite Hl.
           apply in_app_or in Ho. apply in_or_app.
           destruct Ho as [Ho|Ho]; [now left | right; now right].
      * conjs; assumption.
Qed.

Lemma eventsOf_shapes (c : Site.Collaborators) moments o :
  In o (settledSites (eventsOf c moments)) ->
  exists r, snd o = inl r /\
    ((Site.rsuccess r = true /\ (exists data, Site.extractedData r = Some data) /\
      (Site.errorType r = None \/ Site.errorType r = Some DOWNLOAD)) \/
     (Site.rsuccess r = false /\ Site.extractedData r = None /\
      (Site.errorType r = Some LLM \/ Site.errorType r = Some UNEXPECTED))).
Proof.
  unfold settledSites, eventsOf. rewrite in_flat_map. intros (e & He & Hin).
  apply in_flat_map in He. destruct He as (m & _ & He).
  destruct m as [siteUrl|i].
  - pose proof (SiteRunsFacts.processSite_shapes c siteUrl) as Hs.
    destruct (fst (Site.processSite c siteUrl)) as [r|]; [|destruct He].
    destruct He as [<-|[]]. destruct Hin as [<-|[]]. now exists r.
  - destruct He as [<-|[]]. destruct Hin.
Qed.

End Tally.

(** X16.  At every moment of a run of the worker queue, whatever the order
    in which the sites settle and their error logs are written: every
    settled site is counted once, as a success or as an error, or is still
    waiting for its error log; the three error lists are as long as their
    counters say; [logErrorFn] has been called once for every site counted
    as an error or waiting; the consolidated results are the record built
    from the updates of the file in the order they were enqueued; and these
    updates, with those of the waiting sites, are one per settled site: its
    data for a success, the empty result otherwise. *)
Theorem tally_counts_every_site :
  forall (U : Type) (api : Fetch.URLApi U) (events : list TallyEvent),
    let s := runTally events in
    let t := tally s in
    let settled := settledSites events in
    successCount t + errorCount t + length (logging s) = length settled /\
    successCount t = count (fun o => countedAsSuccess (snd o)) settled /\
    length (downloadErrors t) = downloadErrorCount t /\
    length (llmErrors t) = llmErrorCount t /\
    length (unexpectedErrors t) = unexpectedErrorCount t /\
    length (logged t) = errorCount t + length (logging s) /\
    allResults t = toRecord (fileUpdates t) /\
    Permutation (fileUpdates t ++ map updateOf (logging s)) (map updateOf settled).
Proof.
  intros U api events s t settled. subst s t settled.
  destruct (runTally_invariant events)
    as (I1 & I2 & I3 & I4 & I5 & I6 & I7 & I8 & I9 & I10 & I11 & I12).
  cbv zeta in *.
  pose proof (count_split (fun o : string * (Site.SiteProcessingResult + Error) =>
                             countedAsSuccess (snd o)) (settledSites events)) as Hs.
  conjs; try assumption. lia.
Qed.

(** X17.  For the results [processSite] returns, a site whose download
    failed is counted as a success and as a download error, not as an error.
    At every moment of a run: the sites counted as errors, with those
    waiting for their error log, are as many as the extraction and the
    unexpected errors; the download errors are among the successes; and the
    successes are the download errors plus the sites that carry no error
    type. *)
Theorem download_failures_counted_as_successes :
  forall (U : Type) (api : Fetch.URLApi U) (c : Site.Collaborators)
         (moments : list Moment),
    let events := eventsOf c moments in
    let s := runTally events in
    let t := tally s in
    errorCount t + length (logging s) = llmErrorCount t + unexpectedErrorCount t /\
    downloadErrorCount t <= successCount t /\
    successCount t = downloadErrorCount t + count noErrorType (settledSites events).
Proof.
  intros U api c moments events s t. subst s t events.
  destruct (runTally_invariant (eventsOf c moments))
    as (I1 & I2 & I3 & I4 & I5 & _ & _ & _ & _ & _ & _ & I12).
  cbv zeta in *.
  assert (Hrej : count isRejection (logging (runTally (eventsOf c moments))) = 0).
  { unfold count. apply length_zero_iff_nil.
    destruct (List.filter isRejection _) as [|o l] eqn:Hf; [reflexivity|].
    assert (Ho : In o (List.filter isRejection
                          (logging (runTally (eventsOf c moments))))).
    { rewrite Hf. now left. }
    apply List.filter_In in Ho. destruct Ho as (Ho & Hr).
    destruct (I12 o Ho) as (Hs & _).
    destruct (eventsOf_shapes c moments o Hs) as (r & Hsnd & _).
    unfold isRejection in Hr. rewrite Hsnd in Hr. discriminate Hr. }
  rewrite Hrej, Nat.add_0_r in I5.
  rewrite I1, I2, I3, I4, I5.
  split; [|split].
  - apply count_sum. intros o Ho.
    destruct (eventsOf_shapes c moments o Ho)
      as (r & Hr & [(H1 & (d & H2) & [H3|H3])|(H1 & H2 & [H3|H3])]);
      rewrite Hr; unfold countedAsSuccess, hasErrorType; rewrite H1, ?H2, ?H3; reflexivity.
  - apply count_le. intros o Ho.
    destruct (eventsOf_shapes c moments o Ho)
      as (r & Hr & [(H1 & (d & H2) & [H3|H3])|(H1 & H2 & [H3|H3])]);
      rewrite Hr; unfold countedAsSuccess, hasErrorType; rewrite H1, ?H2, ?H3;
      intros H; try reflexivity; discriminate H.
  - apply count_sum. intros o Ho.
    destruct (eventsOf_shapes c moments o Ho)
      as (r & Hr & [(H1 & (d & H2) & [H3|H3])|(H1 & H2 & [H3|H3])]);
      unfold noErrorType; rewrite Hr; unfold countedAsSuccess, hasErrorType;
      rewrite H1, ?H2, ?H3; reflexivity.
Qed.

End AppFacts.

(** ** The pool of workers and the file operation queue *)

Module PoolFacts.
Import App.

Lemma iter_processNext k p :
  k <= length (queue p) ->
  Nat.iter k processNext p =
    {| queue := drop k (queue p); completed := completed p + k;
       activeWorkers := activeWorkers p; resolved := resolved p;
       inFlight := inFlight p ++ take k (queue p);
       handed := handed p ++ take k (queue p) |}.
Proof.
  induction k as [|k IH]; intros Hk.
  - cbn. rewrite !app_nil_r, Nat.add_0_r. now destruct p.
  - cbn [Nat.iter nat_rect]. change (nat_rect _ p (fun _ => processNext) k)
      with (Nat.iter k processNext p).
    rewrite IH by lia. unfold processNext. cbn [queue].
    destruct (lookup_lt_is_Some_2 (queue p) k) as [x Hx]; [lia|].
    rewrite (drop_S _ _ _ Hx). cbn [completed activeWorkers resolved inFlight handed].
    rewrite (take_S_r _ _ _ Hx), !app_assoc. f_equal. lia.
Qed.

Lemma startPool_spec sites concurrencyLimit :
  let workerCount := Nat.min concurrencyLimit (length sites) in
  startPool sites concurrencyLimit =
    {| queue := drop workerCount sites; completed := workerCount;
       activeWorkers := Z.of_nat workerCount; resolved := false;
       inFlight := take workerCount sites; handed := take workerCount sites |}.
Proof.
  cbv zeta. unfold startPool. rewrite iter_processNext by (cbn; lia). reflexivity.
Qed.

Lemma startPool_invariant sites concurrencyLimit :
  poolInvariant sites (Nat.min concurrencyLimit (length sites))
                (startPool sites concurrencyLimit).
Proof.
  rewrite startPool_spec. cbv zeta. unfold poolInvariant.
  cbn [queue completed activeWorkers resolved inFlight handed].
  set (w := Nat.min concurrencyLimit (length sites)).
  assert (Hw : w <= length sites) by (subst w; lia).
  assert (Hlen : length (take w sites) = w) by (rewrite length_take; lia).
  rewrite take_drop, Hlen.
  split; [reflexivity|]. split; [reflexivity|]. split; [reflexivity|].
  split; [lia|]. split; [reflexivity|]. split; [discriminate|].
  intros (Hpos & _ & Htake). rewrite Htake in Hlen. simpl in Hlen. lia.
Qed.

Lemma removeAt_length {A} i (l : list A) :
  i < length l -> length (removeAt i l) = length l - 1.
Proof.
  revert i. induction l as [|x l IH]; intros i Hi; [simpl in Hi; lia|].
  destruct i as [|i]; simpl; [lia|]. simpl in Hi. rewrite IH by lia.
  destruct l; simpl in *; lia.
Qed.

Lemma siteSettles_invariant sites workerCount i p :
  poolInvariant sites workerCount p -> poolInvariant sites workerCount (siteSettles i p).
Proof.
  intros Hinv. pose proof Hinv as (H1 & H2 & H3 & H4 & H5 & H6). unfold siteSettles.
  destruct (Nat.ltb_spec i (length (inFlight p))) as [Hi|Hi]; [|exact Hinv].
  pose proof (removeAt_length i (inFlight p) Hi) as Hlen.
  unfold processNext. cbn [queue]. destruct (queue p) as [|siteUrl rest] eqn:Hq.
  - unfold poolInvariant.
    cbn [queue completed activeWorkers resolved inFlight handed].
    split; [exact H1|]. split; [exact H2|]. split; [lia|]. split; [lia|].
    split; [congruence|].
    destruct (Z.eqb_spec (activeWorkers p - 1) 0) as [Hz|Hz].
    + split; [intros _|reflexivity].
      split; [lia|]. split; [reflexivity|].
      destruct (removeAt i (inFlight p)); [reflexivity | simpl in *; lia].
    + split.
      * intros Hr. apply H6 in Hr as (_ & _ & Hr). rewrite Hr in Hi. simpl in Hi. lia.
      * intros (_ & _ & Hr). rewrite Hr in Hlen. simpl in Hlen. lia.
  - unfold poolInvariant.
    cbn [queue completed activeWorkers resolved inFlight handed].
    rewrite !length_app. simpl.
    split; [now rewrite <- app_assoc|]. split; [lia|]. split; [lia|].
    assert (Hfull : length (inFlight p) = workerCount) by (apply H5; discriminate).
    split; [lia|]. split; [lia|]. split.
    + intros Hr. apply H6 in Hr as (_ & Hr & _). discriminate.
    + intros (_ & _ & Hr). now destruct (removeAt i (inFlight p)).
Qed.

Lemma runPool_invariant sites workerCount settles p :
  poolInvariant sites workerCount p -> poolInvariant sites workerCount (runPool settles p).
Proof.
  revert p. induction settles as [|i settles IH]; intros p H; [exact H|].
  apply IH, siteSettles_invariant, H.
Qed.

(** X18.  The pool hands every site to [processSite] at most once and in
    the order of the input: at any moment the sites handed over so far,
    followed by the queue, are the input.  Never more than
    [concurrencyLimit] sites are being processed, and as long as sites wait
    in the queue exactly min(concurrencyLimit, number of sites) are. *)
Theorem pool_hands_each_site_once :
  forall (sites : list string) (concurrencyLimit : nat) (settles : list nat),
    let p := runPool settles (startPool sites concurrencyLimit) in
    handed p ++ queue p = sites /\
    completed p = length (handed p) /\
    length (inFlight p) <= concurrencyLimit /\
    (queue p <> [] ->
     length (inFlight p) = Nat.min concurrencyLimit (length sites)).
Proof.
  intros sites concurrencyLimit settles p.
  destruct (runPool_invariant sites _ settles _
              (startPool_invariant sites concurrencyLimit))
    as (H1 & H2 & H3 & H4 & H5 & H6).
  fold p in H1, H2, H3, H4, H5, H6. repeat split; try assumption. lia.
Qed.

(** X19.  The completion promise is resolved exactly when the queue is empty
    and no site is being processed any more, provided there was a site to
    process and a worker to process it: for an empty list of sites, or a
    concurrency limit of 0, no worker starts and the promise is never
    resolved. *)
Theorem pool_completion :
  forall (sites : list string) (concurrencyLimit : nat) (settles : list nat),
    let p := runPool settles (startPool sites concurrencyLimit) in
    (resolved p = true <->
     0 < concurrencyLimit /\ sites <> [] /\ queue p = [] /\ inFlight p = []) /\
    (sites = [] \/ concurrencyLimit = 0 -> resolved p = false) /\
    activeWorkers p = Z.of_nat (length (inFlight p)).
Proof.
  intros sites concurrencyLimit settles p.
  destruct (runPool_invariant sites _ settles _
              (startPool_invariant sites concurrencyLimit))
    as (H1 & H2 & H3 & H4 & H5 & H6).
  fold p in H1, H2, H3, H4, H5, H6.
  assert (Hpos : 0 < Nat.min concurrencyLimit (length sites)
                 <-> 0 < concurrencyLimit /\ sites <> []).
  { destruct sites; simpl; [rewrite Nat.min_0_r|]; split; intros H;
      try lia; try (destruct H; congruence).
    split; [lia | discriminate]. }
  split; [|split; [|exact H3]].
  - rewrite H6, Hpos. tauto.
  - intros Hno. destruct (resolved p) eqn:E; [|reflexivity].
    destruct (proj1 H6 eq_refl) as [E' _]. apply Hpos in E'.
    destruct Hno; [tauto | lia].
Qed.

Section FileQueue.
Variable Op : Type.

Lemma nextOperation_invariant enqueued (q : FileQueue Op) :
  startedOps Op q ++ pending Op q = enqueued ->
  queueInvariant enqueued (nextOperation Op q).
Proof.
  intros H. unfold nextOperation. destruct (pending Op q) as [|operation rest].
  - repeat split; cbn; try congruence; try tauto; discriminate.
  - repeat split; cbn; try congruence; try tauto.
    + now rewrite <- app_assoc.
    + intros o [= <-]. apply last_snoc.
Qed.

Lemma stepQueue_invariant enqueued (q : FileQueue Op) e :
  queueInvariant enqueued q ->
  queueInvariant (enqueued ++ enqueuedOps Op [e]) (stepQueue Op q e).
Proof.
  intros Hinv. pose proof Hinv as (H1 & H2 & H3 & H4).
  destruct e as [operation|]; cbn [stepQueue enqueuedOps flat_map].
  - rewrite app_nil_r. unfold enqueue. cbn [running].
    destruct (running Op q) eqn:Hr; cbn [negb].
    + unfold queueInvariant. cbn [startedOps pending running current].
      split; [now rewrite app_assoc, H1|]. split; [exact H2|].
      split; [reflexivity | exact H4].
    + unfold processQueue. cbn [running]. rewrite ?Hr.
      apply nextOperation_invariant. cbn. now rewrite app_assoc, H1.
  - rewrite !app_nil_r. unfold operationSettles.
    destruct (current Op q) as [operation|] eqn:Hc.
    + now apply nextOperation_invariant.
    + exact Hinv.
Qed.

Lemma runQueue_invariant events :
  queueInvariant (enqueuedOps Op events) (runQueue Op events).
Proof.
  unfold runQueue.
  assert (H : forall q enqueued, queueInvariant enqueued q ->
            queueInvariant (enqueued ++ enqueuedOps Op events)
                           (fold_left (stepQueue Op) events q)).
  { induction events as [|e events IH]; intros q enqueued Hq.
    - cbn. now rewrite app_nil_r.
    - cbn [fold_left]. change (e :: events) with ([e] ++ events).
      unfold enqueuedOps. rewrite flat_map_app, app_assoc.
      apply IH. now apply stepQueue_invariant. }
  apply (H (idle Op) []). repeat split; cbn; try congruence; try tauto; discriminate.
Qed.

End FileQueue.

(** X20.  The file operation queue starts the operations one at a time and
    in the order they were enqueued: the operations started so far, followed
    by those waiting, are the operations enqueued so far.  An operation
    waits only while another one is running, so each one is started once the
    operations before it have settled. *)
Theorem file_operations_run_in_order :
  forall (Op : Type) (events : list (QueueEvent Op)),
    let q := runQueue Op events in
    startedOps Op q ++ pending Op q = enqueuedOps Op events /\
    (running Op q = true <-> current Op q <> None) /\
    (pending Op q <> [] -> running Op q = true) /\
    (forall operation, current Op q = Some operation ->
                       last (startedOps Op q) = Some operation).
Proof. intros Op events. apply runQueue_invariant. Qed.

End PoolFacts.

(** ** The extraction analysis *)

Module AnalysisFacts.

Import JS Types Analysis.

Lemma hasData_length list : hasData list = true -> 0 < length list.
Proof. destruct list; [discriminate | simpl; lia]. Qed.

Lemma countSite_bounded n data c : bounded n c -> bounded (S n) (countSite data c).
Proof.
  unfold bounded, countSite. intros (H1 & H2 & H3 & H4 & H5 & H6).
  destruct (hasData (phone_numbers data)) eqn:E1;
    destruct (hasData (social_media_links data)) eqn:E2;
    destruct (hasData (addresses data)) eqn:E3;
    try apply hasData_length in E1; try apply hasData_length in E2;
    try apply hasData_length in E3; cbn; repeat split; lia.
Qed.

Lemma countSite_processedSites data c :
  processedSites (countSite data c) = processedSites c.
Proof.
  unfold countSite.
  destruct (hasData (phone_numbers data)), (hasData (social_media_links data)),
    (hasData (addresses data)); reflexivity.
Qed.

Lemma fold_countSite (allResults : LLM.ResultRecord) n c :
  bounded n c ->
  let c' := fold_left (fun c entry => countSite (snd entry) c) allResults c in
  bounded (n + length allResults) c' /\ processedSites c' = processedSites c.
Proof.
  revert n c. induction allResults as [|entry rest IH]; intros n c H; cbn [fold_left].
  - rewrite Nat.add_0_r. now split.
  - destruct (IH (S n) (countSite (snd entry) c) (countSite_bounded _ _ _ H)) as [H1 H2].
    cbv zeta in *. rewrite countSite_processedSites in H2.
    replace (n + length (entry :: rest)) with (S n + length rest) by (simpl; lia).
    now split.
Qed.

(** X21.  In the extraction analysis no coverage counter exceeds the number
    of processed sites, so no fill rate exceeds 100 percent; every site
    counted for a kind of data contributes at least one datapoint of that
    kind; and the total is the sum of the three kinds. *)
Theorem analysis_counters_bounded :
  forall allResults : LLM.ResultRecord,
    let c := analyzeExtractionResults allResults in
    processedSites c = length allResults /\
    sitesWithPhones c <= processedSites c /\
    sitesWithSocialMedia c <= processedSites c /\
    sitesWithAddresses c <= processedSites c /\
    sitesWithPhones c + sitesWithSocialMedia c + sitesWithAddresses c
      <= 3 * processedSites c /\
    sitesWithPhones c <= totalPhoneNumbers c /\
    sitesWithSocialMedia c <= totalSocialLinks c /\
    sitesWithAddresses c <= totalAddresses c /\
    totalDatapoints c = totalPhoneNumbers c + totalSocialLinks c + totalAddresses c.
Proof.
  intros allResults c. subst c. unfold analyzeExtractionResults.
  match goal with
  | |- context [fold_left ?f allResults ?c0] =>
      destruct (fold_countSite allResults 0 c0) as [(H1 & H2 & H3 & H4 & H5 & H6) H7];
      [unfold bounded; cbn; lia|]
  end.
  cbv zeta in *. cbn [processedSites sitesWithPhones sitesWithSocialMedia
    sitesWithAddresses totalPhoneNumbers totalSocialLinks totalAddresses
    totalDatapoints] in *.
  rewrite H7. simpl in H1, H2, H3. repeat split; lia.
Qed.

End AnalysisFacts.

(** ** The ingest *)

Module IngestFacts.

Import JS Types Ingest TextFacts.

Lemma normalizePhone_allDigits phone : allDigits (normalizePhone phone) = true.
Proof.
  induction phone as [|c rest IH]; [reflexivity|]. simpl.
  destruct (isDigit c) eqn:E; [|exact IH]. simpl. now rewrite E, IH.
Qed.

Lemma normalizePhone_fixed s : allDigits s = true -> normalizePhone s = s.
Proof.
  induction s as [|c rest IH]; [reflexivity|]. simpl. intros H.
  apply andb_true_iff in H as [-> H]. now rewrite IH.
Qed.

Lemma normalizePhone_append a b :
  normalizePhone (a +:+ b) = (normalizePhone a +:+ normalizePhone b)%string.
Proof.
  induction a as [|c a IH]; [reflexivity|]. rewrite append_cons. simpl.
  destruct (isDigit c); [|exact IH]. now rewrite append_cons, IH.
Qed.

Lemma normalizePhone_length phone :
  String.length (normalizePhone phone) <= String.length phone.
Proof.
  induction phone as [|c rest IH]; [reflexivity|]. simpl.
  destruct (isDigit c); simpl; lia.
Qed.

Section Batches.
Variable bulk : list MergedRecord -> BulkResponse + Error.
Variable records : list MergedRecord.

Lemma ingestFrom_batches fuel i r :
  length records - i < fuel ->
  let batches := snd (ingestFrom bulk records fuel i r) in
  concat batches = skipn i records /\
  Forall (fun batch => 0 < length batch <= batchSize) batches /\
  length batches = (length records - i + (batchSize - 1)) / batchSize /\
  (forall pre batch post, batches = pre ++ batch :: post -> post <> [] ->
                          length batch = batchSize).
Proof.
  unfold batchSize. revert i r. induction fuel as [|fuel IH]; intros i r Hfuel; [lia|].
  cbn [ingestFrom]. destruct (Nat.ltb_spec i (length records)) as [Hi|Hi].
  - set (batch := firstn batchSize (skipn i records)).
    destruct (ingestFrom bulk records fuel (i + batchSize) (ingestBatch bulk batch r))
      as [r' batches] eqn:E.
    destruct (IH (i + batchSize) (ingestBatch bulk batch r)) as (H1 & H2 & H3 & H4);
      [unfold batchSize; lia|].
    rewrite E in H1, H2, H3, H4. cbn [snd] in *. unfold batchSize in *.
    assert (Hlen : length batch = Nat.min 50 (length records - i)).
    { subst batch. unfold batchSize. now rewrite length_firstn, length_skipn. }
    split; [|split; [|split]].
    + cbn [concat]. rewrite H1. subst batch. unfold batchSize.
      rewrite Nat.add_comm, <- skipn_skipn. apply firstn_skipn.
    + constructor; [lia | exact H2].
    + cbn [length]. rewrite H3.
      destruct (Nat.le_gt_cases 50 (length records - i)) as [Hbig|Hsmall].
      * replace (length records - i + (50 - 1))
          with (length records - (i + 50) + (50 - 1) + 1 * 50) by lia.
        rewrite Nat.div_add by lia. lia.
      * replace (length records - (i + 50)) with 0 by lia.
        rewrite (Nat.div_small (0 + (50 - 1))) by lia.
        cbn [length Nat.add]. apply (Nat.div_unique _ _ _ (length records - i - 1)); lia.
    + intros pre b post Heq Hpost. destruct pre as [|x pre].
      * injection Heq as Hb Hp. subst post. rewrite <- Hb.
        destruct batches as [|y post]; [congruence|].
        apply Forall_cons in H2 as [Hy _].
        assert (Hnz : concat (y :: post) <> []).
        { simpl. destruct y; [simpl in Hy; lia | discriminate]. }
        rewrite H1 in Hnz.
        assert (i + 50 < length records).
        { destruct (Nat.lt_ge_cases (i + 50) (length records)) as [H|H]; [exact H|].
          exfalso. apply Hnz. now apply skipn_all2. }
        lia.
      * injection Heq as _ Heq. now apply (H4 pre b post).
  - cbn [snd]. rewrite skipn_all2 by lia.
    replace (length records - i) with 0 by lia.
    split; [reflexivity|]. split; [constructor|]. split; [reflexivity|].
    intros pre b post Heq. now destruct pre.
Qed.

Lemma countItems_counts batch idx its r :
  let r' := countItems batch idx its r in
  success r' + failed r' = success r + failed r + length its /\
  length (failedSites r') - failed r' = length (failedSites r) - failed r /\
  (length (failedSites r) = failed r -> length (failedSites r') = failed r').
Proof.
  revert idx r. induction its as [|item its IH]; intros idx r; cbn [countItems].
  - cbn. lia.
  - destruct (IH (S idx) (countItem batch r idx item)) as (H1 & H2 & H3).
    cbv zeta in *. destruct item as [e|]; cbn [countItem success failed failedSites] in *;
      rewrite ?length_app in *; cbn [length] in *; lia.
Qed.

Lemma ingestBatch_counts batch r :
  let r' := ingestBatch bulk batch r in
  (length (failedSites r) = failed r -> length (failedSites r') = failed r') /\
  (oneItemPerRecord bulk ->
   success r' + failed r' = success r + failed r + length batch).
Proof.
  cbv zeta. unfold ingestBatch.
  destruct (Nat.eqb_spec (length batch) 0) as [Hz|Hz]; [split; intros; lia|].
  destruct (bulk batch) as [response|e] eqn:Eb.
  - destruct (errors response) eqn:Ee.
    + destruct (countItems_counts batch 0 (items response) r) as (H1 & _ & H3).
      cbv zeta in *. split; [exact H3|]. intros Hone.
      rewrite H1, (Hone batch response Eb Ee). reflexivity.
    + cbn. split; intros; lia.
  - cbn. rewrite length_app, length_map. split; intros; lia.
Qed.

Lemma ingestFrom_counts fuel i r :
  let out := ingestFrom bulk records fuel i r in
  (length (failedSites r) = failed r ->
   length (failedSites (fst out)) = failed (fst out)) /\
  (oneItemPerRecord bulk ->
   success (fst out) + failed (fst out)
   = success r + failed r + length (concat (snd out))).
Proof.
  revert i r. induction fuel as [|fuel IH]; intros i r; cbn [ingestFrom].
  - cbn. split; intros; lia.
  - destruct (Nat.ltb i (length records)); [|cbn; split; intros; lia].
    set (batch := firstn batchSize (skipn i records)).
    destruct (IH (i + batchSize) (ingestBatch bulk batch r)) as [H1 H2].
    destruct (ingestBatch_counts batch r) as [H3 H4]. cbv zeta in *.
    destruct (ingestFrom bulk records fuel (i + batchSize) (ingestBatch bulk batch r))
      as [r' batches].
    cbn [fst snd concat] in *. rewrite length_app. split.
    + intros H. apply H1, H3, H.
    + intros Hone. rewrite (H2 Hone), (H4 Hone). lia.
Qed.

End Batches.

(** X22.  [ingestData] sends the records to the index in consecutive
    batches: the batches handed to [client.bulk], one after the other, are
    the records in their order; no batch is empty, none holds more than 50
    records and every batch but the last holds exactly 50; so n records
    take ceil(n/50) calls and no record is sent twice or left out. *)
Theorem ingestData_batches :
  forall (bulk : list MergedRecord -> BulkResponse + Error)
         (records : list MergedRecord),
    let batches := snd (ingestData bulk records) in
    concat batches = records /\
    Forall (fun batch => 0 < length batch <= 50) batches /\
    length batches = (length records + 49) / 50 /\
    (forall pre batch post, batches = pre ++ batch :: post -> post <> [] ->
                            length batch = 50).
Proof.
  intros bulk records.
  destruct (ingestFrom_batches bulk records (S (length records)) 0
              {| success := 0; failed := 0; failedSites := [] |})
    as (H1 & H2 & H3 & H4); [lia|].
  cbv zeta in *. unfold ingestData. rewrite Nat.sub_0_r in H3.
  repeat split; assumption.
Qed.

(** X23.  [ingestData] lists one failed site for each record it counts as
    failed.  When the index answers every batch it reports errors for with
    one item per record, each record is counted once, as ingested or as
    failed; a batch whose call is rejected is counted as failed as a whole,
    a batch answered without errors as ingested as a whole. *)
Theorem ingestData_accounts_for_every_record :
  forall (bulk : list MergedRecord -> BulkResponse + Error)
         (records : list MergedRecord),
    let result := fst (ingestData bulk records) in
    length (failedSites result) = failed result /\
    (oneItemPerRecord bulk -> success result + failed result = length records).
Proof.
  intros bulk records result. subst result. unfold ingestData.
  destruct (ingestFrom_counts bulk records (S (length records)) 0
              {| success := 0; failed := 0; failedSites := [] |}) as [H1 H2].
  destruct (ingestFrom_batches bulk records (S (length records)) 0
              {| success := 0; failed := 0; failedSites := [] |})
    as (H3 & _); [lia|].
  cbv zeta in *. split; [now apply H1|].
  intros Hone. rewrite (H2 Hone), H3. reflexivity.
Qed.

Lemma ingestData_accounts_for_every_record_witness :
  oneItemPerRecord pickyIndex /\
  success (fst (ingestData pickyIndex [recordOf "a.example"; recordOf "bad.example"]))
  + failed (fst (ingestData pickyIndex [recordOf "a.example"; recordOf "bad.example"]))
  = 2.
Proof.
  assert (Hone : oneItemPerRecord pickyIndex).
  { intros batch response Hb _. unfold pickyIndex in Hb.
    injection Hb as <-. cbn [items]. apply length_map. }
  split; [exact Hone|].
  exact (proj2 (ingestData_accounts_for_every_record pickyIndex
                  [recordOf "a.example"; recordOf "bad.example"]) Hone).
Defined.

End IngestFacts.

(** ** The match API *)

Module ApiFacts.

Import JS Types Ingest Api TextFacts IngestFacts.

Lemma substring_parts (s : string) :
  String.length s = 10 ->
  (substring 0 3 s +:+ substring 3 3 s +:+ substring 6 4 s)%string = s.
Proof.
  destruct s as [|c0 [|c1 [|c2 [|c3 [|c4 [|c5 [|c6 [|c7 [|c8 [|c9 [|c10 s]]]]]]]]]]];
    simpl; intros H; try discriminate; reflexivity.
Qed.

Lemma append_nil_l (s : string) : ("" +:+ s)%string = s.
Proof. reflexivity. Qed.

Lemma formatPhoneNumber_cases phoneNumber :
  let cleaned := normalizePhone phoneNumber in
  (String.length cleaned = 10 /\
   formatPhoneNumber phoneNumber
   = ("(" +:+ substring 0 3 cleaned +:+ ") " +:+ substring 3 3 cleaned +:+ "-"
      +:+ substring 6 4 cleaned)%string) \/
  (String.length cleaned <> 10 /\ formatPhoneNumber phoneNumber = phoneNumber).
Proof.
  cbv zeta. unfold formatPhoneNumber.
  destruct (Nat.eqb_spec (String.length (normalizePhone phoneNumber)) 10); auto.
Qed.

Lemma formatPhoneNumber_digits phoneNumber :
  normalizePhone (formatPhoneNumber phoneNumber) = normalizePhone phoneNumber.
Proof.
  destruct (formatPhoneNumber_cases phoneNumber) as [[Hlen ->]|[_ ->]]; [|reflexivity].
  unfold normalizePhone.
  rewrite !normalizePhone_append.
  change (Ingest.normalizePhone "(") with EmptyString.
  change (Ingest.normalizePhone ") ") with EmptyString.
  change (Ingest.normalizePhone "-") with EmptyString.
  rewrite !append_nil_l, <- !normalizePhone_append.
  fold normalizePhone. rewrite (substring_parts _ Hlen).
  apply normalizePhone_fixed, normalizePhone_allDigits.
Qed.

(** X24.  Formatting a phone number keeps its digits: the formatted number
    normalises to the same digit string as the original, so a formatted
    number matches the same phone queries; formatting twice is formatting
    once; and normalising gives digits only and leaves a digit string
    unchanged. *)
Theorem formatPhoneNumber_keeps_digits :
  forall phoneNumber : string,
    normalizePhone (formatPhoneNumber phoneNumber) = normalizePhone phoneNumber /\
    formatPhoneNumber (formatPhoneNumber phoneNumber) = formatPhoneNumber phoneNumber /\
    allDigits (normalizePhone phoneNumber) = true /\
    normalizePhone (normalizePhone phoneNumber) = normalizePhone phoneNumber /\
    (String.length (normalizePhone phoneNumber) = 10 ->
     String.length (formatPhoneNumber phoneNumber) = 14).
Proof.
  intros phoneNumber.
  pose proof (formatPhoneNumber_digits phoneNumber) as Hd.
  split; [exact Hd|]. split; [|split; [|split]].
  - destruct (formatPhoneNumber_cases phoneNumber) as [[Hlen Hf]|[_ Hf]].
    + destruct (formatPhoneNumber_cases (formatPhoneNumber phoneNumber))
        as [[_ Hf2]|[Hne _]].
      * rewrite Hf2, Hd. symmetry. exact Hf.
      * rewrite Hd in Hne. contradiction.
    + now rewrite !Hf.
  - apply normalizePhone_allDigits.
  - apply normalizePhone_fixed, normalizePhone_allDigits.
  - intros Hlen. destruct (formatPhoneNumber_cases phoneNumber) as [[_ ->]|[Hne _]];
      [|contradiction].
    remember (normalizePhone phoneNumber) as s eqn:Hs. clear Hs.
    destruct s as [|c0 [|c1 [|c2 [|c3 [|c4 [|c5 [|c6 [|c7 [|c8 [|c9 [|c10 s]]]]]]]]]]];
      simpl in Hlen; try discriminate. reflexivity.
Qed.

Lemma shouldClauses_malformed req :
  shouldClauses req = None <-> malformed req = true.
Proof.
  unfold shouldClauses, malformed, phoneClause, websiteClause.
  destruct (input_phone req) as [|p|j [|]], (input_website req) as [|w|j' [|]];
    cbn; try destruct (negb (String.eqb p "")); try destruct (negb (String.eqb w ""));
    cbn; split; intros H; try reflexivity; try discriminate H.
Qed.

Lemma shouldClauses_empty req clauses :
  shouldClauses req = Some clauses ->
  Nat.eqb (length clauses) 0 = noInput req.
Proof.
  unfold shouldClauses, noInput, phoneClause, websiteClause.
  destruct (truthy (input_name req)), (truthy (input_facebook req)),
    (input_phone req) as [|p|j [|]], (input_website req) as [|w|j' [|]];
    cbn; try destruct (negb (String.eqb p "")); try destruct (negb (String.eqb w ""));
    cbn; intros H; try discriminate H; injection H as <-; reflexivity.
Qed.

(** X25.  When a phone or a web site is given that is not a string, the
    handler of [POST /match] throws before its [try] block: the request gets
    no reply and no search is made.  Otherwise it answers 400 "No input
    provided", without searching, exactly when none of the four inputs is
    given; and when one is, it makes one search, for 100 hits when a phone
    number is given and for 1 hit when not, and answers 500 when the search
    fails, 404 when it finds nothing, and with one of the hits otherwise. *)
Theorem match_without_input :
  forall (search : list Clause -> nat -> list Hit + Error) (req : MatchRequest),
    if malformed req then matchHandler search req = (None, [])
    else if noInput req then
      matchHandler search req = (Some (ErrorReply 400 "No input provided"), [])
    else
      let size := if truthy (input_phone req) then 100 else 1 in
      shouldClauses req = Some (clausesOf req) /\
      clausesOf req <> [] /\
      snd (matchHandler search req) = [(clausesOf req, size)] /\
      match search (clausesOf req) size with
      | inr _ => fst (matchHandler search req) = Some (ErrorReply 500 "Search failed")
      | inl [] => fst (matchHandler search req)
                  = Some (ErrorReply 404 "No matching company found")
      | inl (first :: hits) =>
          exists hit, In hit (first :: hits) /\
                      fst (matchHandler search req) = Some (replyWith hit)
      end.
Proof.
  intros search req. unfold matchHandler, clausesOf.
  pose proof (shouldClauses_malformed req) as Hm.
  destruct (shouldClauses req) as [clauses|] eqn:Hc.
  - destruct (malformed req); [discriminate (proj2 Hm eq_refl)|].
    rewrite (shouldClauses_empty req clauses Hc).
    destruct (noInput req) eqn:Hn; [reflexivity|]. cbv zeta.
    split; [reflexivity|]. split.
    { intros ->. pose proof (shouldClauses_empty req [] Hc) as H.
      rewrite Hn in H. discriminate H. }
    destruct (search _ _) as [[|first hits]|e]; cbn [fst snd];
      [now split | | now split].
    destruct (match input_phone req with Text _ => _ | _ => _ end)
      as [|hit phoneHits] eqn:E.
    + split; [reflexivity|]. exists first. split; [now left | reflexivity].
    + split; [reflexivity|]. exists hit. split; [|reflexivity].
      destruct (input_phone req) as [|phone|j t]; try discriminate E.
      destruct (truthy (Text phone)); [|discriminate E].
      assert (H : In hit (hit :: phoneHits)) by now left.
      rewrite <- E in H. now apply filter_In in H as [H _].
  - now rewrite (proj1 Hm eq_refl).
Qed.


(** X27.  The phone numbers a merged record sends to the index are digit
    strings, and [POST /match] finds the record by phone whatever the
    formatting on either side: the record matches an input phone exactly
    when the extraction results of its domain list a number with the same
    digits as the input.  A domain without extraction results is never
    matched by phone. *)
Theorem ingested_phone_matches :
  forall (jsonData : LLM.ResultRecord) (now : string) (record : Ingest.CsvRecord)
         (input : string),
    let m := Ingest.mergeRecord jsonData now record in
    let domain := toLowerCase (trim (Ingest.domain record)) in
    Ingest.mdomain m = domain /\
    Forall (fun phone => Ingest.allDigits phone = true) (Ingest.mphone_numbers m) /\
    (phoneMatches (normalizePhone input) (Some (documentOf m)) = true <->
     exists data raw,
       LLM.obj_get domain jsonData = Some data /\ In raw (phone_numbers data) /\
       normalizePhone raw = normalizePhone input) /\
    (LLM.obj_get domain jsonData = None ->
     phoneMatches (normalizePhone input) (Some (documentOf m)) = false).
Proof.
  intros jsonData now record input m domain. subst m domain.
  unfold Ingest.mergeRecord, phoneMatches, documentOf.
  cbn [Ingest.mdomain Ingest.mphone_numbers cphone_numbers].
  set (domain := toLowerCase (trim (Ingest.domain record))).
  assert (Hmatch : forall phones,
    existsb (fun phone => String.eqb (normalizePhone phone) (normalizePhone input))
            (map Ingest.normalizePhone phones) = true <->
    exists raw, In raw phones /\ normalizePhone raw = normalizePhone input).
  { intros phones. rewrite existsb_exists. split.
    - intros (x & Hx & He). apply in_map_iff in Hx. destruct Hx as (raw & <- & Hraw).
      exists raw. split; [exact Hraw|].
      apply String.eqb_eq in He. unfold normalizePhone in *.
      now rewrite (IngestFacts.normalizePhone_fixed _
                     (IngestFacts.normalizePhone_allDigits raw)) in He.
    - intros (raw & Hraw & He). exists (Ingest.normalizePhone raw).
      split; [apply in_map; exact Hraw|].
      apply String.eqb_eq. unfold normalizePhone in *.
      now rewrite (IngestFacts.normalizePhone_fixed _
                     (IngestFacts.normalizePhone_allDigits raw)). }
  split; [reflexivity|]. split; [|split].
  - apply List.Forall_forall. intros phone Hin. apply in_map_iff in Hin.
    destruct Hin as (raw & <- & _). apply IngestFacts.normalizePhone_allDigits.
  - rewrite Hmatch. destruct (LLM.obj_get domain jsonData) as [data|].
    + split.
      * intros (raw & H1 & H2). now exists data, raw.
      * intros (data' & raw & Hd & H1 & H2). injection Hd as <-. now exists raw.
    + split.
      * intros (raw & [] & _).
      * intros (data' & raw & Hd & _). discriminate Hd.
  - intros Hnone. rewrite Hnone. reflexivity.
Qed.

End ApiFacts.
